(** * The navigation transition engine of vue-router (src/history/base.js,
      src/history/hash.js and the router class), as a state machine.

    JavaScript objects that the code compares with [===] carry a reference
    number; closures are represented by the data they capture; the calls the
    engine makes into user code (guards, hooks, callbacks) are recorded in a
    log, and what a guard does when it is called is given by an oracle. *)

From stdpp Require Import base option list strings gmap.

Set Default Proof Using "Type".

(** ** Data model *)

(** The identity of a function supplied by the application. *)
Definition FnId := nat.

(** A plain object handed to [next]: [o_path] and [o_name] hold the field when
    [typeof] of it is ['string'], [o_replace] is the truthiness of [replace]. *)
Record LocationObj := {
  o_path : option string;
  o_name : option string;
  o_replace : bool
}.

(** The values a guard can pass to its continuation ([to: any]), a location
    given to [push]/[replace], or a value thrown by a guard. *)
Inductive Value :=
| VUndefined
| VNull
| VBool (b : bool)
| VString (s : string)
| VError (msg : string)
| VFunction (f : FnId)
| VObject (o : LocationObj).

(** Modelled from the spec: [isError] of util/warn, which is not among the
    sources: "an error value". *)
Definition isError (v : Value) : bool :=
  match v with VError _ => true | _ => false end.

(** [to === false] *)
Definition is_false (v : Value) : bool :=
  match v with VBool false => true | _ => false end.

(** JavaScript truthiness, for [err && ...]. *)
Definition truthy (v : Value) : bool :=
  match v with
  | VUndefined | VNull => false
  | VBool b => b
  | VString s => negb (String.eqb s EmptyString)
  | VError _ | VFunction _ | VObject _ => true
  end.

(** A live component instance. *)
Record Instance := {
  inst_id : nat;
  isBeingDestroyed : bool
}.

(** [def.options[key]] for a route guard key: absent, one guard, or the array
    that the hook merging strategy builds. *)
Inductive GuardOption :=
| NoGuard
| OneGuard (g : FnId)
| GuardArray (gs : list FnId).

Inductive GuardName := beforeRouteLeave | beforeRouteUpdate | beforeRouteEnter.

(** A component definition, reduced to the options the engine reads. *)
Record ComponentDef := {
  options : GuardName -> GuardOption
}.

(** A route record. [rr_ref] is the identity of the object; [components]
    keeps the order of [Object.keys]. *)
Record RouteRecord := {
  rr_ref : nat;
  components : list (string * ComponentDef);
  instances : gmap string Instance;
  beforeEnter : option FnId
}.

(** What the matcher computes for a location. *)
Record RouteData := {
  path : string;
  fullPath : string;
  matched : list RouteRecord
}.

(** A route object: the matcher's data and the identity of the object. *)
Record Route := {
  route_ref : nat;
  route_data : RouteData
}.

(** [a === b] on route records and routes. *)
Definition same_record (a b : RouteRecord) : bool := Nat.eqb (rr_ref a) (rr_ref b).
Definition same_route (a b : Route) : bool := Nat.eqb (route_ref a) (route_ref b).

(** [this.pending !== route] *)
Definition pending_is_not (p : option Route) (route : Route) : bool :=
  match p with
  | Some r => negb (same_route r route)
  | None => true
  end.

(** Modelled from the spec: the START sentinel of util/route, which is not
    among the sources: "has an empty matched sequence and empty path". *)
Definition START : Route :=
  {| route_ref := 0; route_data := {| path := EmptyString; fullPath := EmptyString; matched := [] |} |}.

(** ** Route diff *)

(** [current[i] !== next[i]]: an index past the end reads [undefined]. *)
Definition differ_at (current next : list RouteRecord) (i : nat) : bool :=
  match current !! i, next !! i with
  | Some a, Some b => negb (same_record a b)
  | None, None => false
  | _, _ => true
  end.

(** The loop [for (i = 0; i < max; i++) if (current[i] !== next[i]) break];
    [fuel] is [max - i]. *)
Fixpoint first_difference (fuel i : nat) (current next : list RouteRecord) : nat :=
  match fuel with
  | 0 => i
  | S fuel' =>
      if differ_at current next i then i
      else first_difference fuel' (S i) current next
  end.

Record Diff := {
  updated : list RouteRecord;
  activated : list RouteRecord;
  deactivated : list RouteRecord
}.

Definition resolveQueue (current next : list RouteRecord) : Diff :=
  let max := Nat.max (length current) (length next) in
  let i := first_difference max 0 current next in
  {| updated := take i next;
     activated := drop i next;
     deactivated := drop i current |}.

(** ** Guard extractor *)

(** The functions that sit in a guard queue.

    Modelled from the spec: [resolveAsyncComponents] of
    util/resolve-components, which is not among the sources: "one step that
    resolves any lazily-loaded component definitions in the activated
    records". It is the queue item [ResolveAsync]; like a guard it is called
    with [(to, from, next)], and whether and when it calls [next] comes from
    the oracle. The replacement of the lazy definitions inside the records is
    not represented. *)
Inductive QueueItem :=
| UserGuard (g : FnId)
    (* a function of the application: global hook or beforeEnter *)
| BoundRouteGuard (g : FnId) (instance : Instance)
    (* bindGuard's closure *)
| RouteEnterGuard (g : FnId) (record : RouteRecord) (key : string)
    (* bindEnterGuard's closure *)
| ResolveAsync (records : list RouteRecord).
    (* the function returned by resolveAsyncComponents *)

(** An element of a JavaScript array that [concat] either spreads (an array)
    or appends as it is. *)
Inductive Element (A : Type) :=
| Single (a : A)
| Arr (l : list A).
Arguments Single {A} a.
Arguments Arr {A} l.

(** Modelled from the spec: [flatten] of util/resolve-components, which is
    not among the sources: flattening "the (possibly nested, one level)
    guard lists into a single ordered sequence". *)
Definition flatten {A} (arr : list (Element A)) : list A :=
  concat (map (fun e => match e with Single a => [a] | Arr l => l end) arr).

(** Modelled from the spec: [flatMapComponents] of util/resolve-components,
    which is not among the sources: "for each record, for each named
    component slot", the function applied to the definition, the live
    instance of the slot, the record and the slot name. *)
Definition flatMapComponents {A}
    (records : list RouteRecord)
    (fn : ComponentDef -> option Instance -> RouteRecord -> string -> A) : list A :=
  flatten (map (fun m =>
    Arr (map (fun kd : string * ComponentDef =>
                fn kd.2 (instances m !! kd.1) m kd.1) (components m))) records).

Definition extractGuard (def : ComponentDef) (key : GuardName) : GuardOption :=
  options def key.

Definition extractGuards
    (records : list RouteRecord) (name : GuardName)
    (bind : FnId -> option Instance -> RouteRecord -> string -> option QueueItem)
    (reverse : bool) : list (option QueueItem) :=
  let guards := flatMapComponents records (fun def instance match_ key =>
    match extractGuard def name with
    | NoGuard => Single None
    | OneGuard guard => Single (bind guard instance match_ key)
    | GuardArray gs => Arr (map (fun guard => bind guard instance match_ key) gs)
    end) in
  flatten (if reverse then rev guards else guards).

Definition bindGuard (guard : FnId) (instance : option Instance)
    (match_ : RouteRecord) (key : string) : option QueueItem :=
  match instance with
  | Some i => Some (BoundRouteGuard guard i)
  | None => None
  end.

Definition extractLeaveGuards (deactivated : list RouteRecord) : list (option QueueItem) :=
  extractGuards deactivated beforeRouteLeave bindGuard true.

Definition extractUpdateHooks (updated : list RouteRecord) : list (option QueueItem) :=
  extractGuards updated beforeRouteUpdate bindGuard false.

(** [bindEnterGuard]: the closure keeps the guard, the record and the slot
    name; the callback list and [isValid] belong to the transition that
    extracts it. *)
Definition bindEnterGuard (guard : FnId) (match_ : RouteRecord) (key : string) : QueueItem :=
  RouteEnterGuard guard match_ key.

Definition extractEnterGuards (activated : list RouteRecord) : list (option QueueItem) :=
  extractGuards activated beforeRouteEnter
    (fun guard _ match_ key => Some (bindEnterGuard guard match_ key)) false.

(** ** The state of the controller, the router and the host *)

Record History := {
  current : Route;
  pending : option Route;
  ready : bool;
  readyCbs : list FnId;
  readyErrorCbs : list FnId;
  errorCbs : list FnId;
  cb : option FnId
}.

Record Router := {
  beforeHooks : list (option FnId);
  resolveHooks : list (option FnId);
  afterHooks : list (option FnId);
  app : bool
}.

(** The [onComplete] argument of [transitionTo]: a function of the
    application, one of the closures that HashHistory's [push] and [replace]
    build around the caller's [onComplete], or the closure of the listener
    that [setupListeners] installs. *)
Inductive OnComplete :=
| OcUser (f : FnId)
| OcHashPush (fromRoute : Route) (onComplete : option FnId)
| OcHashReplace (fromRoute : Route) (onComplete : option FnId)
| OcHashListener (current : Route) (supportsScroll supportsPushState : bool).

(** What the engine does to the outside: the calls into the application's
    functions, labelled by the place of the call, and the updates of the
    address. *)
Inductive Event :=
| EvGuard (hook : QueueItem) (to from : Route)
| EvErrorCb (cb : FnId) (err : Value)
| EvUncaught (err : Value)
| EvOnAbort (f : FnId) (err : Value)
| EvOnComplete (f : FnId) (route : Route)
| EvListener (cb : FnId) (route : Route)
| EvAfterHook (hook : FnId) (route prev : Route)
| EvReadyCb (cb : FnId) (route : Route)
| EvReadyNow (cb : FnId)
| EvReadyErrorCb (cb : FnId) (err : Value)
| EvPushHash (path : string)
| EvReplaceHash (path : string)
| EvHandleScroll (route from : Route) (isPop : bool)
| EvPostEnter (cb : FnId) (instance : Instance)
| EvThrown (err : Value).

(** One call of [confirmTransition]: the variables its closures capture. *)
Record Transition := {
  t_route : Route;
  t_current : Route;
  t_activated : list RouteRecord;
  t_onComplete : option OnComplete;
  t_onAbort : option FnId
}.

Inductive Phase := PreResolve | PostResolve.

(** The calls that are still to be made when the running one returns. *)
Inductive Frame :=
| FStep (tr : Transition) (ph : Phase) (queue : list (option QueueItem)) (index : nat)
    (* runQueue's step(index) *)
| FPushCb (tr : Transition) (cb : FnId) (match_ : RouteRecord) (key : string).
    (* the rest of bindEnterGuard's callback after next(cb) *)

(** A guard that was called and has not called its continuation yet: the
    continuation it holds. The guard is [s_queue[s_index]]. *)
Record Suspension := {
  s_tr : Transition;
  s_phase : Phase;
  s_queue : list (option QueueItem);
  s_index : nat;
  s_hook : QueueItem
}.

(** The closure that bindEnterGuard pushes on the callback list. *)
Record PostEnterCb := {
  pe_cb : FnId;
  pe_record : RouteRecord;
  pe_key : string;
  pe_route : Route
}.

Record Machine := {
  history : History;
  router : Router;
  location_hash : string;      (* what getHash() reads *)
  next_ref : nat;              (* identity of the next route object *)
  log : list Event;
  control : list Frame;
  suspended : list Suspension;
  postEnterCbs : gmap nat (list PostEnterCb);   (* one array per transition *)
  nextTicks : list nat;        (* flushes handed to $nextTick *)
  timers : list PostEnterCb    (* polls handed to setTimeout *)
}.

(** *** Field updates *)

Definition with_history (f : History -> History) (m : Machine) : Machine :=
  {| history := f (history m); router := router m;
     location_hash := location_hash m; next_ref := next_ref m; log := log m;
     control := control m; suspended := suspended m;
     postEnterCbs := postEnterCbs m; nextTicks := nextTicks m; timers := timers m |}.

Definition with_router (f : Router -> Router) (m : Machine) : Machine :=
  {| history := history m; router := f (router m);
     location_hash := location_hash m; next_ref := next_ref m; log := log m;
     control := control m; suspended := suspended m;
     postEnterCbs := postEnterCbs m; nextTicks := nextTicks m; timers := timers m |}.

Definition set_current (r : Route) (h : History) : History :=
  {| current := r; pending := pending h; ready := ready h;
     readyCbs := readyCbs h; readyErrorCbs := readyErrorCbs h;
     errorCbs := errorCbs h; cb := cb h |}.

Definition set_pending (p : option Route) (h : History) : History :=
  {| current := current h; pending := p; ready := ready h;
     readyCbs := readyCbs h; readyErrorCbs := readyErrorCbs h;
     errorCbs := errorCbs h; cb := cb h |}.

Definition set_ready (b : bool) (h : History) : History :=
  {| current := current h; pending := pending h; ready := b;
     readyCbs := readyCbs h; readyErrorCbs := readyErrorCbs h;
     errorCbs := errorCbs h; cb := cb h |}.

Definition set_readyCbs (l : list FnId) (h : History) : History :=
  {| current := current h; pending := pending h; ready := ready h;
     readyCbs := l; readyErrorCbs := readyErrorCbs h;
     errorCbs := errorCbs h; cb := cb h |}.

Definition set_readyErrorCbs (l : list FnId) (h : History) : History :=
  {| current := current h; pending := pending h; ready := ready h;
     readyCbs := readyCbs h; readyErrorCbs := l;
     errorCbs := errorCbs h; cb := cb h |}.

Definition set_errorCbs (l : list FnId) (h : History) : History :=
  {| current := current h; pending := pending h; ready := ready h;
     readyCbs := readyCbs h; readyErrorCbs := readyErrorCbs h;
     errorCbs := l; cb := cb h |}.

Definition set_cb (c : option FnId) (h : History) : History :=
  {| current := current h; pending := pending h; ready := ready h;
     readyCbs := readyCbs h; readyErrorCbs := readyErrorCbs h;
     errorCbs := errorCbs h; cb := c |}.

Definition set_location_hash (s : string) (m : Machine) : Machine :=
  {| history := history m; router := router m;
     location_hash := s; next_ref := next_ref m; log := log m;
     control := control m; suspended := suspended m;
     postEnterCbs := postEnterCbs m; nextTicks := nextTicks m; timers := timers m |}.

Definition set_next_ref (n : nat) (m : Machine) : Machine :=
  {| history := history m; router := router m;
     location_hash := location_hash m; next_ref := n; log := log m;
     control := control m; suspended := suspended m;
     postEnterCbs := postEnterCbs m; nextTicks := nextTicks m; timers := timers m |}.

Definition set_beforeHooks (l : list (option FnId)) (r : Router) : Router :=
  {| beforeHooks := l; resolveHooks := resolveHooks r; afterHooks := afterHooks r;
     app := app r |}.

Definition set_resolveHooks (l : list (option FnId)) (r : Router) : Router :=
  {| beforeHooks := beforeHooks r; resolveHooks := l; afterHooks := afterHooks r;
     app := app r |}.

Definition set_afterHooks (l : list (option FnId)) (r : Router) : Router :=
  {| beforeHooks := beforeHooks r; resolveHooks := resolveHooks r; afterHooks := l;
     app := app r |}.

(** A call into the application or the host: appended to the log. *)
Definition emit (evs : list Event) (m : Machine) : Machine :=
  {| history := history m; router := router m;
     location_hash := location_hash m; next_ref := next_ref m; log := log m ++ evs;
     control := control m; suspended := suspended m;
     postEnterCbs := postEnterCbs m; nextTicks := nextTicks m; timers := timers m |}.

Definition set_control (c : list Frame) (m : Machine) : Machine :=
  {| history := history m; router := router m;
     location_hash := location_hash m; next_ref := next_ref m; log := log m;
     control := c; suspended := suspended m;
     postEnterCbs := postEnterCbs m; nextTicks := nextTicks m; timers := timers m |}.

Definition set_suspended (l : list Suspension) (m : Machine) : Machine :=
  {| history := history m; router := router m;
     location_hash := location_hash m; next_ref := next_ref m; log := log m;
     control := control m; suspended := l;
     postEnterCbs := postEnterCbs m; nextTicks := nextTicks m; timers := timers m |}.

Definition set_postEnterCbs (s : gmap nat (list PostEnterCb)) (m : Machine) : Machine :=
  {| history := history m; router := router m;
     location_hash := location_hash m; next_ref := next_ref m; log := log m;
     control := control m; suspended := suspended m;
     postEnterCbs := s; nextTicks := nextTicks m; timers := timers m |}.

Definition set_nextTicks (l : list nat) (m : Machine) : Machine :=
  {| history := history m; router := router m;
     location_hash := location_hash m; next_ref := next_ref m; log := log m;
     control := control m; suspended := suspended m;
     postEnterCbs := postEnterCbs m; nextTicks := l; timers := timers m |}.

Definition set_timers (l : list PostEnterCb) (m : Machine) : Machine :=
  {| history := history m; router := router m;
     location_hash := location_hash m; next_ref := next_ref m; log := log m;
     control := control m; suspended := suspended m;
     postEnterCbs := postEnterCbs m; nextTicks := nextTicks m; timers := l |}.

Definition push_frame (f : Frame) (m : Machine) : Machine :=
  set_control (f :: control m) m.

(** What a guard does during the call [hook(route, current, next)]: it calls
    its continuation before it returns, it throws, or it returns and leaves
    the continuation to a later task. A continuation is called at most once:
    a suspended guard is removed when it continues. The other functions of
    the application (listener, hooks, callbacks) are recorded when they are
    called and return normally; what the application calls on the router is
    an [Input], at any point between two calls of the engine. *)
Inductive Behaviour :=
| Calls (to : Value)
| Throws (e : Value)
| Defers.

(** [typeof] *)
Inductive JsType := TUndefined | TObject | TBoolean | TString | TFunction.

Definition typeof (v : Value) : JsType :=
  match v with
  | VUndefined => TUndefined
  | VNull | VError _ | VObject _ => TObject
  | VBool _ => TBoolean
  | VString _ => TString
  | VFunction _ => TFunction
  end.

Definition is_string_type (t : JsType) : bool :=
  match t with TString => true | _ => false end.

Definition is_object_type (t : JsType) : bool :=
  match t with TObject => true | _ => false end.

(** The error of reading a property of [null]. *)
Definition null_property_error : Value := VError "TypeError".

(** [typeof to.path === 'string' || typeof to.name === 'string'], for a [to]
    whose [typeof] is ['object']; reading a property of [null] throws. *)
Definition path_or_name_is_string (to : Value) : Value + bool :=
  match to with
  | VNull => inl null_property_error
  | VObject o => inr (bool_decide (is_Some (o_path o)) || bool_decide (is_Some (o_name o)))
  | _ => inr false
  end.

(** [typeof to === 'object' && to.replace] *)
Definition asks_replace (to : Value) : bool :=
  match to with
  | VObject o => o_replace o
  | _ => false
  end.

(** [this.current === route], the [isValid] of a transition. *)
Definition isValid (route : Route) (m : Machine) : bool :=
  same_route (current (history m)) route.

(** *** class VueRouter: the hook lists *)

(** [list.push(fn)] of [registerHook]. *)
Definition registerHook (hooks : list (option FnId)) (fn : FnId) : list (option FnId) :=
  hooks ++ [Some fn].

(** The function that [registerHook] returns:
    [const i = list.indexOf(fn); if (i > -1) list.splice(i, 1)]. *)
Fixpoint unregisterHook (hooks : list (option FnId)) (fn : FnId) : list (option FnId) :=
  match hooks with
  | [] => []
  | h :: rest =>
      if bool_decide (h = Some fn) then rest else h :: unregisterHook rest fn
  end.

Inductive HookList := BeforeHooks | ResolveHooks | AfterHooks.

Definition hook_list (which : HookList) (r : Router) : list (option FnId) :=
  match which with
  | BeforeHooks => beforeHooks r
  | ResolveHooks => resolveHooks r
  | AfterHooks => afterHooks r
  end.

Definition set_hook_list (which : HookList) (l : list (option FnId)) (r : Router) : Router :=
  match which with
  | BeforeHooks => set_beforeHooks l r
  | ResolveHooks => set_resolveHooks l r
  | AfterHooks => set_afterHooks l r
  end.

(** [beforeEach], [beforeResolve] and [afterEach]. *)
Definition register (which : HookList) (fn : FnId) (m : Machine) : Machine :=
  with_router (fun r => set_hook_list which (registerHook (hook_list which r) fn) r) m.

Definition unregister (which : HookList) (fn : FnId) (m : Machine) : Machine :=
  with_router (fun r => set_hook_list which (unregisterHook (hook_list which r) fn) r) m.

(** *** class History *)

Definition listen (c : FnId) (m : Machine) : Machine :=
  with_history (set_cb (Some c)) m.

Definition onReady (c : FnId) (errorCb : option FnId) (m : Machine) : Machine :=
  if ready (history m) then emit [EvReadyNow c] m
  else
    let m := with_history (fun h => set_readyCbs (readyCbs h ++ [c]) h) m in
    match errorCb with
    | Some e => with_history (fun h => set_readyErrorCbs (readyErrorCbs h ++ [e]) h) m
    | None => m
    end.

Definition onError (errorCb : FnId) (m : Machine) : Machine :=
  with_history (fun h => set_errorCbs (errorCbs h ++ [errorCb]) h) m.

(** [hook && hook(route, prev)] for every after hook. *)
Definition after_hook_calls (hooks : list (option FnId)) (route prev : Route) : list Event :=
  omap (fun h => (fun f => EvAfterHook f route prev) <$> h) hooks.

Definition updateRoute (route : Route) (m : Machine) : Machine :=
  let prev := current (history m) in
  let m := with_history (set_current route) m in
  let m := match cb (history m) with
           | Some c => emit [EvListener c route] m
           | None => m
           end in
  emit (after_hook_calls (afterHooks (router m)) route prev) m.

(** *** class HashHistory *)

(** The address, in the state of the controller: [location_hash] is the
    path that [getHash()] returns, and [pushHash] and [replaceHash] are the
    calls, after which the path they were given is the one that is read
    back. That is the address as hash.js reads it as long as [decodeURI]
    returns every path as it is. The decoding of [window.location.href]
    and the URIError of an address that cannot be decoded are in [Href]
    and [Address] below. *)
Definition getHash (m : Machine) : string := location_hash m.

Definition pushHash (p : string) (m : Machine) : Machine :=
  emit [EvPushHash p] (set_location_hash p m).

Definition replaceHash (p : string) (m : Machine) : Machine :=
  emit [EvReplaceHash p] (set_location_hash p m).

Definition ensureURL (push : bool) (m : Machine) : Machine :=
  let current_ := fullPath (route_data (current (history m))) in
  if String.eqb (getHash m) current_ then m
  else if push then pushHash current_ m else replaceHash current_ m.

(** The call [onComplete && onComplete(route)] of [transitionTo], for each
    kind of [onComplete]. *)
Definition call_onComplete (oc : option OnComplete) (route : Route) (m : Machine) : Machine :=
  match oc with
  | None => m
  | Some (OcUser f) => emit [EvOnComplete f route] m
  | Some (OcHashPush fromRoute f) =>
      let m := pushHash (fullPath (route_data route)) m in
      let m := emit [EvHandleScroll route fromRoute false] m in
      match f with Some f => emit [EvOnComplete f route] m | None => m end
  | Some (OcHashReplace fromRoute f) =>
      let m := replaceHash (fullPath (route_data route)) m in
      let m := emit [EvHandleScroll route fromRoute false] m in
      match f with Some f => emit [EvOnComplete f route] m | None => m end
  | Some (OcHashListener current_ supportsScroll supportsPushState) =>
      let m := if supportsScroll then emit [EvHandleScroll route current_ true] m else m in
      if negb supportsPushState then replaceHash (fullPath (route_data route)) m else m
  end.

(** The first closure that [transitionTo] passes to [confirmTransition]. *)
Definition transition_completed (oc : option OnComplete) (route : Route) (m : Machine) : Machine :=
  let m := updateRoute route m in
  let m := call_onComplete oc route m in
  let m := ensureURL false m in
  if negb (ready (history m)) then
    let m := with_history (set_ready true) m in
    emit (map (fun c => EvReadyCb c route) (readyCbs (history m))) m
  else m.

(** The second closure that [transitionTo] passes to [confirmTransition]. *)
Definition transition_aborted (onAbort : option FnId) (err : Value) (m : Machine) : Machine :=
  let m := match onAbort with
           | Some f => emit [EvOnAbort f err] m
           | None => m
           end in
  if truthy err && negb (ready (history m)) then
    let m := with_history (set_ready true) m in
    emit (map (fun c => EvReadyErrorCb c err) (readyErrorCbs (history m))) m
  else m.

(** The [abort] closure of [confirmTransition]. *)
Definition abort (onAbort : option FnId) (err : Value) (m : Machine) : Machine :=
  let m := if isError err then
             if negb (Nat.eqb (length (errorCbs (history m))) 0)
             then emit (map (fun c => EvErrorCb c err) (errorCbs (history m))) m
             else emit [EvUncaught err] m
           else m in
  transition_aborted onAbort err m.

(** The queue that [confirmTransition] builds. *)
Definition guard_queue (beforeHooks : list (option FnId)) (d : Diff) : list (option QueueItem) :=
  extractLeaveGuards (deactivated d)
  ++ map (fmap UserGuard) beforeHooks
  ++ extractUpdateHooks (updated d)
  ++ map (fun m => UserGuard <$> beforeEnter m) (activated d)
  ++ [Some (ResolveAsync (activated d))].

Section Engine.

(** The matcher, the route equality of util/route and the behaviour of the
    application's guards are outside the sources. *)
Variable router_match : Value -> Route -> RouteData.
Variable isSameRoute : Route -> Route -> bool.
Variable behave : QueueItem -> Route -> Route -> Behaviour.

(** Modelled from the spec: [runQueue] of util/async, which is not among the
    sources: it "invokes the iterator on item 0", the iterator's
    continuation advances to the next item, "empty/absent entries" are
    skipped, and "reaching the end of the list invokes the runner's final
    callback". The call [runQueue(queue, iterator, cb)] is the frame for
    index 0; the final callback is chosen by the phase. *)
Definition runQueue (tr : Transition) (ph : Phase) (queue : list (option QueueItem))
    (m : Machine) : Machine :=
  push_frame (FStep tr ph queue 0) m.

Definition confirmTransition (route : Route) (onComplete : option OnComplete)
    (onAbort : option FnId) (m : Machine) : Machine :=
  let current_ := current (history m) in
  if isSameRoute route current_
     && Nat.eqb (length (matched (route_data route))) (length (matched (route_data current_)))
  then
    abort onAbort VUndefined (ensureURL false m)
  else
    let d := resolveQueue (matched (route_data (current (history m))))
                          (matched (route_data route)) in
    let queue := guard_queue (beforeHooks (router m)) d in
    let m := with_history (set_pending (Some route)) m in
    runQueue {| t_route := route; t_current := current_; t_activated := activated d;
                t_onComplete := onComplete; t_onAbort := onAbort |}
             PreResolve queue m.

(** [router.match] returns a new route object at each call. *)
Definition transitionTo (location : Value) (onComplete : option OnComplete)
    (onAbort : option FnId) (m : Machine) : Machine :=
  let route := {| route_ref := next_ref m;
                  route_data := router_match location (current (history m)) |} in
  let m := set_next_ref (S (next_ref m)) m in
  confirmTransition route onComplete onAbort m.

Definition push (location : Value) (onComplete onAbort : option FnId) (m : Machine) : Machine :=
  let fromRoute := current (history m) in
  transitionTo location (Some (OcHashPush fromRoute onComplete)) onAbort m.

Definition replace (location : Value) (onComplete onAbort : option FnId) (m : Machine) : Machine :=
  let fromRoute := current (history m) in
  transitionTo location (Some (OcHashReplace fromRoute onComplete)) onAbort m.

(** The character ['/']. *)
Definition slash : Ascii.ascii := Ascii.ascii_of_nat 47.

(** [ensureSlash]: the result and the state after it. *)
Definition ensureSlash (m : Machine) : bool * Machine :=
  let path_ := getHash m in
  if match path_ with
     | String c _ => Ascii.eqb c slash
     | EmptyString => false
     end
  then (true, m)
  else (false, replaceHash (String slash path_) m).

(** The listener that [setupListeners] installs for popstate or hashchange. *)
Definition hash_listener (supportsPushState expectScroll : bool) (m : Machine) : Machine :=
  let supportsScroll := supportsPushState && expectScroll in
  let current_ := current (history m) in
  let (ok, m) := ensureSlash m in
  if ok then
    transitionTo (VString (getHash m))
      (Some (OcHashListener current_ supportsScroll supportsPushState)) None m
  else m.

(** The function [(to: any) => { ... }] that the iterator hands to a guard.
    [sync] tells whether the guard calls it before it returns: an exception
    raised here is then caught by the iterator's [try]. *)
Definition resolution (sync : bool) (tr : Transition) (ph : Phase)
    (queue : list (option QueueItem)) (index : nat) (to : Value) (m : Machine) : Machine :=
  let raised e m := if sync then abort (t_onAbort tr) e m else emit [EvThrown e] m in
  if is_false to || isError to then
    abort (t_onAbort tr) to (ensureURL true m)
  else
    match (if is_string_type (typeof to) then inr true
           else if is_object_type (typeof to) then path_or_name_is_string to
           else inr false) : Value + bool with
    | inl e => raised e m
    | inr true =>
        let m := abort (t_onAbort tr) VUndefined m in
        if asks_replace to then replace to None None m else push to None None m
    | inr false =>
        push_frame (FStep tr ph queue (S index)) m
    end.

(** A guard calls the continuation it was given. For an enter guard that is
    bindEnterGuard's callback: [next(cb)], then the push on the callback
    list, which happens when everything [next(cb)] started has returned. *)
Definition guard_continues (sync : bool) (tr : Transition) (ph : Phase)
    (queue : list (option QueueItem)) (index : nat) (hook : QueueItem)
    (to : Value) (m : Machine) : Machine :=
  match hook, to with
  | RouteEnterGuard _ match_ key, VFunction f =>
      resolution sync tr ph queue index to (push_frame (FPushCb tr f match_ key) m)
  | _, _ => resolution sync tr ph queue index to m
  end.

Definition iterator (tr : Transition) (ph : Phase) (queue : list (option QueueItem))
    (index : nat) (hook : QueueItem) (m : Machine) : Machine :=
  if pending_is_not (pending (history m)) (t_route tr) then
    abort (t_onAbort tr) VUndefined m
  else
    let m := emit [EvGuard hook (t_route tr) (t_current tr)] m in
    match behave hook (t_route tr) (t_current tr) with
    | Calls to => guard_continues true tr ph queue index hook to m
    | Throws e => abort (t_onAbort tr) e m
    | Defers =>
        set_suspended (suspended m ++
          [{| s_tr := tr; s_phase := ph; s_queue := queue; s_index := index;
              s_hook := hook |}]) m
    end.

(** The final callback of the first queue. *)
Definition pre_resolve_done (tr : Transition) (m : Machine) : Machine :=
  let m := set_postEnterCbs (<[route_ref (t_route tr) := []]> (postEnterCbs m)) m in
  let enterGuards := extractEnterGuards (t_activated tr) in
  let queue := enterGuards ++ map (fmap UserGuard) (resolveHooks (router m)) in
  runQueue tr PostResolve queue m.

(** The commit: what the final callback of the second queue does when the
    transition is still the pending one. *)
Definition commit (tr : Transition) (m : Machine) : Machine :=
  let m := with_history (set_pending None) m in
  let m := transition_completed (t_onComplete tr) (t_route tr) m in
  if app (router m) then set_nextTicks (nextTicks m ++ [route_ref (t_route tr)]) m
  else m.

(** The final callback of the second queue. *)
Definition post_resolve_done (tr : Transition) (m : Machine) : Machine :=
  if pending_is_not (pending (history m)) (t_route tr) then
    abort (t_onAbort tr) VUndefined m
  else
    commit tr m.

(** [step(index)] of runQueue. *)
Definition step (tr : Transition) (ph : Phase) (queue : list (option QueueItem))
    (index : nat) (m : Machine) : Machine :=
  match queue !! index with
  | None =>
      match ph with
      | PreResolve => pre_resolve_done tr m
      | PostResolve => post_resolve_done tr m
      end
  | Some (Some hook) => iterator tr ph queue index hook m
  | Some None => push_frame (FStep tr ph queue (S index)) m
  end.

(** [cbs.push(() => poll(cb, match.instances, key, isValid))] *)
Definition push_post_enter (tr : Transition) (f : FnId) (match_ : RouteRecord)
    (key : string) (m : Machine) : Machine :=
  let k := route_ref (t_route tr) in
  let entry := {| pe_cb := f; pe_record := match_; pe_key := key; pe_route := t_route tr |} in
  set_postEnterCbs (<[k := default [] (postEnterCbs m !! k) ++ [entry]]> (postEnterCbs m)) m.

Definition exec (f : Frame) (m : Machine) : Machine :=
  match f with
  | FStep tr ph queue index => step tr ph queue index m
  | FPushCb tr f match_ key => push_post_enter tr f match_ key m
  end.

(** One call of the engine: the innermost call that is still to be made. *)
Definition mstep (m : Machine) : option Machine :=
  match control m with
  | [] => None
  | f :: rest => Some (exec f (set_control rest m))
  end.

(** The engine runs until every call has returned. *)
Fixpoint run (fuel : nat) (m : Machine) : option Machine :=
  match control m with
  | [] => Some m
  | f :: rest =>
      match fuel with
      | 0 => None
      | S fuel' => run fuel' (exec f (set_control rest m))
      end
  end.

(** [n] calls of the engine, one after the other. *)
Fixpoint msteps (n : nat) (m : Machine) : option Machine :=
  match n with
  | 0 => Some m
  | S n' =>
      match mstep m with
      | Some m' => msteps n' m'
      | None => None
      end
  end.

(** *** Post-enter callbacks *)

(** What [instances[key]] reads, per record and slot, when a task runs. *)
Definition Observation := nat -> string -> option Instance.

(** [instances[key] && !instances[key]._isBeingDestroyed]: the instance to
    call the callback with, if the slot has one that is not being destroyed. *)
Definition live (slot : option Instance) : option Instance :=
  match slot with
  | Some inst => if isBeingDestroyed inst then None else Some inst
  | None => None
  end.

Definition poll (pe : PostEnterCb) (obs : Observation) (m : Machine) : Machine :=
  match live (obs (rr_ref (pe_record pe)) (pe_key pe)) with
  | Some inst => emit [EvPostEnter (pe_cb pe) inst] m
  | None =>
      if isValid (pe_route pe) m then set_timers (timers m ++ [pe]) m
      else m
  end.

(** [postEnterCbs.forEach(cb => { cb() })] *)
Definition flush_post_enter (k : nat) (obs : Observation) (m : Machine) : Machine :=
  foldl (fun m pe => poll pe obs m) m (default [] (postEnterCbs m !! k)).

(** *** What the application and the host do *)

Inductive Input :=
| CallTransitionTo (location : Value) (onComplete onAbort : option FnId)
| CallPush (location : Value) (onComplete onAbort : option FnId)
| CallReplace (location : Value) (onComplete onAbort : option FnId)
| CallOnReady (c : FnId) (errorCb : option FnId)
| CallOnError (errorCb : FnId)
| CallListen (c : FnId)
| CallRegister (which : HookList) (fn : FnId)
| CallUnregister (which : HookList) (fn : FnId)
| LocationChanges (hash : string) (supportsPushState expectScroll : bool)
| GuardContinues (n : nat) (to : Value)
| NextTick (obs : Observation)
| TimerFires (n : nat) (obs : Observation).

Definition inject (i : Input) (m : Machine) : Machine :=
  match i with
  | CallTransitionTo location oc oa => transitionTo location (OcUser <$> oc) oa m
  | CallPush location oc oa => push location oc oa m
  | CallReplace location oc oa => replace location oc oa m
  | CallOnReady c e => onReady c e m
  | CallOnError e => onError e m
  | CallListen c => listen c m
  | CallRegister which fn => register which fn m
  | CallUnregister which fn => unregister which fn m
  | LocationChanges hash supportsPushState expectScroll =>
      hash_listener supportsPushState expectScroll (set_location_hash hash m)
  | GuardContinues n to =>
      match suspended m !! n with
      | Some s =>
          guard_continues false (s_tr s) (s_phase s) (s_queue s) (s_index s) (s_hook s) to
            (set_suspended (delete n (suspended m)) m)
      | None => m
      end
  | NextTick obs =>
      match nextTicks m with
      | k :: rest => flush_post_enter k obs (set_nextTicks rest m)
      | [] => m
      end
  | TimerFires n obs =>
      match timers m !! n with
      | Some pe => poll pe obs (set_timers (delete n (timers m)) m)
      | None => m
      end
  end.

(** The application's call and everything it starts before it returns. *)
Definition handle (fuel : nat) (i : Input) (m : Machine) : option Machine :=
  run fuel (inject i m).

End Engine.

(** The controller after its constructor, in a router with the given hooks. *)
Definition initial (r : Router) (hash : string) : Machine :=
  {| history := {| current := START; pending := None; ready := false;
                   readyCbs := []; readyErrorCbs := []; errorCbs := []; cb := None |};
     router := r;
     location_hash := hash; next_ref := 1; log := [];
     control := []; suspended := [];
     postEnterCbs := ∅; nextTicks := []; timers := [] |}.

(** ** Reference descriptions used in the statements *)

(** The guards of one component slot of a record, in the order of the array
    registered under the guard name. *)
Definition slot_guards (name : GuardName)
    (bind : FnId -> option Instance -> RouteRecord -> string -> option QueueItem)
    (m : RouteRecord) (kd : string * ComponentDef) : list (option QueueItem) :=
  match options kd.2 name with
  | NoGuard => [None]
  | OneGuard g => [bind g (instances m !! kd.1) m kd.1]
  | GuardArray gs => map (fun g => bind g (instances m !! kd.1) m kd.1) gs
  end.

(** The guards of a record, slot after slot. *)
Definition record_guards (name : GuardName)
    (bind : FnId -> option Instance -> RouteRecord -> string -> option QueueItem)
    (slots : list (string * ComponentDef)) (m : RouteRecord) : list (option QueueItem) :=
  concat (map (slot_guards name bind m) slots).

(** The entries of a queue that are functions: the ones the runner calls. *)
Definition present {A} (queue : list (option A)) : list A := omap id queue.

(** A value with which the iterator goes on to the next item. *)
Definition passes_on (to : Value) : bool :=
  match to with
  | VUndefined | VBool true | VFunction _ => true
  | VObject o => negb (bool_decide (is_Some (o_path o)) || bool_decide (is_Some (o_name o)))
  | VNull | VBool false | VString _ | VError _ => false
  end.

Definition is_enter_guard (q : QueueItem) : bool :=
  match q with RouteEnterGuard _ _ _ => true | _ => false end.

(** ** Executions *)

(** The events that only a commit produces: they carry the committed route. *)
Definition commits (r : Route) (ev : Event) : bool :=
  match ev with
  | EvOnComplete _ r' | EvListener _ r' | EvAfterHook _ r' _
  | EvReadyCb _ r' | EvHandleScroll r' _ _ => same_route r' r
  | _ => false
  end.


(** The events that say nothing about a commit or a flush. *)
Definition plain (ev : Event) : bool :=
  match ev with
  | EvGuard _ _ _ | EvErrorCb _ _ | EvUncaught _ | EvOnAbort _ _ | EvReadyNow _
  | EvPushHash _ | EvReplaceHash _ | EvPostEnter _ _ | EvThrown _ => true
  | _ => false
  end.

(** What an execution is made of: the calls of the engine and the calls of
    the application and the host, in any order; the matcher, the route
    table and what the guards do may change from one call to the next. *)
Inductive steps : Machine -> Machine -> Prop :=
| steps_refl m : steps m m
| steps_call m m' m'' router_match isSameRoute behave :
    steps m m' -> mstep router_match isSameRoute behave m' = Some m'' -> steps m m''
| steps_input m m' router_match isSameRoute i :
    steps m m' -> steps m (inject router_match isSameRoute i m').

(** The state changes that the calls are made of, the commit apart. *)
Inductive move : Machine -> Machine -> Prop :=
| move_host m m' :
    history m' = history m ->
    next_ref m' = next_ref m -> log m' = log m -> move m m'
| move_emit m evs :
    forallb plain evs = true -> move m (emit evs m)
| move_register m h :
    current h = current (history m) -> pending h = pending (history m) ->
    ready h = false -> ready (history m) = false ->
    (exists l, readyCbs h = readyCbs (history m) ++ l) ->
    (exists l, readyErrorCbs h = readyErrorCbs (history m) ++ l) ->
    move m (with_history (fun _ => h) m)
| move_listeners m h :
    current h = current (history m) -> pending h = pending (history m) ->
    ready h = ready (history m) ->
    readyCbs h = readyCbs (history m) ->
    readyErrorCbs h = readyErrorCbs (history m) ->
    move m (with_history (fun _ => h) m)
| move_alloc m :
    move m (set_next_ref (S (next_ref m)) m)
| move_start m r :
    route_ref r = next_ref m ->
    move m (with_history (set_pending (Some r)) (set_next_ref (S (next_ref m)) m))
| move_error_ready m err :
    truthy err = true -> ready (history m) = false ->
    move m (emit (map (fun c => EvReadyErrorCb c err) (readyErrorCbs (history m)))
                 (with_history (set_ready true) m)).

Inductive moves : Machine -> Machine -> Prop :=
| moves_refl m : moves m m
| moves_step m m' m'' : moves m m' -> move m' m'' -> moves m m''.

(** A call of a guard. *)
Definition is_guard_call (ev : Event) : bool :=
  match ev with EvGuard _ _ _ => true | _ => false end.




(** The transition of route [a] is not the pending one and has not been
    committed; [l] is what the log holds of commits of [a]. *)
Definition superseded (a : Route) (l : list Event) (m : Machine) : Prop :=
  route_ref a < next_ref m
  /\ same_route (current (history m)) a = false
  /\ pending_is_not (pending (history m)) a = true
  /\ List.filter (commits a) (log m) = l.

(** ** The guards of one transition, in an execution *)

(** The guards called with the route [r] as [to], in the order of the log. *)
Definition guard_calls (r : Route) (l : list Event) : list QueueItem :=
  omap (fun ev => match ev with
                  | EvGuard hook to _ => if same_route to r then Some hook else None
                  | _ => None
                  end) l.

(** The continuations of the queues of route [r]: the steps still to be
    made and the suspended guards. *)
Definition is_cont_frame (r : Route) (f : Frame) : bool :=
  match f with
  | FStep tr _ _ _ => same_route (t_route tr) r
  | FPushCb _ _ _ _ => false
  end.

Definition is_cont_susp (r : Route) (s : Suspension) : bool :=
  same_route (t_route (s_tr s)) r.

Definition conts (r : Route) (m : Machine) : nat :=
  length (List.filter (is_cont_frame r) (control m))
  + length (List.filter (is_cont_susp r) (suspended m)).

(** What a call adds: to the log, the guards called for [r]; to the control
    and to the suspended guards, the continuations of [r]. *)
Definition adds (r : Route) (calls : list QueueItem) (fr : list Frame)
    (su : list Suspension) (m m' : Machine) : Prop :=
  exists evs news news_s,
    log m' = log m ++ evs
    /\ control m' = news ++ control m
    /\ suspended m' = suspended m ++ news_s
    /\ next_ref m <= next_ref m'
    /\ guard_calls r evs = calls
    /\ List.filter (is_cont_frame r) news = fr
    /\ List.filter (is_cont_susp r) news_s = su.

(** The calls [c] are the ones of a runner that stands before item [i] of
    the queue [q], in the first queue [q1] or in a second queue. *)
Definition stands_at (q1 : list (option QueueItem)) (c : list QueueItem)
    (ph : Phase) (q : list (option QueueItem)) (i : nat) : Prop :=
  match ph with
  | PreResolve => q = q1 /\ c = present (take i q1)
  | PostResolve => exists rest, c = present q1 ++ rest
  end.

(** The calls [c] follow the order of the queue [q1]. *)
Definition in_queue_order (q1 : list (option QueueItem)) (c : list QueueItem) : Prop :=
  (exists n, c = present (take n q1)) \/ (exists rest, c = present q1 ++ rest).

(** A call that adds nothing for [r]. *)
Definition quiet (r : Route) (m m' : Machine) : Prop := adds r [] [] [] m m'.

(** Since the transition [tr] was started with the queue [q1], when the
    guards called for its route were [c0], the guards [c] have been called
    for it, and each of its continuations stands where [c] says. *)
Definition tracked (tr : Transition) (q1 : list (option QueueItem)) (c0 c : list QueueItem)
    (m : Machine) : Prop :=
  guard_calls (t_route tr) (log m) = c0 ++ c
  /\ route_ref (t_route tr) < next_ref m
  /\ (forall f, In f (control m) -> is_cont_frame (t_route tr) f = true ->
        exists ph q i, f = FStep tr ph q i /\ stands_at q1 c ph q i)
  /\ (forall s, In s (suspended m) -> is_cont_susp (t_route tr) s = true ->
        s_tr s = tr /\ stands_at q1 c (s_phase s) (s_queue s) (S (s_index s))).

(** And it has at most one continuation. *)
Definition tracks (tr : Transition) (q1 : list (option QueueItem)) (c0 : list QueueItem)
    (m : Machine) : Prop :=
  exists c, tracked tr q1 c0 c m /\ conts (t_route tr) m <= 1 /\ in_queue_order q1 c.

(** The route of the transition that a frame belongs to. *)
Definition frame_route (f : Frame) : Route :=
  match f with
  | FStep tr _ _ _ | FPushCb tr _ _ _ => t_route tr
  end.

(** Every continuation belongs to a route object that exists: its reference
    number has been given out. *)
Definition known_routes (m : Machine) : Prop :=
  Forall (fun f => route_ref (frame_route f) < next_ref m) (control m)
  /\ Forall (fun s => route_ref (t_route (s_tr s)) < next_ref m) (suspended m).

(** A call that leaves the continuations and the reference counter as they
    are. *)
Definition same_conts (m m' : Machine) : Prop :=
  control m' = control m /\ suspended m' = suspended m /\ next_ref m' = next_ref m.

(** A call after which every continuation still belongs to a route object
    that exists. *)
Definition keeps (m m' : Machine) : Prop :=
  next_ref m <= next_ref m' /\ (known_routes m -> known_routes m').

(** *** A small application, for the concrete runs *)

Definition ex_component : ComponentDef :=
  {| options := fun name =>
       match name with
       | beforeRouteLeave => OneGuard 10
       | beforeRouteUpdate => NoGuard
       | beforeRouteEnter => OneGuard 12
       end |}.

Definition ex_instance : Instance := {| inst_id := 1; isBeingDestroyed := false |}.

Definition ex_home : RouteRecord :=
  {| rr_ref := 1; components := [("v", ex_component)];
     instances := {["v" := ex_instance]}; beforeEnter := None |}.

Definition ex_about : RouteRecord :=
  {| rr_ref := 2; components := [("v", ex_component)];
     instances := ∅; beforeEnter := Some 20 |}.

(** A matcher with two routes. *)
Definition ex_match (location : Value) (current : Route) : RouteData :=
  match location with
  | VString "/about" => {| path := "/about"; fullPath := "/about"; matched := [ex_about] |}
  | _ => {| path := "/"; fullPath := "/"; matched := [ex_home] |}
  end.

(** Routes are the same when their paths are. *)
Definition ex_same (a b : Route) : bool :=
  String.eqb (path (route_data a)) (path (route_data b)).

Definition ex_router : Router :=
  {| beforeHooks := [Some 1]; resolveHooks := []; afterHooks := [Some 3]; app := true |}.

(** Every guard confirms at once. *)
Definition ex_confirm (hook : QueueItem) (to from : Route) : Behaviour := Calls VUndefined.

(** The global before hook refuses every navigation. *)
Definition ex_refuse (hook : QueueItem) (to from : Route) : Behaviour :=
  match hook with
  | UserGuard 1 => Calls (VBool false)
  | _ => Calls VUndefined
  end.

(** The global before hook answers later. *)
Definition ex_defer (hook : QueueItem) (to from : Route) : Behaviour :=
  match hook with
  | UserGuard 1 => Defers
  | _ => Calls VUndefined
  end.

(** The controller after a first navigation to "/" has been confirmed. *)
Definition ex_at_home : Machine :=
  Eval vm_compute in
  default (initial ex_router "/")
    (handle ex_match ex_same ex_confirm 20 (CallTransitionTo (VString "/") None None)
       (initial ex_router "/")).

(** Two transitions to "/about" started one after the other from "/", the
    before hook of each still to answer: the first one is superseded. *)
Definition ex_superseded : Machine :=
  Eval vm_compute in
  default ex_at_home
    (handle ex_match ex_same ex_defer 20 (CallTransitionTo (VString "/about") (Some 7) (Some 5))
       ex_at_home
     ≫= handle ex_match ex_same ex_defer 20
          (CallTransitionTo (VString "/about") (Some 8) (Some 6))).

(** The first of the two transitions. *)
Definition ex_first : Transition :=
  Eval vm_compute in
  default {| t_route := START; t_current := START; t_activated := [];
             t_onComplete := None; t_onAbort := None |}
          (s_tr <$> head (suspended ex_superseded)).

(** ** The address of a hash router (src/history/hash.js) *)

(** The functions of hash.js on [window.location.href], as functions of the
    string they read. A string is the sequence of its bytes; ['#'] and ['/']
    are single bytes that occur in no other character's encoding, so a
    search for them finds the same places. *)
Module Href.

(** The character ['#']. *)
Definition hash_sign : Ascii.ascii := Ascii.ascii_of_nat 35.

(** [s.indexOf(c)] for a one-character [c]; [None] stands for [-1]. *)
Fixpoint indexOf (c : Ascii.ascii) (s : string) : option nat :=
  match s with
  | EmptyString => None
  | String a s' => if Ascii.eqb a c then Some 0 else S <$> indexOf c s'
  end.

(** [s.slice(0, i)] *)
Fixpoint slice_to (i : nat) (s : string) : string :=
  match i, s with
  | S i', String a s' => String a (slice_to i' s')
  | _, _ => EmptyString
  end.

(** [s.slice(i)] *)
Fixpoint slice_from (i : nat) (s : string) : string :=
  match i, s with
  | S i', String _ s' => slice_from i' s'
  | _, _ => s
  end.

(** [getHash], reading [href]. [decodeURI] is the host's function; it raises
    a URIError on a malformed escape sequence, which is [None]. *)
Definition getHash (decodeURI : string -> option string) (href : string) : option string :=
  match indexOf hash_sign href with
  | None => Some EmptyString
  | Some index => decodeURI (slice_from (S index) href)
  end.

(** [getUrl], reading [href]. *)
Definition getUrl (href path : string) : string :=
  let base := match indexOf hash_sign href with
              | Some i => slice_to i href
              | None => href
              end in
  base +:+ String hash_sign path.

End Href.

(** ** The base of a history (src/history/base.js) *)

(** [s.charAt(0) === '/'] *)
Definition starts_with_slash (s : string) : bool :=
  match s with
  | String c _ => Ascii.eqb c slash
  | EmptyString => false
  end.

(** What is left of [s] after the prefix [p], if [s] starts with [p]. *)
Fixpoint strip_prefix (p s : string) : option string :=
  match p, s with
  | EmptyString, _ => Some s
  | String a p', String b s' => if Ascii.eqb a b then strip_prefix p' s' else None
  | String _ _, EmptyString => None
  end.

(** The longest run of characters other than ['/'] is dropped. *)
Fixpoint drop_non_slash (s : string) : string :=
  match s with
  | String c s' => if Ascii.eqb c slash then s else drop_non_slash s'
  | EmptyString => EmptyString
  end.

(** [base.replace(/^https?:\/\/[^\/]+/, '')]: the scheme, [://] and at least
    one character other than ['/'], up to the next ['/']. *)
Definition strip_origin (s : string) : string :=
  match strip_prefix "http" s with
  | None => s
  | Some r =>
      match (match strip_prefix "s://" r with
             | Some r' => Some r'
             | None => strip_prefix "://" r
             end) with
      | Some (String c r') => if Ascii.eqb c slash then s else drop_non_slash r'
      | _ => s
      end
  end.

(** [base.replace(/\/$/, '')]: one ['/'] at the end is removed. *)
Fixpoint strip_trailing_slash (s : string) : string :=
  match s with
  | EmptyString => EmptyString
  | String c EmptyString => if Ascii.eqb c slash then EmptyString else s
  | String c s' => String c (strip_trailing_slash s')
  end.

(** [normalizeBase]. [base] is [None] for [undefined] or [null]; [baseEl]
    is what [document.querySelector('base')] finds, with its [href]
    attribute. *)
Definition normalizeBase (inBrowser : bool) (baseEl : option (option string))
    (base : option string) : string :=
  let base :=
    match base with
    | Some (String c s) => String c s
    | _ =>
        if inBrowser then
          let base := match baseEl with
                      | Some (Some (String c s)) => String c s
                      | _ => String slash EmptyString
                      end in
          strip_origin base
        else String slash EmptyString
    end in
  let base := if negb (starts_with_slash base) then String slash base else base in
  strip_trailing_slash base.

(** ** The constructor of the router (VueRouter) *)

(** The options the constructor reads: [mode] ([None] when absent),
    whether [fallback] is [false], and [base]. *)
Record RouterOptions := {
  opt_mode : option string;
  opt_fallback_is_false : bool;
  opt_base : option string
}.

(** The history object that the constructor builds. *)
Inductive HistoryKind :=
| HTML5History (base : option string)
| HashHistory (base : option string) (fallback : bool)
| AbstractHistory (base : option string)
| NoHistory.

Record RouterSetup := {
  rs_mode : string;
  rs_fallback : bool;
  rs_history : HistoryKind
}.

(** How the constructor ends: it returns, with [this.mode], [this.fallback]
    and the history whose constructor it called (what that constructor does
    is its own); or it calls [assert(false, message)] in the default branch
    of the switch. [assert] is util/warn's, which is not among the sources:
    it throws an Error for a false condition, so that no router is built. *)
Inductive Constructed :=
| Built (s : RouterSetup)
| AssertionFails (message : string).

(** The constructor, from [let mode = options.mode || 'hash'] on.
    [production] is [process.env.NODE_ENV === 'production']. *)
Definition construct (production supportsPushState inBrowser : bool) (o : RouterOptions)
    : Constructed :=
  let mode := match opt_mode o with
              | Some (String c s) => String c s
              | _ => "hash"
              end in
  let fallback := String.eqb mode "history" && negb supportsPushState
                  && negb (opt_fallback_is_false o) in
  let mode := if fallback then "hash" else mode in
  let mode := if negb inBrowser then "abstract" else mode in
  let built h := Built {| rs_mode := mode; rs_fallback := fallback; rs_history := h |} in
  if String.eqb mode "history" then built (HTML5History (opt_base o))
  else if String.eqb mode "hash" then built (HashHistory (opt_base o) fallback)
  else if String.eqb mode "abstract" then built (AbstractHistory (opt_base o))
  else if negb production then AssertionFails ("invalid mode: " +:+ mode)
  else built NoHistory.

(** The string ends with ['/']. *)
Fixpoint ends_with_slash (s : string) : bool :=
  match s with
  | EmptyString => false
  | String c EmptyString => Ascii.eqb c slash
  | String _ s' => ends_with_slash s'
  end.

(** No character of the string is ['/']. *)
Fixpoint slash_free (s : string) : bool :=
  match s with
  | EmptyString => true
  | String c s' => negb (Ascii.eqb c slash) && slash_free s'
  end.

(** [createHref] of the router class; [cleanPath] of util/path is not among
    the sources and is a parameter. An empty [base] is falsy. *)
Definition createHref (cleanPath : string -> string) (base fullPath mode : string) : string :=
  let path := if String.eqb mode "hash" then String Href.hash_sign fullPath else fullPath in
  match base with
  | EmptyString => path
  | String _ _ => cleanPath (base +:+ String slash path)
  end.

(** ** The link component (src/components/link.js) *)

(** The element that [e.currentTarget] is: whether it has a [getAttribute]
    method (a Weex element has none) and its [target] attribute. *)
Record EventTarget := {
  has_getAttribute : bool;
  target_attribute : option string
}.

(** The event that [guardEvent] reads: the truthiness of the key flags and
    of [defaultPrevented]; [button], [None] when it is [undefined];
    [currentTarget]; and whether the event has a [preventDefault] method. *)
Record DomEvent := {
  metaKey : bool;
  altKey : bool;
  ctrlKey : bool;
  shiftKey : bool;
  defaultPrevented : bool;
  button : option nat;
  currentTarget : option EventTarget;
  has_preventDefault : bool
}.

(** A word character of a regular expression: [[A-Za-z0-9_]]. *)
Definition is_word_char (c : Ascii.ascii) : bool :=
  let n := Ascii.nat_of_ascii c in
  (Nat.leb 48 n && Nat.leb n 57) || (Nat.leb 65 n && Nat.leb n 90)
  || (Nat.leb 97 n && Nat.leb n 122) || Nat.eqb n 95.

(** The lower-case letter of an upper-case one. *)
Definition lower (c : Ascii.ascii) : Ascii.ascii :=
  let n := Ascii.nat_of_ascii c in
  if Nat.leb 65 n && Nat.leb n 90 then Ascii.ascii_of_nat (n + 32) else c.

(** [s] starts with [p], letter case apart; what follows. *)
Fixpoint strip_prefix_ci (p s : string) : option string :=
  match p, s with
  | EmptyString, _ => Some s
  | String a p', String b s' =>
      if Ascii.eqb (lower a) (lower b) then strip_prefix_ci p' s' else None
  | String _ _, EmptyString => None
  end.

(** [/\b_blank\b/i] matches at the start of [s], the character before being
    a word character or not. *)
Definition blank_here (prev_is_word : bool) (s : string) : bool :=
  negb prev_is_word
  && match strip_prefix_ci "_blank" s with
     | Some EmptyString => true
     | Some (String c _) => negb (is_word_char c)
     | None => false
     end.

Fixpoint blank_from (prev_is_word : bool) (s : string) : bool :=
  blank_here prev_is_word s
  || match s with
     | EmptyString => false
     | String c s' => blank_from (is_word_char c) s'
     end.

(** [/\b_blank\b/i.test(target)]; [null] is tested as the string ["null"]. *)
Definition test_blank (target : option string) : bool :=
  blank_from false (default "null" target).

(** [guardEvent]: whether it returns [true] (otherwise [undefined]), and
    whether it called [e.preventDefault()]. *)
Definition guardEvent (e : DomEvent) : bool * bool :=
  if metaKey e || altKey e || ctrlKey e || shiftKey e then (false, false)
  else if defaultPrevented e then (false, false)
  else if match button e with Some b => negb (Nat.eqb b 0) | None => false end
  then (false, false)
  else if match currentTarget e with
          | Some t => has_getAttribute t && test_blank (target_attribute t)
          | None => false
          end
  then (false, false)
  else (true, has_preventDefault e).

(** The [handler] of a link, on the router: [router.replace(location)] or
    [router.push(location)] when [guardEvent] accepts the event. The second
    component tells whether [preventDefault] was called. *)
Definition link_handler (router_match : Value -> Route -> RouteData)
    (isSameRoute : Route -> Route -> bool)
    (replace_prop : bool) (location : Value) (e : DomEvent) (m : Machine) : Machine * bool :=
  let (ok, prevented) := guardEvent e in
  if ok then
    (if replace_prop then replace router_match isSameRoute location None None m
     else push router_match isSameRoute location None None m, prevented)
  else (m, prevented).

(** A virtual node: its identity, its [tag] and its [children], both
    possibly [undefined]. *)
Inductive VNode :=
| VN (node_id : nat) (tag : option string) (children : option (list VNode)).

Definition vn_tag (n : VNode) : option string :=
  match n with VN _ t _ => t end.

Definition vn_children (n : VNode) : option (list VNode) :=
  match n with VN _ _ c => c end.

(** [child.tag === 'a'] *)
Definition is_anchor (n : VNode) : bool :=
  match vn_tag n with
  | Some t => String.eqb t "a"
  | None => false
  end.

(** One turn of the loop of [findAnchor] for [child]: the anchor that the
    turn returns, if it returns. The recursive call [findAnchor(child.children)]
    is the inner loop. *)
Fixpoint findAnchor_child (child : VNode) : option VNode :=
  if is_anchor child then Some child
  else
    match vn_children child with
    | Some cs =>
        (fix loop (l : list VNode) : option VNode :=
           match l with
           | [] => None
           | c :: rest =>
               match findAnchor_child c with
               | Some a => Some a
               | None => loop rest
               end
           end) cs
    | None => None
    end.

(** [findAnchor] *)
Definition findAnchor (children : option (list VNode)) : option VNode :=
  match children with
  | Some cs =>
      (fix loop (l : list VNode) : option VNode :=
         match l with
         | [] => None
         | c :: rest =>
             match findAnchor_child c with
             | Some a => Some a
             | None => loop rest
             end
         end) cs
  | None => None
  end.

(** The nodes of a forest in document order: a node before its children,
    the children from first to last. *)
Fixpoint document_order_node (n : VNode) : list VNode :=
  n :: match vn_children n with
       | Some cs => (fix all (l : list VNode) : list VNode :=
                       match l with
                       | [] => []
                       | c :: rest => document_order_node c ++ all rest
                       end) cs
       | None => []
       end.

Definition document_order (children : option (list VNode)) : list VNode :=
  match children with
  | Some cs => concat (map document_order_node cs)
  | None => []
  end.






(** Where the listeners go: on the link's own element, with the [href] when
    it is an [a], or on the first anchor among the slot's nodes. *)
Inductive LinkTarget :=
| OnSelf (with_href : bool)
| OnAnchor (a : VNode).

Definition link_target (tag : string) (slot : option (list VNode)) : LinkTarget :=
  if String.eqb tag "a" then OnSelf true
  else
    match findAnchor slot with
    | Some a => OnAnchor a
    | None => OnSelf false
    end.

(** ** The view component (src/components/view.js) *)

(** [data.registerRouteInstance] of a view named [name], on the [instances]
    of the matched record. [val] is the component itself for a
    registration and [None] ([undefined]) for an unregistration.
    Instances are compared by identity. A slot that is assigned
    [undefined] reads as one that was never assigned. *)
Definition registerRouteInstance (name : string) (vm : Instance) (val : option Instance)
    (instances : gmap string Instance) : gmap string Instance :=
  let current := instances !! name in
  let current_is_vm := match current with
                       | Some c => Nat.eqb (inst_id c) (inst_id vm)
                       | None => false
                       end in
  match val with
  | Some v => if negb current_is_vm then <[name := v]> instances else instances
  | None => if current_is_vm then delete name instances else instances
  end.

(** [component.props && key in component.props]. The props a component
    declares are an array of names or an object; what the loop asks of them
    is the operator [in], which also holds for the names the object
    inherits and, for an array, for its indices and ['length'], not for its
    elements. [props] is [None] for a component whose [props] is absent (or
    falsy), and otherwise what [in] answers for each key. *)
Definition is_declared (props : option (string -> bool)) (key : string) : bool :=
  match props with
  | None => false
  | Some has => has key
  end.

(** The loop of [render] over the keys of [propsToPass]: a prop for which
    [!component.props || !(key in component.props)] holds goes to [attrs]
    and is deleted from the props. The state of the loop is the pair of the
    two objects. *)
Definition pass_prop {A} (props : option (string -> bool)) (key : string) (v : A)
    (st : gmap string A * gmap string A) : gmap string A * gmap string A :=
  if negb (is_declared props key)
  then (delete key st.1, <[key := v]> st.2)
  else st.

Definition pass_props {A} (props : option (string -> bool))
    (propsToPass attrs : gmap string A) : gmap string A * gmap string A :=
  map_fold (pass_prop props) (propsToPass, attrs) propsToPass.

(** ** The installation (src/install.js) *)

(** What [beforeCreate] reads of a component: [$options.router] and
    [$parent], and what it writes: [_routerRoot] and [_router]. Components
    and routers are named by their identity. *)
Record Component := {
  options_router : option nat;
  parent : option nat
}.

Record RouterFields := {
  _routerRoot : option nat;
  _router : option nat
}.

(** The calls that [beforeCreate] makes. *)
Inductive InstallEvent :=
| EvInit (router vm : nat)
| EvDefineReactive (vm router : nat)
| EvRegisterInstance (vm : nat).

Record Components := {
  fields : gmap nat RouterFields;
  install_calls : list InstallEvent
}.

(** [beforeCreate] of the mixin, for the component [this]. *)
Definition beforeCreate (this : nat) (c : Component) (st : Components) : Components :=
  let st :=
    match options_router c with
    | Some r =>
        {| fields := <[this := {| _routerRoot := Some this; _router := Some r |}]> (fields st);
           install_calls := install_calls st ++ [EvInit r this; EvDefineReactive this r] |}
    | None =>
        let root := match parent c with
                    | Some p =>
                        match (fields st !! p) ≫= _routerRoot with
                        | Some r => r
                        | None => this
                        end
                    | None => this
                    end in
        {| fields := <[this := {| _routerRoot := Some root;
                                  _router := (fields st !! this) ≫= _router |}]> (fields st);
           install_calls := install_calls st |}
    end in
  {| fields := fields st; install_calls := install_calls st ++ [EvRegisterInstance this] |}.

(** The getter of [$router]: [this._routerRoot._router]. Reading [_router]
    on an [undefined] [_routerRoot] raises a TypeError, which is [None]; a
    root without [_router] gives [undefined], which is [Some None]. *)
Definition dollar_router (this : nat) (st : Components) : option (option nat) :=
  match (fields st !! this) ≫= _routerRoot with
  | Some root => Some ((fields st !! root) ≫= _router)
  | None => None
  end.

(** The components of a chain are created one after the other, each as the
    child of the one before. *)
Fixpoint create_chain (parent_ : nat) (chain : list nat) (st : Components) : Components :=
  match chain with
  | [] => st
  | this :: rest =>
      create_chain this rest
        (beforeCreate this {| options_router := None; parent := Some parent_ |} st)
  end.


(** ** Navigations in which every guard confirms *)






(** The calls that an abort with [err] makes, in a state with the given
    error listeners and ready-error callbacks: the error listeners for an
    error value (or the report of an uncaught error when there is none),
    the [onAbort] of the call, and the ready-error callbacks when the value
    is truthy and the controller was not ready. *)
Definition abort_calls (onAbort : option FnId) (err : Value) (h : History) : list Event :=
  (if isError err then
     match errorCbs h with
     | [] => [EvUncaught err]
     | cbs => map (fun c => EvErrorCb c err) cbs
     end
   else [])
  ++ match onAbort with
     | Some f => [EvOnAbort f err]
     | None => []
     end
  ++ (if truthy err && negb (ready h)
      then map (fun c => EvReadyErrorCb c err) (readyErrorCbs h)
      else []).

(** *** Further applications, for the concrete runs *)

(** A record with two views, each with an enter guard. *)
Definition ex_two : RouteRecord :=
  {| rr_ref := 3;
     components :=
       [("a", {| options := fun name => match name with
                                         | beforeRouteEnter => OneGuard 41
                                         | _ => NoGuard
                                         end |});
        ("b", {| options := fun name => match name with
                                         | beforeRouteEnter => OneGuard 42
                                         | _ => NoGuard
                                         end |})];
     instances := ∅; beforeEnter := None |}.

Definition ex_match_two (location : Value) (current : Route) : RouteData :=
  match location with
  | VString "/two" => {| path := "/two"; fullPath := "/two"; matched := [ex_two] |}
  | _ => ex_match location current
  end.


(** The global before hook throws an error. *)
Definition ex_throw (hook : QueueItem) (to from : Route) : Behaviour :=
  match hook with
  | UserGuard 1 => Throws (VError "boom")
  | _ => Calls VUndefined
  end.

(** The route of a navigation from [ex_at_home] to "/two". *)
Definition ex_route_two : Route :=
  {| route_ref := 2; route_data := ex_match_two (VString "/two") (current (history ex_at_home)) |}.

(** ** The calls that read the address (src/history/hash.js) *)

(** A text that [decodeURI] does not accept: the URIError it raises. *)
Definition uri_error : Value := VError "URIError".

(** How a call ends: it returns, or an exception leaves it; the state is
    the one that the call has reached. *)
Inductive Outcome :=
| Returns (m : Machine)
| Raises (e : Value) (m : Machine).

(** In the state of the controller, [location_hash] is the path that
    [getHash()] returns, and it is read back as it was written: that is the
    address as long as [decodeURI] returns every path as it is. Here the
    calls of the controller that begin by reading the address are taken
    with the address as hash.js reads it: [getHash] decodes what follows
    the ['#'] of [window.location.href], and the URIError that [decodeURI]
    raises for a malformed escape sequence leaves [getHash] and its caller.
    [href] is the address during the call; in each of these calls the
    address is read before anything is written to it. [location_hash] is
    not read. *)
Module Address.
Section Address.

Variable decodeURI : string -> option string.
Variable href : string.
Variable router_match : Value -> Route -> RouteData.
Variable isSameRoute : Route -> Route -> bool.
Variable behave : QueueItem -> Route -> Route -> Behaviour.

(** [ensureURL(push)]: [None] when [getHash] raises. *)
Definition ensureURL (push : bool) (m : Machine) : option Machine :=
  let current_ := fullPath (route_data (current (history m))) in
  match Href.getHash decodeURI href with
  | None => None
  | Some hash =>
      if String.eqb hash current_ then Some m
      else Some (emit [if push then EvPushHash current_ else EvReplaceHash current_] m)
  end.

(** [ensureSlash()]: its result, and [None] when [getHash] raises. *)
Definition ensureSlash (m : Machine) : option (bool * Machine) :=
  match Href.getHash decodeURI href with
  | None => None
  | Some path_ =>
      if match path_ with
         | String c _ => Ascii.eqb c slash
         | EmptyString => false
         end
      then Some (true, m)
      else Some (false, emit [EvReplaceHash (String slash path_)] m)
  end.

Definition confirmTransition (route : Route) (onComplete : option OnComplete)
    (onAbort : option FnId) (m : Machine) : Outcome :=
  let current_ := current (history m) in
  if isSameRoute route current_
     && Nat.eqb (length (matched (route_data route))) (length (matched (route_data current_)))
  then
    match ensureURL false m with
    | None => Raises uri_error m
    | Some m => Returns (abort onAbort VUndefined m)
    end
  else
    let d := resolveQueue (matched (route_data (current (history m))))
                          (matched (route_data route)) in
    let queue := guard_queue (beforeHooks (router m)) d in
    let m := with_history (set_pending (Some route)) m in
    Returns (runQueue {| t_route := route; t_current := current_; t_activated := activated d;
                         t_onComplete := onComplete; t_onAbort := onAbort |}
                      PreResolve queue m).

Definition transitionTo (location : Value) (onComplete : option OnComplete)
    (onAbort : option FnId) (m : Machine) : Outcome :=
  let route := {| route_ref := next_ref m;
                  route_data := router_match location (current (history m)) |} in
  let m := set_next_ref (S (next_ref m)) m in
  confirmTransition route onComplete onAbort m.

Definition push (location : Value) (onComplete onAbort : option FnId) (m : Machine) : Outcome :=
  let fromRoute := current (history m) in
  transitionTo location (Some (OcHashPush fromRoute onComplete)) onAbort m.

Definition replace (location : Value) (onComplete onAbort : option FnId) (m : Machine)
    : Outcome :=
  let fromRoute := current (history m) in
  transitionTo location (Some (OcHashReplace fromRoute onComplete)) onAbort m.

(** The listener that [setupListeners] installs for popstate or hashchange. *)
Definition hash_listener (supportsPushState expectScroll : bool) (m : Machine) : Outcome :=
  let supportsScroll := supportsPushState && expectScroll in
  let current_ := current (history m) in
  match ensureSlash m with
  | None => Raises uri_error m
  | Some (false, m) => Returns m
  | Some (true, m) =>
      match Href.getHash decodeURI href with
      | None => Raises uri_error m
      | Some hash =>
          transitionTo (VString hash)
            (Some (OcHashListener current_ supportsScroll supportsPushState)) None m
      end
  end.

(** The function [(to: any) => { ... }] that the iterator hands to a guard.
    An exception raised in it leaves it: when the guard calls it before it
    returns ([sync]), the iterator's [try] catches it and aborts with it. *)
Definition resolution (sync : bool) (tr : Transition) (ph : Phase)
    (queue : list (option QueueItem)) (index : nat) (to : Value) (m : Machine) : Machine :=
  let raised e m := if sync then abort (t_onAbort tr) e m else emit [EvThrown e] m in
  if is_false to || isError to then
    match ensureURL true m with
    | None => raised uri_error m
    | Some m => abort (t_onAbort tr) to m
    end
  else
    match (if is_string_type (typeof to) then inr true
           else if is_object_type (typeof to) then path_or_name_is_string to
           else inr false) : Value + bool with
    | inl e => raised e m
    | inr true =>
        let m := abort (t_onAbort tr) VUndefined m in
        match (if asks_replace to then replace to None None m else push to None None m) with
        | Returns m => m
        | Raises e m => raised e m
        end
    | inr false =>
        push_frame (FStep tr ph queue (S index)) m
    end.

Definition guard_continues (sync : bool) (tr : Transition) (ph : Phase)
    (queue : list (option QueueItem)) (index : nat) (hook : QueueItem)
    (to : Value) (m : Machine) : Machine :=
  match hook, to with
  | RouteEnterGuard _ match_ key, VFunction f =>
      resolution sync tr ph queue index to (push_frame (FPushCb tr f match_ key) m)
  | _, _ => resolution sync tr ph queue index to m
  end.

Definition iterator (tr : Transition) (ph : Phase) (queue : list (option QueueItem))
    (index : nat) (hook : QueueItem) (m : Machine) : Machine :=
  if pending_is_not (pending (history m)) (t_route tr) then
    abort (t_onAbort tr) VUndefined m
  else
    let m := emit [EvGuard hook (t_route tr) (t_current tr)] m in
    match behave hook (t_route tr) (t_current tr) with
    | Calls to => guard_continues true tr ph queue index hook to m
    | Throws e => abort (t_onAbort tr) e m
    | Defers =>
        set_suspended (suspended m ++
          [{| s_tr := tr; s_phase := ph; s_queue := queue; s_index := index;
              s_hook := hook |}]) m
    end.

End Address.
End Address.

(** The host's [decodeURI] on the texts of the examples, which hold no
    complete escape sequence: a text without ['%'] is returned as it is, a
    ['%'] that is not followed by two hexadecimal digits is a malformed
    escape. *)
Fixpoint has_percent (s : string) : bool :=
  match s with
  | EmptyString => false
  | String c s' => Ascii.eqb c (Ascii.ascii_of_nat 37) || has_percent s'
  end.

Definition ex_decodeURI (s : string) : option string :=
  if has_percent s then None else Some s.

(** ** Where the post-enter callbacks come from *)















(** *** The application of the examples, polled *)





(** ** The initialisation of the router (VueRouter.init) *)

Definition set_app (b : bool) (r : Router) : Router :=
  {| beforeHooks := beforeHooks r; resolveHooks := resolveHooks r;
     afterHooks := afterHooks r; app := b |}.

(** The router with its hash history, and the apps it was initialised
    for. *)
Record VueRouter := {
  vr_machine : Machine;
  vr_apps : list nat
}.

(** [init(app)] for a router whose history is a HashHistory.
    [setupHashListener] is the closure that [init] passes as [onComplete]
    and as [onAbort] of the first navigation, and [listener] the one it
    passes to [history.listen]; the calls of the first are in the log as
    the calls of [onComplete] and [onAbort]. [history.transitionTo] returns
    when every call it started has returned: that takes [fuel] calls of the
    engine, and [None] is a navigation that needs more. *)
Definition init (router_match : Value -> Route -> RouteData)
    (isSameRoute : Route -> Route -> bool)
    (behave : QueueItem -> Route -> Route -> Behaviour)
    (fuel : nat) (app_ : nat) (setupHashListener listener : FnId) (v : VueRouter)
    : option VueRouter :=
  let apps := vr_apps v ++ [app_] in
  if app (router (vr_machine v)) then
    Some {| vr_machine := vr_machine v; vr_apps := apps |}
  else
    let m := with_router (set_app true) (vr_machine v) in
    match run router_match isSameRoute behave fuel
            (transitionTo router_match isSameRoute (VString (getHash m))
               (Some (OcUser setupHashListener)) (Some setupHashListener) m) with
    | Some m' => Some {| vr_machine := listen listener m'; vr_apps := apps |}
    | None => None
    end.

(** A call of the listener that [history.listen] registered. *)
Definition is_listener_call (ev : Event) : bool :=
  match ev with EvListener _ _ => true | _ => false end.

(** A call that leaves the listener as it is and does not call one when
    there is none. *)
Definition keeps_listener (m m' : Machine) : Prop :=
  cb (history m') = cb (history m)
  /\ exists evs, log m' = log m ++ evs
                 /\ (cb (history m) = None -> forallb (fun ev => negb (is_listener_call ev)) evs = true).

(** A router that has no app yet, right after its construction, and the
    same router after [init] for the app 1, when every guard confirms at
    once. *)
Definition ex_new_router : VueRouter :=
  {| vr_machine := initial (set_app false ex_router) "/"; vr_apps := [] |}.

Definition ex_initialised : VueRouter :=
  Eval vm_compute in
  default ex_new_router (init ex_match ex_same ex_confirm 20 1 50 51 ex_new_router).

(** What [install] does to a constructor, which is named by its identity:
    the calls [Vue.mixin], [Object.defineProperty(Vue.prototype, name, ...)],
    [Vue.component(name, ...)] and the assignment of the three merge
    strategies. *)
Inductive InstallCall :=
| VueMixin (Vue : nat)
| DefineProperty (Vue : nat) (name : string)
| VueComponent (Vue : nat) (name : string)
| SetStrats (Vue : nat).

#[global] Instance InstallCall_eq_dec : EqDecision InstallCall.
Proof. solve_decision. Defined.

(** The state of [install]: [install.installed], the private [_Vue], and
    what has been done to the constructors, in order. *)
Record Installation := {
  installed : bool;
  _Vue : option nat;
  applied : list InstallCall
}.

(** The TypeError of [Object.defineProperty] for a property that cannot be
    redefined. *)
Definition redefine_error : Value := VError "TypeError".

(** [Object.defineProperty(Vue.prototype, name, { get })]. The descriptor
    names no [configurable], so the property it defines is not
    configurable; defining it again, with the getter of another call of
    [install], raises a TypeError. [None] is that exception. *)
Definition defineProperty (Vue : nat) (name : string) (st : Installation)
    : option Installation :=
  if bool_decide (DefineProperty Vue name ∈ applied st) then None
  else Some {| installed := installed st; _Vue := _Vue st;
               applied := applied st ++ [DefineProperty Vue name] |}.

(** [install(Vue)]: the state it leaves and the exception it ends with, if
    any. What was assigned and applied before the exception stays. *)
Definition install (Vue : nat) (st : Installation) : Installation * option Value :=
  if installed st && bool_decide (_Vue st = Some Vue) then (st, None)
  else
    let st := {| installed := true; _Vue := Some Vue;
                 applied := applied st ++ [VueMixin Vue] |} in
    match defineProperty Vue "$router" st with
    | None => (st, Some redefine_error)
    | Some st =>
        match defineProperty Vue "$route" st with
        | None => (st, Some redefine_error)
        | Some st =>
            ({| installed := installed st; _Vue := _Vue st;
                applied := applied st ++ [VueComponent Vue "RouterView";
                                          VueComponent Vue "RouterLink";
                                          SetStrats Vue] |}, None)
        end
    end.

(** * Proofs *)

(** Case analysis on the tests of a function body. *)
Ltac split_tests :=
  repeat (match goal with
          | |- context [if ?c then _ else _] => destruct c eqn:?
          | |- context [match ?c with Some _ => _ | None => _ end] => destruct c eqn:?
          end; simpl).

(** ** Route diff: proofs *)

Lemma same_record_refl a : same_record a a = true.
Proof. apply Nat.eqb_refl. Qed.

Lemma differ_at_refl l i : differ_at l l i = false.
Proof.
  unfold differ_at. destruct (l !! i); [|done].
  by rewrite same_record_refl.
Qed.

Lemma first_difference_spec current next fuel i :
  let k := first_difference fuel i current next in
  i <= k <= i + fuel
  /\ (forall j, i <= j < k -> differ_at current next j = false)
  /\ (k < i + fuel -> differ_at current next k = true).
Proof.
  revert i. induction fuel as [|fuel IH]; intros i; simpl.
  - split; [lia|]. split; intros; lia.
  - destruct (differ_at current next i) eqn:Hd.
    + split; [lia|]. split; [intros; lia|]. done.
    + specialize (IH (S i)). simpl in IH. destruct IH as (Hr & Hagree & Hdiff).
      split; [lia|]. split.
      * intros j Hj. destruct (decide (j = i)) as [->|]; [done|]. apply Hagree. lia.
      * intros Hlt. apply Hdiff. lia.
Qed.

Lemma differ_at_false_lt current next j :
  j < Nat.max (length current) (length next) ->
  differ_at current next j = false ->
  exists a b, current !! j = Some a /\ next !! j = Some b /\ same_record a b = true.
Proof.
  unfold differ_at. intros Hj Hd.
  destruct (current !! j) as [a|] eqn:Ha, (next !! j) as [b|] eqn:Hb; try done.
  - exists a, b. repeat split. by destruct (same_record a b).
  - apply lookup_ge_None in Ha, Hb. lia.
Qed.

(** ** Guard extractor: proofs *)

Lemma flatten_app {A} (l1 l2 : list (Element A)) :
  flatten (l1 ++ l2) = flatten l1 ++ flatten l2.
Proof. unfold flatten. by rewrite map_app, concat_app. Qed.

Lemma flatten_Arr {A} (ls : list (list A)) : flatten (map Arr ls) = concat ls.
Proof.
  unfold flatten. rewrite map_map. f_equal. induction ls; simpl; congruence.
Qed.

Lemma flatten_concat {A} (ls : list (list (Element A))) :
  flatten (concat ls) = concat (map flatten ls).
Proof.
  induction ls as [|l ls IH]; [done|]. simpl. by rewrite flatten_app, IH.
Qed.

Lemma rev_concat_lists {A} (ls : list (list A)) :
  rev (concat ls) = concat (map (@rev A) (rev ls)).
Proof.
  induction ls as [|l ls IH]; [done|]. simpl.
  rewrite rev_app_distr, IH, map_app, concat_app. simpl. by rewrite app_nil_r.
Qed.

Lemma flatMapComponents_concat {A} records
    (fn : ComponentDef -> option Instance -> RouteRecord -> string -> A) :
  flatMapComponents records fn =
  concat (map (fun m => map (fun kd : string * ComponentDef =>
                               fn kd.2 (instances m !! kd.1) m kd.1) (components m)) records).
Proof.
  unfold flatMapComponents.
  rewrite <- (flatten_Arr (map _ records)). by rewrite map_map.
Qed.

Lemma flatten_slots name bind m slots :
  flatten (map (fun kd : string * ComponentDef =>
    match extractGuard kd.2 name with
    | NoGuard => Single None
    | OneGuard guard => Single (bind guard (instances m !! kd.1) m kd.1)
    | GuardArray gs => Arr (map (fun guard => bind guard (instances m !! kd.1) m kd.1) gs)
    end) slots)
  = record_guards name bind slots m.
Proof.
  unfold flatten, record_guards. rewrite map_map. f_equal.
  apply map_ext. intros kd. unfold slot_guards, extractGuard.
  by destruct (options kd.2 name).
Qed.

Lemma extractGuards_forward records name bind :
  extractGuards records name bind false =
  concat (map (fun m => record_guards name bind (components m) m) records).
Proof.
  unfold extractGuards. rewrite flatMapComponents_concat, flatten_concat, map_map.
  f_equal. apply map_ext. intros m. apply flatten_slots.
Qed.

Lemma extractGuards_reverse records name bind :
  extractGuards records name bind true =
  concat (map (fun m => record_guards name bind (rev (components m)) m) (rev records)).
Proof.
  unfold extractGuards. rewrite flatMapComponents_concat, rev_concat_lists, flatten_concat.
  rewrite <- map_rev, !map_map. f_equal. apply map_ext. intros m.
  rewrite <- map_rev. apply flatten_slots.
Qed.

(** ** Every call of the engine is a sequence of moves *)

Lemma moves_trans m m' m'' : moves m m' -> moves m' m'' -> moves m m''.
Proof.
  intros H1 H2. induction H2 as [|? ? ? ? IH Hm]; [done|].
  eapply moves_step; [by apply IH|done].
Qed.

Lemma moves_one m m' : move m m' -> moves m m'.
Proof. intros. eapply moves_step; [apply moves_refl|done]. Qed.

Lemma moves_then m m' m'' : moves m m' -> move m' m'' -> moves m m''.
Proof. apply moves_step. Qed.

Lemma moves_host m m' :
  history m' = history m ->
  next_ref m' = next_ref m -> log m' = log m -> moves m m'.
Proof. intros. by apply moves_one, move_host. Qed.

Lemma moves_emit m evs : forallb plain evs = true -> moves m (emit evs m).
Proof. intros. by apply moves_one, move_emit. Qed.

Lemma plain_map {A} (f : A -> Event) (l : list A) :
  (forall a, plain (f a) = true) -> forallb plain (map f l) = true.
Proof. intros Hf. induction l; simpl; [done|]. by rewrite Hf, IHl. Qed.

Lemma transition_aborted_moves oa err m : moves m (transition_aborted oa err m).
Proof.
  unfold transition_aborted.
  set (m1 := match oa with Some f => emit [EvOnAbort f err] m | None => m end).
  assert (moves m m1) as H1.
  { subst m1. destruct oa; [by apply moves_emit|apply moves_refl]. }
  destruct (truthy err) eqn:Ht; simpl; [|done].
  destruct (ready (history m1)) eqn:Hr; simpl; [done|].
  eapply moves_then; [exact H1|]. by apply move_error_ready.
Qed.

Lemma abort_moves oa err m : moves m (abort oa err m).
Proof.
  unfold abort.
  eapply moves_trans; [|apply transition_aborted_moves].
  destruct (isError err); [|apply moves_refl].
  destruct (negb _); apply moves_emit; [by apply plain_map|done].
Qed.

Lemma ensureURL_moves b m : moves m (ensureURL b m).
Proof.
  unfold ensureURL. destruct (String.eqb _ _); [apply moves_refl|].
  destruct b; unfold pushHash, replaceHash.
  - eapply moves_trans; [|by apply moves_emit]. by apply moves_host.
  - eapply moves_trans; [|by apply moves_emit]. by apply moves_host.
Qed.

Lemma transitionTo_moves rm sr location oc oa m :
  moves m (transitionTo rm sr location oc oa m).
Proof.
  unfold transitionTo, confirmTransition.
  match goal with |- context [if ?c then _ else _] => destruct c end.
  - eapply moves_trans; [|apply abort_moves].
    eapply moves_trans; [|apply ensureURL_moves].
    apply moves_one, move_alloc.
  - unfold runQueue, push_frame.
    eapply moves_trans; [apply moves_one, (move_start m (Build_Route (next_ref m)
      (rm location (current (history m))))); done|].
    by apply moves_host.
Qed.

Lemma push_moves rm sr location oc oa m : moves m (push rm sr location oc oa m).
Proof. apply transitionTo_moves. Qed.

Lemma replace_moves rm sr location oc oa m : moves m (replace rm sr location oc oa m).
Proof. apply transitionTo_moves. Qed.

Lemma resolution_moves rm sr sync tr ph queue index to m :
  moves m (resolution rm sr sync tr ph queue index to m).
Proof.
  unfold resolution. destruct (is_false to || isError to).
  - eapply moves_trans; [apply ensureURL_moves|apply abort_moves].
  - match goal with |- context [match ?c with inl _ => _ | inr _ => _ end] => destruct c as [e|[]] end.
    + destruct sync; [apply abort_moves|by apply moves_emit].
    + eapply moves_trans; [apply abort_moves|].
      destruct (asks_replace to); [apply replace_moves|apply push_moves].
    + by apply moves_host.
Qed.

Lemma guard_continues_moves rm sr sync tr ph queue index hook to m :
  moves m (guard_continues rm sr sync tr ph queue index hook to m).
Proof.
  unfold guard_continues.
  destruct hook; try apply resolution_moves.
  destruct to; try apply resolution_moves.
  eapply moves_trans; [|apply resolution_moves]. by apply moves_host.
Qed.

Lemma iterator_moves rm sr bh tr ph queue index hook m :
  moves m (iterator rm sr bh tr ph queue index hook m).
Proof.
  unfold iterator. destruct (pending_is_not _ _); [apply abort_moves|].
  eapply moves_trans; [by apply (moves_emit m [EvGuard hook (t_route tr) (t_current tr)])|].
  destruct (bh _ _ _).
  - apply guard_continues_moves.
  - apply abort_moves.
  - by apply moves_host.
Qed.

Lemma exec_moves rm sr bh f m :
  moves m (exec rm sr bh f m)
  \/ exists tr queue index,
       f = FStep tr PostResolve queue index /\ queue !! index = None
       /\ pending_is_not (pending (history m)) (t_route tr) = false
       /\ exec rm sr bh f m = commit tr m.
Proof.
  destruct f as [tr ph queue index|tr f match_ key]; simpl.
  - unfold step. destruct (queue !! index) as [[hook|]|] eqn:Hq.
    + left. apply iterator_moves.
    + left. by apply moves_host.
    + destruct ph; [left; by apply moves_host|].
      unfold post_resolve_done.
      destruct (pending_is_not _ _) eqn:Hp; [left; apply abort_moves|].
      right. by exists tr, queue, index.
  - left. by apply moves_host.
Qed.

Lemma poll_moves pe obs m : moves m (poll pe obs m).
Proof.
  unfold poll. destruct (live _) as [inst|].
  - by apply moves_emit.
  - destruct (isValid _ _); [by apply moves_host|apply moves_refl].
Qed.

Lemma foldl_poll_moves obs l m : moves m (foldl (fun m pe => poll pe obs m) m l).
Proof.
  revert m. induction l as [|pe l IH]; intros m; simpl; [apply moves_refl|].
  eapply moves_trans; [apply poll_moves|apply IH].
Qed.

Lemma onReady_moves c e m : moves m (onReady c e m).
Proof.
  unfold onReady. destruct (ready (history m)) eqn:Hr; [by apply moves_emit|].
  apply moves_one.
  destruct e as [e|].
  - refine (eq_rect _ (move m) (move_register m
      (set_readyErrorCbs (readyErrorCbs (history m) ++ [e])
         (set_readyCbs (readyCbs (history m) ++ [c]) (history m))) _ _ _ _ _ _) _ _);
      simpl; eauto.
  - refine (eq_rect _ (move m) (move_register m
      (set_readyCbs (readyCbs (history m) ++ [c]) (history m)) _ _ _ _ _ _) _ _);
      simpl; eauto.
    exists []. by rewrite app_nil_r.
Qed.

Lemma inject_moves rm sr i m : moves m (inject rm sr i m).
Proof.
  destruct i; simpl.
  - apply transitionTo_moves.
  - apply push_moves.
  - apply replace_moves.
  - apply onReady_moves.
  - apply moves_one.
    by refine (eq_rect _ (move m) (move_listeners m
      (set_errorCbs (errorCbs (history m) ++ [errorCb]) (history m)) _ _ _ _ _) _ _).
  - apply moves_one.
    by refine (eq_rect _ (move m) (move_listeners m
      (set_cb (Some c) (history m)) _ _ _ _ _) _ _).
  - by apply moves_host.
  - by apply moves_host.
  - unfold hash_listener, ensureSlash, getHash.
    eapply moves_trans; [by apply (moves_host m (set_location_hash hash m))|].
    match goal with |- context [if ?c then _ else _] => destruct c end.
    + apply transitionTo_moves.
    + unfold replaceHash. eapply moves_trans; [|by apply moves_emit]. by apply moves_host.
  - destruct (suspended m !! n) as [s|]; [|apply moves_refl].
    eapply moves_trans; [|apply guard_continues_moves]. by apply moves_host.
  - destruct (nextTicks m) as [|k rest]; [apply moves_refl|].
    eapply moves_trans; [|apply foldl_poll_moves]. by apply moves_host.
  - destruct (timers m !! n) as [pe|]; [|apply moves_refl].
    eapply moves_trans; [|apply poll_moves]. by apply moves_host.
Qed.

(** An invariant of the moves and of the commit is an invariant of every
    execution. *)
Lemma steps_invariant (P : Machine -> Prop) :
  (forall m m', P m -> move m m' -> P m') ->
  (forall m tr, P m -> pending_is_not (pending (history m)) (t_route tr) = false ->
                P (commit tr m)) ->
  forall m m', steps m m' -> P m -> P m'.
Proof.
  intros Hmove Hcommit.
  assert (forall m m', moves m m' -> P m -> P m') as Hmoves.
  { induction 1; eauto. }
  induction 1 as [|m m' m'' rm sr bh Hs IH Hstep|m m' rm sr i Hs IH]; intros HP.
  - done.
  - specialize (IH HP). unfold mstep in Hstep.
    destruct (control m') as [|f rest] eqn:Hc; [done|].
    injection Hstep as <-.
    assert (P (set_control rest m')) as HP'.
    { eapply Hmove; [exact IH|]. by apply move_host. }
    destruct (exec_moves rm sr bh f (set_control rest m'))
      as [Hm|(tr & queue & index & _ & _ & Hp & ->)].
    + eapply Hmoves; eauto.
    + by apply Hcommit.
  - eapply Hmoves; [apply inject_moves|]. by apply IH.
Qed.

(** ** The claims *)

(** C3. [resolveQueue] is a function of the two matched sequences alone. With
    [i] the first index at which they differ by reference (the shorter
    length when one is a prefix of the other), it returns
    [updated = next[0..i)], [activated = next[i..)] and
    [deactivated = current[i..)]. So [updated ++ activated] is [next],
    identical sequences give empty [activated] and [deactivated], and
    sequences with no record in common give an empty [updated]. *)
Theorem resolveQueue_first_difference (current next : list RouteRecord) :
  let d := resolveQueue current next in
  (exists i,
      i <= length current /\ i <= length next
      /\ (forall j, j < i ->
            exists a b, current !! j = Some a /\ next !! j = Some b
                        /\ same_record a b = true)
      /\ (i < Nat.max (length current) (length next) -> differ_at current next i = true)
      /\ ((forall j, j < Nat.min (length current) (length next) ->
             differ_at current next j = false) ->
          i = Nat.min (length current) (length next))
      /\ updated d = take i next
      /\ activated d = drop i next
      /\ deactivated d = drop i current)
  /\ updated d ++ activated d = next
  /\ (current = next -> activated d = [] /\ deactivated d = [])
  /\ ((forall a b, a ∈ current -> b ∈ next -> same_record a b = false) ->
      updated d = []).
Proof.
  simpl.
  pose proof (first_difference_spec current next
                (Nat.max (length current) (length next)) 0) as Hs.
  simpl in Hs. destruct Hs as (Hrange & Hagree & Hdiff).
  set (k := first_difference (Nat.max (length current) (length next)) 0 current next) in *.
  assert (forall j, j < k ->
            exists a b, current !! j = Some a /\ next !! j = Some b
                        /\ same_record a b = true) as Hsame.
  { intros j Hj. apply differ_at_false_lt; [lia|]. apply Hagree. lia. }
  assert (k <= length current /\ k <= length next) as [Hkc Hkn].
  { destruct k as [|k']; [lia|].
    destruct (Hsame k') as (a & b & Ha & Hb & _); [lia|].
    apply lookup_lt_Some in Ha, Hb. lia. }
  split; [|split; [|split]].
  - exists k. repeat split; try done.
    intros Hmin.
    destruct (decide (k = Nat.min (length current) (length next))) as [|Hne]; [done|].
    assert (k < Nat.min (length current) (length next)) as Hlt by lia.
    rewrite Hmin in Hdiff by done. discriminate Hdiff. lia.
  - apply take_drop.
  - intros ->.
    assert (k = length next) as ->.
    { destruct (decide (k = length next)) as [|Hne]; [done|].
      rewrite differ_at_refl in Hdiff. discriminate Hdiff. lia. }
    by rewrite drop_all.
  - intros Hdisj. destruct k as [|k'] eqn:Hk; [done|].
    destruct (Hsame 0) as (a & b & Ha & Hb & Hab); [lia|].
    rewrite Hdisj in Hab; [done| |]; eapply list_elem_of_lookup_2; eauto.
Qed.

(** C10. When [ready] is already true, [onReady(cb, errorCb)] calls [cb] at
    once with no argument and does nothing else: [errorCb] is not stored, so
    the call is the same as the one without it. When [ready] is false, [cb]
    is queued, and [errorCb] too when there is one, and nothing is called. *)
Theorem onReady_after_ready (c : FnId) (errorCb : option FnId) (m : Machine) :
  (ready (history m) = true ->
     onReady c errorCb m = emit [EvReadyNow c] m
     /\ onReady c errorCb m = onReady c None m
     /\ readyCbs (history (onReady c errorCb m)) = readyCbs (history m)
     /\ readyErrorCbs (history (onReady c errorCb m)) = readyErrorCbs (history m))
  /\ (ready (history m) = false ->
     readyCbs (history (onReady c errorCb m)) = readyCbs (history m) ++ [c]
     /\ readyErrorCbs (history (onReady c errorCb m)) =
          readyErrorCbs (history m) ++ from_option (fun e => [e]) [] errorCb
     /\ log (onReady c errorCb m) = log m).
Proof.
  unfold onReady. split; intros ->.
  - done.
  - destruct errorCb; simpl; rewrite ?app_nil_r; done.
Qed.


Lemma control_abort oa err m : control (abort oa err m) = control m.
Proof. unfold abort, transition_aborted. split_tests; done. Qed.

(** What the iterator does with the value a guard hands to its continuation,
    for every value but [null]. *)
Lemma resolution_cases rm sr sync tr ph queue index to m :
  (is_false to || isError to = true ->
     resolution rm sr sync tr ph queue index to m
     = abort (t_onAbort tr) to (ensureURL true m))
  /\ ((exists s, to = VString s)
      \/ (exists o, to = VObject o /\ (is_Some (o_path o) \/ is_Some (o_name o))) ->
     resolution rm sr sync tr ph queue index to m
     = (if asks_replace to then replace rm sr to None None else push rm sr to None None)
         (abort (t_onAbort tr) VUndefined m))
  /\ (passes_on to = true ->
     resolution rm sr sync tr ph queue index to m
     = push_frame (FStep tr ph queue (S index)) m).
Proof.
  unfold resolution. split; [|split].
  - by intros ->.
  - intros [[s ->]|(o & -> & Ho)]; simpl; [done|].
    assert (bool_decide (is_Some (o_path o)) || bool_decide (is_Some (o_name o)) = true) as ->.
    { destruct Ho as [Ho|Ho]; rewrite (bool_decide_eq_true_2 _ Ho); [done|apply orb_true_r]. }
    by destruct (o_replace o).
  - destruct to as [| |[]| | | |o]; simpl; try done.
    intros Hp. apply negb_true_iff in Hp. by rewrite Hp.
Qed.

(** C4, at [null]. [typeof null] is ['object'], so the iterator reads
    [to.path] on [null], which raises a TypeError: when the guard called its
    continuation before returning, the iterator's [catch] aborts the
    navigation with that error; when it called it later, nothing catches
    it. In neither case does the queue go on to the next item. *)
Theorem next_null_raises rm sr (tr : Transition) (ph : Phase)
    (queue : list (option QueueItem)) (index : nat) (m : Machine) :
  resolution rm sr true tr ph queue index VNull m
    = abort (t_onAbort tr) null_property_error m
  /\ resolution rm sr false tr ph queue index VNull m
    = emit [EvThrown null_property_error] m
  /\ (forall sync,
        control (resolution rm sr sync tr ph queue index VNull m) = control m
        /\ control (resolution rm sr sync tr ph queue index VNull m)
           <> control (push_frame (FStep tr ph queue (S index)) m)).
Proof.
  split; [done|]. split; [done|].
  intros sync.
  assert (control (resolution rm sr sync tr ph queue index VNull m) = control m) as Hc.
  { destruct sync; [apply control_abort|done]. }
  split; [done|]. rewrite Hc. simpl.
  intros Heq. apply (f_equal length) in Heq. simpl in Heq. lia.
Qed.

(** *** What the moves leave alone *)



Lemma move_pending m m' :
  move m m' -> pending (history m') = None -> pending (history m) = None.
Proof. destruct 1; simpl; try congruence. Qed.

Lemma moves_pending m m' :
  moves m m' -> pending (history m') = None -> pending (history m) = None.
Proof.
  induction 1 as [|m m' m'' _ IH Hm]; [done|]. intros H. eapply IH, move_pending; eauto.
Qed.

Lemma pending_abort oa err m : pending (history (abort oa err m)) = pending (history m).
Proof. unfold abort, transition_aborted. split_tests; done. Qed.

Lemma mstep_cases rm sr bh m m' :
  mstep rm sr bh m = Some m' ->
  moves m m'
  \/ exists tr queue index rest,
       control m = FStep tr PostResolve queue index :: rest
       /\ queue !! index = None
       /\ pending_is_not (pending (history m)) (t_route tr) = false
       /\ m' = commit tr (set_control rest m).
Proof.
  unfold mstep. destruct (control m) as [|f rest] eqn:Hc; [done|]. intros [= <-].
  destruct (exec_moves rm sr bh f (set_control rest m))
    as [Hm|(tr & queue & index & -> & Hq & Hp & ->)].
  - left. eapply moves_trans; [|exact Hm]. by apply moves_host.
  - right. by exists tr, queue, index, rest.
Qed.

Lemma after_hook_calls_present hooks route prev :
  after_hook_calls hooks route prev = map (fun f => EvAfterHook f route prev) (present hooks).
Proof.
  unfold after_hook_calls, present.
  induction hooks as [|[h|] hooks IH]; simpl; [done| |]; [f_equal|]; apply IH.
Qed.

Lemma updateRoute_log route m :
  log (updateRoute route m)
  = log m ++ from_option (fun c => [EvListener c route]) [] (cb (history m))
          ++ map (fun f => EvAfterHook f route (current (history m)))
                 (present (afterHooks (router m))).
Proof.
  unfold updateRoute. rewrite after_hook_calls_present.
  destruct (cb (history m)) eqn:Hcb; simpl; rewrite Hcb; simpl; [|done].
  by rewrite <- app_assoc.
Qed.

Lemma updateRoute_history route m :
  history (updateRoute route m) = set_current route (history m).
Proof. unfold updateRoute. simpl. by destruct (cb (history m)). Qed.

Lemma call_onComplete_log oc route m :
  exists evs, log (call_onComplete oc route m) = log m ++ evs
              /\ forallb (fun ev => negb (is_guard_call ev)) evs = true
              /\ history (call_onComplete oc route m) = history m.
Proof.
  destruct oc as [[f|from [f|]|from [f|]|cur [] []]|]; simpl; rewrite <- ?app_assoc.
  all: first [ exists []; rewrite app_nil_r; done
             | eexists; (split; [reflexivity|done]) ].
Qed.

Lemma ensureURL_log b m :
  exists evs, log (ensureURL b m) = log m ++ evs
              /\ forallb (fun ev => negb (is_guard_call ev)) evs = true
              /\ history (ensureURL b m) = history m.
Proof.
  unfold ensureURL. destruct (String.eqb _ _).
  - exists []. by rewrite app_nil_r.
  - destruct b; eexists; (split; [reflexivity|done]).
Qed.

Lemma commit_effect tr m :
  exists evs,
    log (commit tr m)
    = log m ++ from_option (fun c => [EvListener c (t_route tr)]) [] (cb (history m))
            ++ map (fun f => EvAfterHook f (t_route tr) (current (history m)))
                   (present (afterHooks (router m)))
            ++ evs
    /\ forallb (fun ev => negb (is_guard_call ev)) evs = true
    /\ current (history (commit tr m)) = t_route tr
    /\ pending (history (commit tr m)) = None
    /\ ready (history (commit tr m)) = true.
Proof.
  unfold commit, transition_completed.
  set (m0 := with_history (set_pending None) m).
  pose proof (updateRoute_log (t_route tr) m0) as Hu.
  pose proof (updateRoute_history (t_route tr) m0) as Huh.
  destruct (call_onComplete_log (t_onComplete tr) (t_route tr) (updateRoute (t_route tr) m0))
    as (e1 & Hl1 & Hg1 & Hh1).
  destruct (ensureURL_log false
              (call_onComplete (t_onComplete tr) (t_route tr) (updateRoute (t_route tr) m0)))
    as (e2 & Hl2 & Hg2 & Hh2).
  set (m3 := ensureURL false _) in *.
  assert (history m3 = set_current (t_route tr) (history m0)) as Hh3 by congruence.
  assert (log m3 = log m ++ from_option (fun c => [EvListener c (t_route tr)]) [] (cb (history m))
            ++ map (fun f => EvAfterHook f (t_route tr) (current (history m)))
                   (present (afterHooks (router m))) ++ e1 ++ e2) as Hl3.
  { rewrite Hl2, Hl1, Hu. simpl. by rewrite <- !app_assoc. }
  destruct (ready (history m3)) eqn:Hr; simpl.
  - exists (e1 ++ e2). split_tests; rewrite ?Hh3; simpl; repeat split; try done.
    + by rewrite forallb_app, Hg1, Hg2.
    + rewrite Hh3 in Hr. done.
    + by rewrite forallb_app, Hg1, Hg2.
    + rewrite Hh3 in Hr. done.
  - exists (e1 ++ e2 ++ map (fun c => EvReadyCb c (t_route tr)) (readyCbs (history m3))).
    split_tests; rewrite ?Hh3, ?Hl3; simpl; repeat split; try done;
      rewrite <- ?app_assoc; try done;
      rewrite !forallb_app, Hg1, Hg2; simpl; by apply forallb_forall; intros ? (? & <- & _)%in_map_iff.
Qed.


(** C6, as the code has it. [pending] is set to the candidate route when a
    transition that is not a no-op starts its queue. An abort leaves
    [pending] as it is, and so does the no-op. The final callback of the
    second queue clears [pending] when it still is the transition's route,
    and that is the commit; nothing else ever clears it. *)
Theorem pending_is_cleared_by_commit_only :
  (forall oa err m, pending (history (abort oa err m)) = pending (history m))
  /\ (forall sr route oc oa m,
        pending (history (confirmTransition sr route oc oa m))
        = if sr route (current (history m))
             && Nat.eqb (length (matched (route_data route)))
                        (length (matched (route_data (current (history m)))))
          then pending (history m) else Some route)
  /\ (forall tr m,
        post_resolve_done tr m
        = if pending_is_not (pending (history m)) (t_route tr)
          then abort (t_onAbort tr) VUndefined m else commit tr m)
  /\ (forall tr m, pending (history (commit tr m)) = None)
  /\ (forall rm sr bh m m',
        mstep rm sr bh m = Some m' ->
        pending (history m') = None ->
        pending (history m) = None
        \/ exists tr queue index rest,
             control m = FStep tr PostResolve queue index :: rest
             /\ queue !! index = None
             /\ pending_is_not (pending (history m)) (t_route tr) = false
             /\ m' = commit tr (set_control rest m))
  /\ (forall rm sr i m,
        pending (history (inject rm sr i m)) = None -> pending (history m) = None).
Proof.
  split; [|split; [|split; [|split; [|split]]]].
  - apply pending_abort.
  - intros. unfold confirmTransition.
    destruct (sr route _ && _); simpl; [|done].
    rewrite pending_abort. unfold ensureURL. split_tests; done.
  - done.
  - intros. by destruct (commit_effect tr m) as (? & _ & _ & _ & ? & _).
  - intros rm sr bh m m' Hstep Hnone.
    destruct (mstep_cases _ _ _ _ _ Hstep) as [Hm|Hcommit].
    + left. by eapply moves_pending.
    + by right.
  - intros rm sr i m. apply moves_pending, inject_moves.
Qed.

(** C6, as the claim has it, fails: the before hook refuses the navigation
    to "/about"; the transition is aborted, nothing of it is left to run,
    and [pending] still holds its route. *)
Lemma pending_survives_an_abort :
  exists m',
    handle ex_match ex_same ex_refuse 20
      (CallTransitionTo (VString "/about") None (Some 5)) ex_at_home = Some m'
    /\ last (log m') = Some (EvOnAbort 5 (VBool false))
    /\ control m' = [] /\ suspended m' = []
    /\ route_ref <$> pending (history m') = Some 2
    /\ pending (history m') <> None.
Proof.
  eexists. split; [vm_compute; reflexivity|].
  repeat split; try (vm_compute; reflexivity). vm_compute. discriminate.
Qed.









(** The engine's calls of a run, and the input before them, are steps. *)
Lemma run_steps rm sr bh fuel m m' :
  run rm sr bh fuel m = Some m' -> steps m m'.
Proof.
  assert (forall m0, steps m0 m -> run rm sr bh fuel m = Some m' -> steps m0 m') as H;
    [|apply H, steps_refl].
  revert m. induction fuel as [|fuel IH]; intros m m0 Hs; simpl.
  - destruct (control m); [by intros [= <-]|done].
  - destruct (control m) as [|f rest] eqn:Hc; [by intros [= <-]|].
    intros Hrun. eapply IH; [|exact Hrun].
    eapply steps_call; [exact Hs|]. unfold mstep. by rewrite Hc.
Qed.

Lemma handle_steps rm sr bh fuel i m m' :
  handle rm sr bh fuel i m = Some m' -> steps m m'.
Proof.
  unfold handle.
  assert (forall m1, steps m m1 -> run rm sr bh fuel m1 = Some m' -> steps m m') as H.
  { clear. revert m'. induction fuel as [|fuel IH]; intros m' m1 Hs; simpl.
    - destruct (control m1); [by intros [= <-]|done].
    - destruct (control m1) as [|f rest] eqn:Hc; [by intros [= <-]|].
      apply IH. eapply steps_call; [exact Hs|]. unfold mstep. by rewrite Hc. }
  apply H. apply (steps_input m m rm sr i), steps_refl.
Qed.

Lemma steps_trans m m' m'' : steps m m' -> steps m' m'' -> steps m m''.
Proof.
  intros H1 H2. induction H2 as [|? ? ? ? ? ? ? IH Hs|? ? ? ? ? ? IH]; [done| |].
  - eapply steps_call; [by apply IH|done].
  - apply steps_input. by apply IH.
Qed.








(** *** A superseded transition *)

Lemma commits_plain r evs : forallb plain evs = true -> List.filter (commits r) evs = [].
Proof.
  induction evs as [|ev evs IH]; [done|]. simpl. intros [Hp He]%andb_prop.
  rewrite (IH He). by destruct ev.
Qed.

Lemma filter_map_none {A} (f : Event -> bool) (g : A -> Event) (l : list A) :
  (forall a, f (g a) = false) -> List.filter f (map g l) = [].
Proof. intros Hf. induction l as [|a l IH]; simpl; [done|]. by rewrite Hf. Qed.

Lemma commit_log tr m :
  exists evs,
    log (commit tr m) = log m ++ evs
    /\ forall r, same_route (t_route tr) r = false -> List.filter (commits r) evs = [].
Proof.
  unfold commit, transition_completed.
  set (m0 := with_history (set_pending None) m).
  pose proof (updateRoute_log (t_route tr) m0) as Hu.
  set (m1 := updateRoute (t_route tr) m0) in *. clearbody m1.
  assert (exists e1, log (call_onComplete (t_onComplete tr) (t_route tr) m1) = log m1 ++ e1
            /\ forall r, same_route (t_route tr) r = false -> List.filter (commits r) e1 = [])
    as (e1 & He1 & Hc1).
  { destruct (t_onComplete tr) as [[f|from [f|]|from [f|]|cur [] []]|]; simpl;
      rewrite <- ?app_assoc; simpl.
    all: first [ exists []; rewrite app_nil_r; done
               | eexists; split; [reflexivity|]; intros r Hr; simpl; rewrite ?Hr; done ]. }
  set (m2 := call_onComplete (t_onComplete tr) (t_route tr) m1) in *. clearbody m2.
  assert (exists e2, log (ensureURL false m2) = log m2 ++ e2
            /\ forall r, List.filter (commits r) e2 = []) as (e2 & He2 & Hc2).
  { unfold ensureURL, replaceHash. destruct (String.eqb _ _).
    - exists []. by rewrite app_nil_r.
    - eexists. split; [reflexivity|done]. }
  set (m3 := ensureURL false m2) in *. clearbody m3.
  assert (forall r l, same_route (t_route tr) r = false ->
            List.filter (commits r) (map (fun c => EvReadyCb c (t_route tr)) l) = []) as Hrc.
  { intros r l Hr. apply filter_map_none. intros c. exact Hr. }
  assert (forall r, same_route (t_route tr) r = false ->
            List.filter (commits r)
              (from_option (fun c => [EvListener c (t_route tr)]) [] (cb (history m0))
               ++ map (fun f => EvAfterHook f (t_route tr) (current (history m0)))
                      (present (afterHooks (router m0)))) = []) as Hup.
  { intros r Hr. rewrite List.filter_app.
    assert (List.filter (commits r) (map (fun f => EvAfterHook f (t_route tr)
              (current (history m0))) (present (afterHooks (router m0)))) = []) as ->.
    { apply filter_map_none. intros f. exact Hr. }
    rewrite app_nil_r. destruct (cb (history m0)) as [c0|]; [|done].
    apply (filter_map_none (commits r) (fun c => EvListener c (t_route tr)) [c0]).
    intros c. exact Hr. }
  exists ((from_option (fun c => [EvListener c (t_route tr)]) [] (cb (history m0))
           ++ map (fun f => EvAfterHook f (t_route tr) (current (history m0)))
                  (present (afterHooks (router m0))))
          ++ e1 ++ e2 ++ (if negb (ready (history m3))
                          then map (fun c => EvReadyCb c (t_route tr))
                                   (readyCbs (history m3)) else [])).
  split.
  - assert (log m3 = log m ++ (from_option (fun c => [EvListener c (t_route tr)]) []
                                 (cb (history m0))
              ++ map (fun f => EvAfterHook f (t_route tr) (current (history m0)))
                     (present (afterHooks (router m0)))) ++ e1 ++ e2) as Hl3.
    { rewrite He2, He1, Hu. simpl. by rewrite <- !app_assoc. }
    destruct (negb (ready (history m3))); simpl; split_tests; rewrite Hl3;
      rewrite <- ?app_assoc, ?app_nil_r; reflexivity.
  - intros r Hr. rewrite List.filter_app, Hup, !List.filter_app, Hc1, Hc2 by done. simpl.
    destruct (negb _); [by apply Hrc|done].
Qed.

Lemma superseded_move a l m m' : superseded a l m -> move m m' -> superseded a l m'.
Proof.
  unfold superseded. intros (Hn & Hc & Hp & Hl) Hm.
  destruct Hm as [m m' Hh Hn' Hl'|m evs Hev|m h Hc' Hp' _ _ _ _|m h Hc' Hp' _ _ _| |m r Hr|m err _ _];
    simpl.
  - by rewrite Hh, Hn', Hl'.
  - by rewrite List.filter_app, (commits_plain a evs), app_nil_r.
  - by rewrite Hc', Hp'.
  - by rewrite Hc', Hp'.
  - repeat split; try done. lia.
  - repeat split; try done; [lia|].
    unfold same_route. rewrite Hr. apply negb_true_iff, Nat.eqb_neq. lia.
  - repeat split; try done. rewrite List.filter_app, Hl.
    rewrite filter_map_none; [apply app_nil_r|done].
Qed.

Lemma superseded_commit a l m tr :
  superseded a l m -> pending_is_not (pending (history m)) (t_route tr) = false ->
  superseded a l (commit tr m).
Proof.
  unfold superseded. intros (Hn & Hc & Hp & Hl) Htr.
  assert (same_route (t_route tr) a = false) as Hne.
  { unfold pending_is_not in *. destruct (pending (history m)) as [p|]; [|done].
    apply negb_false_iff in Htr. apply negb_true_iff in Hp.
    unfold same_route in *. apply Nat.eqb_eq in Htr. by rewrite <- Htr. }
  destruct (commit_effect tr m) as (_ & _ & _ & Hcur & Hpen & _).
  destruct (commit_log tr m) as (evs & Hlog & Hnone).
  rewrite Hcur, Hpen, Hlog, List.filter_app, Hnone, app_nil_r by done.
  repeat split; try done.
  unfold commit, transition_completed, updateRoute, call_onComplete, ensureURL, replaceHash,
    pushHash.
  split_tests; try done; destruct o; split_tests; done.
Qed.

Lemma ex_superseded_first_answers :
  handle ex_match ex_same ex_confirm 20 (GuardContinues 0 VUndefined) ex_superseded
  = Some (abort (t_onAbort ex_first) VUndefined
            (set_suspended (delete 0 (suspended ex_superseded)) ex_superseded)).
Proof. vm_compute. reflexivity. Qed.

(** C2. Let A be a transition whose route has not been committed. Starting
    a transition B that is not a no-op makes B's new route the pending one,
    and from then on no execution ever commits A. Whenever the pending route
    is not A's, the iterator called for a guard of A aborts, and so does the
    final callback of A's second queue. In general, from a state where the
    pending route is not A's, in every execution [current] never becomes A's
    route, A's route never becomes pending again, and nothing that a commit
    of A calls ([onComplete], the listener, the after hooks, the ready
    callbacks with A's route) is called. *)
Theorem superseded_transition_never_commits (a : Transition) (m : Machine) :
  route_ref (t_route a) < next_ref m ->
  same_route (current (history m)) (t_route a) = false ->
  (forall rm sr location oc oa,
      let b := {| route_ref := next_ref m;
                  route_data := rm location (current (history m)) |} in
      sr b (current (history m))
        && Nat.eqb (length (matched (route_data b)))
                   (length (matched (route_data (current (history m))))) = false ->
      pending (history (transitionTo rm sr location oc oa m)) = Some b
      /\ forall m', steps (transitionTo rm sr location oc oa m) m' ->
           same_route (current (history m')) (t_route a) = false
           /\ pending_is_not (pending (history m')) (t_route a) = true
           /\ List.filter (commits (t_route a)) (log m')
              = List.filter (commits (t_route a)) (log m))
  /\ (forall m',
        pending_is_not (pending (history m')) (t_route a) = true ->
        (forall rm sr bh ph queue index hook,
            iterator rm sr bh a ph queue index hook m' = abort (t_onAbort a) VUndefined m')
        /\ post_resolve_done a m' = abort (t_onAbort a) VUndefined m')
  /\ (pending_is_not (pending (history m)) (t_route a) = true ->
      forall m', steps m m' ->
        same_route (current (history m')) (t_route a) = false
        /\ pending_is_not (pending (history m')) (t_route a) = true
        /\ List.filter (commits (t_route a)) (log m')
           = List.filter (commits (t_route a)) (log m)).
Proof.
  intros Hnew Hcur.
  assert (forall m0 m', superseded (t_route a) (List.filter (commits (t_route a)) (log m)) m0 ->
            steps m0 m' ->
            same_route (current (history m')) (t_route a) = false
            /\ pending_is_not (pending (history m')) (t_route a) = true
            /\ List.filter (commits (t_route a)) (log m')
               = List.filter (commits (t_route a)) (log m)) as Hnever.
  { intros m0 m' H0 Hs.
    assert (superseded (t_route a) (List.filter (commits (t_route a)) (log m)) m') as Hsup.
    { eapply (steps_invariant (superseded (t_route a) _));
        [apply superseded_move| |exact Hs|done].
      intros. by apply superseded_commit. }
    by destruct Hsup as (_ & ? & ? & ?). }
  split; [|split].
  - intros rm sr location oc oa b Hno.
    assert (transitionTo rm sr location oc oa m
            = runQueue {| t_route := b; t_current := current (history m);
                          t_activated := activated (resolveQueue
                            (matched (route_data (current (history m))))
                            (matched (route_data b)));
                          t_onComplete := oc; t_onAbort := oa |} PreResolve
                (guard_queue (beforeHooks (router m)) (resolveQueue
                            (matched (route_data (current (history m))))
                            (matched (route_data b))))
                (with_history (set_pending (Some b)) (set_next_ref (S (next_ref m)) m))) as ->.
    { unfold transitionTo, confirmTransition.
      change (current (history (set_next_ref (S (next_ref m)) m))) with (current (history m)).
      fold b. by rewrite Hno. }
    split; [done|]. intros m' Hs. eapply Hnever; [|exact Hs].
    repeat split; simpl; try done; [lia|].
    unfold same_route. simpl. apply negb_true_iff, Nat.eqb_neq. lia.
  - intros m' Hp. split.
    + intros. unfold iterator. by rewrite Hp.
    + unfold post_resolve_done. by rewrite Hp.
  - intros Hp m' Hs. by apply (Hnever m m').
Qed.

Lemma superseded_transition_never_commits_witness :
  exists m',
    handle ex_match ex_same ex_confirm 20 (GuardContinues 0 VUndefined) ex_superseded = Some m'
    /\ same_route (current (history m')) (t_route ex_first) = false
    /\ pending_is_not (pending (history m')) (t_route ex_first) = true
    /\ List.filter (commits (t_route ex_first)) (log m')
       = List.filter (commits (t_route ex_first)) (log ex_superseded).
Proof.
  eexists. split; [exact ex_superseded_first_answers|].
  refine (proj2 (proj2 (superseded_transition_never_commits ex_first ex_superseded _ _))
            _ _ (handle_steps _ _ _ _ _ _ _ ex_superseded_first_answers));
    [vm_compute; lia|reflexivity|reflexivity].
Defined.

(** *** The guards of one transition are called in the order of its queue *)

Lemma guard_calls_app r l1 l2 : guard_calls r (l1 ++ l2) = guard_calls r l1 ++ guard_calls r l2.
Proof. unfold guard_calls. apply omap_app. Qed.

Lemma guard_calls_none r evs :
  forallb (fun ev => negb (is_guard_call ev)) evs = true -> guard_calls r evs = [].
Proof.
  induction evs as [|ev evs IH]; [done|]. simpl. intros [Hp He]%andb_prop.
  destruct ev; try done; simpl; apply IH, He.
Qed.

Lemma guard_calls_map_none {A} r (g : A -> Event) l :
  (forall a, is_guard_call (g a) = false) -> guard_calls r (map g l) = [].
Proof.
  intros Hg. apply guard_calls_none. induction l as [|a l IH]; [done|].
  simpl. by rewrite Hg, IH.
Qed.

Lemma adds_refl r m : adds r [] [] [] m m.
Proof. exists [], [], []. by rewrite !app_nil_r. Qed.

Lemma adds_trans r c1 f1 s1 c2 f2 s2 m m' m'' :
  adds r c1 f1 s1 m m' -> adds r c2 f2 s2 m' m'' ->
  adds r (c1 ++ c2) (f2 ++ f1) (s1 ++ s2) m m''.
Proof.
  intros (e1 & n1 & u1 & Hl1 & Hc1 & Hs1 & Hn1 & <- & <- & <-)
         (e2 & n2 & u2 & Hl2 & Hc2 & Hs2 & Hn2 & <- & <- & <-).
  exists (e1 ++ e2), (n2 ++ n1), (u1 ++ u2).
  rewrite Hl2, Hl1, Hc2, Hc1, Hs2, Hs1, guard_calls_app, !List.filter_app, <- !app_assoc.
  repeat split; try done. lia.
Qed.

Lemma quiet_trans r m m' m'' : quiet r m m' -> quiet r m' m'' -> quiet r m m''.
Proof. intros H1 H2. apply (adds_trans r [] [] [] [] [] [] _ _ _ H1 H2). Qed.

Lemma quiet_adds r c f s m m' m'' : quiet r m m' -> adds r c f s m' m'' -> adds r c f s m m''.
Proof.
  intros H1 H2. pose proof (adds_trans r [] [] [] c f s _ _ _ H1 H2) as H.
  by rewrite !app_nil_r in H.
Qed.

Lemma adds_quiet r c f s m m' m'' : adds r c f s m m' -> quiet r m' m'' -> adds r c f s m m''.
Proof.
  intros H1 H2. pose proof (adds_trans r c f s [] [] [] _ _ _ H1 H2) as H.
  by rewrite !app_nil_r in H.
Qed.

Lemma quiet_host r m m' :
  log m' = log m -> control m' = control m -> suspended m' = suspended m ->
  next_ref m <= next_ref m' -> quiet r m m'.
Proof. intros Hl Hc Hs Hn. exists [], [], []. by rewrite !app_nil_r. Qed.

Lemma quiet_emit r evs m :
  forallb (fun ev => negb (is_guard_call ev)) evs = true -> quiet r m (emit evs m).
Proof.
  intros He. exists evs, [], []. rewrite app_nil_r. repeat split; try done.
  by apply guard_calls_none.
Qed.

Lemma quiet_emit_map {A} r (g : A -> Event) l m :
  (forall a, is_guard_call (g a) = false) -> quiet r m (emit (map g l) m).
Proof.
  intros Hg. apply quiet_emit. induction l as [|a l IH]; [done|]. simpl. by rewrite Hg, IH.
Qed.

Lemma transition_aborted_quiet r oa err m : quiet r m (transition_aborted oa err m).
Proof.
  unfold transition_aborted.
  set (m1 := match oa with Some f => emit [EvOnAbort f err] m | None => m end).
  assert (quiet r m m1) as H1.
  { subst m1. destruct oa; [by apply quiet_emit|apply adds_refl]. }
  destruct (truthy err && negb (ready (history m1))); [|done].
  eapply quiet_trans; [exact H1|].
  eapply quiet_trans; [|by apply quiet_emit_map]. by apply quiet_host.
Qed.

Lemma abort_quiet r oa err m : quiet r m (abort oa err m).
Proof.
  unfold abort. eapply quiet_trans; [|apply transition_aborted_quiet].
  destruct (isError err); [|apply adds_refl].
  destruct (negb _); [by apply quiet_emit_map|by apply quiet_emit].
Qed.

Lemma ensureURL_quiet r b m : quiet r m (ensureURL b m).
Proof.
  unfold ensureURL. destruct (String.eqb _ _); [apply adds_refl|].
  destruct b; unfold pushHash, replaceHash;
    (eapply quiet_trans; [|by apply quiet_emit]); by apply quiet_host.
Qed.

Lemma same_route_fresh r b : route_ref r < route_ref b -> same_route b r = false.
Proof. intros H. unfold same_route. apply Nat.eqb_neq. lia. Qed.

Lemma transitionTo_quiet r rm sr location oc oa m :
  route_ref r < next_ref m -> quiet r m (transitionTo rm sr location oc oa m).
Proof.
  intros Hr. unfold transitionTo, confirmTransition.
  match goal with |- context [if ?c then _ else _] => destruct c end.
  - eapply quiet_trans; [|apply abort_quiet].
    eapply quiet_trans; [|apply ensureURL_quiet]. apply quiet_host; simpl; try done. lia.
  - unfold runQueue, push_frame.
    eexists [], [_], []. simpl. rewrite !app_nil_r.
    split; [done|]. split; [done|]. split; [done|]. split; [lia|]. split; [done|].
    split; [|done]. simpl. by rewrite same_route_fresh by (simpl; lia).
Qed.

Lemma resolution_adds r rm sr sync tr ph queue index to m :
  route_ref r < next_ref m ->
  adds r [] [] [] m (resolution rm sr sync tr ph queue index to m)
  \/ adds r [] (List.filter (is_cont_frame r) [FStep tr ph queue (S index)]) [] m
       (resolution rm sr sync tr ph queue index to m).
Proof.
  intros Hr. unfold resolution. destruct (is_false to || isError to).
  - left. eapply quiet_trans; [apply ensureURL_quiet|apply abort_quiet].
  - match goal with |- context [match ?c with inl _ => _ | inr _ => _ end] => destruct c as [e|[]] end.
    + left. destruct sync; [apply abort_quiet|by apply quiet_emit].
    + left. eapply quiet_trans; [apply abort_quiet|].
      assert (route_ref r < next_ref (abort (t_onAbort tr) VUndefined m)) as Hr'.
      { destruct (abort_quiet r (t_onAbort tr) VUndefined m) as (? & ? & ? & _ & _ & _ & Hn & _).
        lia. }
      destruct (asks_replace to); by apply transitionTo_quiet.
    + right. exists [], [FStep tr ph queue (S index)], []. by rewrite !app_nil_r.
Qed.

Lemma guard_continues_adds r rm sr sync tr ph queue index hook to m :
  route_ref r < next_ref m ->
  adds r [] [] [] m (guard_continues rm sr sync tr ph queue index hook to m)
  \/ adds r [] (List.filter (is_cont_frame r) [FStep tr ph queue (S index)]) [] m
       (guard_continues rm sr sync tr ph queue index hook to m).
Proof.
  intros Hr. unfold guard_continues.
  destruct hook; try by apply resolution_adds.
  destruct to; try by apply resolution_adds.
  assert (quiet r m (push_frame (FPushCb tr f record key) m)) as Hq.
  { exists [], [FPushCb tr f record key], []. by rewrite !app_nil_r. }
  destruct (resolution_adds r rm sr sync tr ph queue index (VFunction f)
              (push_frame (FPushCb tr f record key) m) Hr) as [H|H].
  - left. by eapply quiet_trans.
  - right. by eapply quiet_adds.
Qed.

Lemma iterator_adds r rm sr bh tr ph q i hook m :
  route_ref r < next_ref m ->
  exists calls fr su,
    adds r calls fr su m (iterator rm sr bh tr ph q i hook m)
    /\ ((calls = [] /\ fr = [] /\ su = [])
        \/ (calls = guard_calls r [EvGuard hook (t_route tr) (t_current tr)]
            /\ ((fr = [] /\ su = [])
                \/ (fr = List.filter (is_cont_frame r) [FStep tr ph q (S i)] /\ su = [])
                \/ (fr = [] /\ su = List.filter (is_cont_susp r)
                                     [{| s_tr := tr; s_phase := ph; s_queue := q;
                                         s_index := i; s_hook := hook |}])))).
Proof.
  intros Hr. unfold iterator. destruct (pending_is_not _ _).
  { exists [], [], []. split; [apply abort_quiet|]. by left. }
  set (ev := EvGuard hook (t_route tr) (t_current tr)).
  assert (adds r (guard_calls r [ev]) [] [] m (emit [ev] m)) as He.
  { exists [ev], [], []. by rewrite !app_nil_r. }
  assert (route_ref r < next_ref (emit [ev] m)) as Hr' by done.
  destruct (bh hook (t_route tr) (t_current tr)) as [to|e|].
  - destruct (guard_continues_adds r rm sr true tr ph q i hook to (emit [ev] m) Hr') as [H|H].
    + exists (guard_calls r [ev]), [], []. split; [by eapply adds_quiet|]. right. split; [done|by left].
    + eexists (guard_calls r [ev]), _, []. split.
      * pose proof (adds_trans _ _ _ _ _ _ _ _ _ _ He H) as Ht.
        rewrite !app_nil_r in Ht. exact Ht.
      * right. split; [done|]. right. by left.
  - exists (guard_calls r [ev]), [], []. split; [|right; split; [done|by left]].
    eapply adds_quiet; [exact He|apply abort_quiet].
  - eexists (guard_calls r [ev]), [], _. split.
    + assert (adds r [] [] (List.filter (is_cont_susp r)
                 [{| s_tr := tr; s_phase := ph; s_queue := q; s_index := i; s_hook := hook |}])
                (emit [ev] m)
                (set_suspended (suspended (emit [ev] m) ++
                   [{| s_tr := tr; s_phase := ph; s_queue := q; s_index := i;
                       s_hook := hook |}]) (emit [ev] m))) as Hs.
      { eexists [], [], [_]. by rewrite !app_nil_r. }
      pose proof (adds_trans _ _ _ _ _ _ _ _ _ _ He Hs) as Ht.
      rewrite !app_nil_r in Ht. exact Ht.
    + right. split; [done|]. right. by right.
Qed.

Lemma updateRoute_quiet r route m : quiet r m (updateRoute route m).
Proof.
  unfold updateRoute.
  eapply quiet_trans; [|by apply quiet_emit_map
                             || (rewrite after_hook_calls_present; by apply quiet_emit_map)].
  destruct (cb _); [|by apply quiet_host].
  eapply quiet_trans; [|by apply quiet_emit]. by apply quiet_host.
Qed.

Lemma call_onComplete_quiet r oc route m : quiet r m (call_onComplete oc route m).
Proof.
  destruct (call_onComplete_log oc route m) as (evs & Hl & Hg & _).
  exists evs, [], []. rewrite !app_nil_r. repeat split; try done.
  - by destruct oc as [[f|from [f|]|from [f|]|cur [] []]|].
  - by destruct oc as [[f|from [f|]|from [f|]|cur [] []]|].
  - by destruct oc as [[f|from [f|]|from [f|]|cur [] []]|].
  - by apply guard_calls_none.
Qed.

Lemma commit_quiet r tr m : quiet r m (commit tr m).
Proof.
  unfold commit, transition_completed.
  assert (quiet r m (ensureURL false (call_onComplete (t_onComplete tr) (t_route tr)
             (updateRoute (t_route tr) (with_history (set_pending None) m))))) as H.
  { eapply quiet_trans; [|apply ensureURL_quiet].
    eapply quiet_trans; [|apply call_onComplete_quiet].
    eapply quiet_trans; [|apply updateRoute_quiet]. by apply quiet_host. }
  set (m3 := ensureURL false _) in *. clearbody m3.
  assert (quiet r m (if negb (ready (history m3))
                     then emit (map (fun c => EvReadyCb c (t_route tr))
                                  (readyCbs (history (with_history (set_ready true) m3))))
                            (with_history (set_ready true) m3)
                     else m3)) as H'.
  { destruct (negb _); [|done].
    eapply quiet_trans; [exact H|].
    eapply quiet_trans; [|by apply quiet_emit_map]. by apply quiet_host. }
  destruct (app _); [|done]. eapply quiet_trans; [exact H'|]. by apply quiet_host.
Qed.

Lemma step_adds r rm sr bh tr ph q i m :
  route_ref r < next_ref m ->
  exists calls fr su,
    adds r calls fr su m (step rm sr bh tr ph q i m)
    /\ ((calls = [] /\ fr = [] /\ su = [])
        \/ (calls = [] /\ q !! i = Some None
            /\ fr = List.filter (is_cont_frame r) [FStep tr ph q (S i)] /\ su = [])
        \/ (calls = [] /\ q !! i = None /\ ph = PreResolve
            /\ exists q2, fr = List.filter (is_cont_frame r) [FStep tr PostResolve q2 0]
                          /\ su = [])
        \/ (exists hook,
              q !! i = Some (Some hook)
              /\ calls = guard_calls r [EvGuard hook (t_route tr) (t_current tr)]
              /\ ((fr = [] /\ su = [])
                  \/ (fr = List.filter (is_cont_frame r) [FStep tr ph q (S i)] /\ su = [])
                  \/ (fr = [] /\ su = List.filter (is_cont_susp r)
                                       [{| s_tr := tr; s_phase := ph; s_queue := q;
                                           s_index := i; s_hook := hook |}])))).
Proof.
  intros Hr. unfold step. destruct (q !! i) as [[hook|]|] eqn:Hq.
  - destruct (iterator_adds r rm sr bh tr ph q i hook m Hr)
      as (calls & fr & su & Ha & [(-> & -> & ->)|(-> & Hcase)]).
    + exists [], [], []. split; [done|by left].
    + eexists _, fr, su. split; [exact Ha|]. do 3 right. by exists hook.
  - eexists [], _, []. split.
    + exists [], [FStep tr ph q (S i)], []. by rewrite !app_nil_r.
    + right. by left.
  - destruct ph.
    + unfold pre_resolve_done, runQueue. eexists [], _, []. split.
      * eexists [], [_], []. rewrite !app_nil_r. repeat split; done.
      * do 2 right. left. repeat split; try done. by eexists.
    + exists [], [], []. split; [|by left]. unfold post_resolve_done.
      destruct (pending_is_not _ _); [apply abort_quiet|apply commit_quiet].
Qed.

Lemma poll_quiet r pe obs m : quiet r m (poll pe obs m).
Proof.
  unfold poll. destruct (live _); [by apply quiet_emit|].
  destruct (isValid _ _); [by apply quiet_host|apply adds_refl].
Qed.

Lemma foldl_poll_quiet r obs l m : quiet r m (foldl (fun m pe => poll pe obs m) m l).
Proof.
  revert m. induction l as [|pe l IH]; intros m; simpl; [apply adds_refl|].
  eapply quiet_trans; [apply poll_quiet|apply IH].
Qed.

Lemma hash_listener_quiet r rm sr sps es m :
  route_ref r < next_ref m -> quiet r m (hash_listener rm sr sps es m).
Proof.
  intros Hr. unfold hash_listener, ensureSlash.
  match goal with |- context [if ?c then _ else _] => destruct c end.
  - by apply transitionTo_quiet.
  - unfold replaceHash. eapply quiet_trans; [|by apply quiet_emit]. by apply quiet_host.
Qed.

Lemma filter_nil_In {A} (p : A -> bool) l x :
  length (List.filter p l) = 0 -> In x l -> p x = true -> False.
Proof.
  intros Hl Hin Hp. assert (In x (List.filter p l)) as H by (by apply List.filter_In).
  destruct (List.filter p l); [done|]. simpl in Hl. lia.
Qed.

Lemma tracks_extend tr q1 c0 c m1 m' calls fr su :
  tracked tr q1 c0 c m1 ->
  adds (t_route tr) calls fr su m1 m' ->
  conts (t_route tr) m1 + length fr + length su <= 1 ->
  (calls = [] \/ conts (t_route tr) m1 = 0) ->
  (forall f, In f fr -> exists ph q i, f = FStep tr ph q i /\ stands_at q1 (c ++ calls) ph q i) ->
  (forall s, In s su ->
     s_tr s = tr /\ stands_at q1 (c ++ calls) (s_phase s) (s_queue s) (S (s_index s))) ->
  in_queue_order q1 (c ++ calls) ->
  tracks tr q1 c0 m'.
Proof.
  intros (Hlog & Href & Hfr & Hsu)
         (evs & news & news_s & Hl & Hc & Hs & Hn & <- & <- & <-) Hcount Hold Hnew Hnews Hord.
  exists (c ++ guard_calls (t_route tr) evs).
  split; [split; [|split; [|split]]|split].
  - by rewrite Hl, guard_calls_app, Hlog, app_assoc.
  - lia.
  - intros f Hin Hcont. rewrite Hc in Hin. apply in_app_or in Hin as [Hin|Hin].
    + apply Hnew. by apply List.filter_In.
    + destruct Hold as [->|Hzero].
      * rewrite app_nil_r. by apply Hfr.
      * exfalso. unfold conts in Hzero.
        eapply (filter_nil_In (is_cont_frame (t_route tr)) (control m1)); eauto. lia.
  - intros s Hin Hcont. rewrite Hs in Hin. apply in_app_or in Hin as [Hin|Hin].
    + destruct Hold as [->|Hzero].
      * rewrite app_nil_r. by apply Hsu.
      * exfalso. unfold conts in Hzero.
        eapply (filter_nil_In (is_cont_susp (t_route tr)) (suspended m1)); eauto. lia.
    + apply Hnews. by apply List.filter_In.
  - unfold conts in *. rewrite Hc, Hs, !List.filter_app, !length_app. lia.
  - done.
Qed.

Lemma stands_at_skip q1 c ph q i :
  stands_at q1 c ph q i -> q !! i = Some None -> stands_at q1 c ph q (S i).
Proof.
  destruct ph; simpl; [|done]. intros [-> ->] Hq. split; [done|].
  rewrite (take_S_r _ _ _ Hq). unfold present. rewrite omap_app. simpl. by rewrite app_nil_r.
Qed.

Lemma stands_at_call q1 c ph q i hook :
  stands_at q1 c ph q i -> q !! i = Some (Some hook) -> stands_at q1 (c ++ [hook]) ph q (S i).
Proof.
  destruct ph; simpl.
  - intros [-> ->] Hq. split; [done|].
    rewrite (take_S_r _ _ _ Hq). unfold present. by rewrite omap_app.
  - intros [rest ->] _. exists (rest ++ [hook]). by rewrite app_assoc.
Qed.

Lemma stands_at_end q1 c q i q2 :
  stands_at q1 c PreResolve q i -> q !! i = None -> stands_at q1 c PostResolve q2 0.
Proof.
  simpl. intros [-> ->] Hq. exists []. rewrite app_nil_r.
  by rewrite take_ge by (by apply lookup_ge_None).
Qed.

Lemma stands_at_order q1 c ph q i : stands_at q1 c ph q i -> in_queue_order q1 c.
Proof. destruct ph; simpl; [intros [_ ->]; left; by eexists|intros [rest ->]; right; by eexists]. Qed.

Lemma tracks_quiet tr q1 c0 c m1 m' :
  tracked tr q1 c0 c m1 -> conts (t_route tr) m1 <= 1 -> in_queue_order q1 c ->
  quiet (t_route tr) m1 m' -> tracks tr q1 c0 m'.
Proof.
  intros Ht Hc Ho Hq.
  eapply (tracks_extend tr q1 c0 c m1 m' [] [] []); eauto.
  - simpl. lia.
  - intros f [].
  - intros s [].
  - by rewrite app_nil_r.
Qed.

Lemma In_delete {A} n (l : list A) x : In x (delete n l) -> In x l.
Proof.
  revert n. induction l as [|a l IH]; intros [|n]; simpl; try done.
  - by right.
  - intros [->|H]; [by left|right; by eapply IH].
Qed.

Lemma filter_delete_length {A} (p : A -> bool) n (l : list A) s :
  l !! n = Some s ->
  length (List.filter p l)
  = (if p s then 1 else 0) + length (List.filter p (delete n l)).
Proof.
  revert n. induction l as [|a l IH]; intros [|n]; simpl; try done.
  - intros [= ->]. by destruct (p s).
  - intros Hn. destruct (p a); simpl; rewrite (IH _ Hn); destruct (p s); simpl; lia.
Qed.

Lemma guard_calls_one r hook to from :
  guard_calls r [EvGuard hook to from] = if same_route to r then [hook] else [].
Proof. unfold guard_calls. cbn -[same_route]. by destruct (same_route to r). Qed.

Lemma tracks_step tr q1 c0 rm sr bh m m' :
  tracks tr q1 c0 m -> mstep rm sr bh m = Some m' -> tracks tr q1 c0 m'.
Proof.
  intros (c & (Hlog & Href & Hfr & Hsu) & Hcount & Hord). unfold mstep.
  destruct (control m) as [|f rest] eqn:Hctl; [done|]. intros [= <-].
  set (m1 := set_control rest m).
  assert (tracked tr q1 c0 c m1) as Ht1.
  { split; [done|]. split; [done|]. split; [|done].
    intros f' Hin. apply Hfr. rewrite ?Hctl. by right. }
  assert (conts (t_route tr) m
          = (if is_cont_frame (t_route tr) f then 1 else 0) + conts (t_route tr) m1) as Hcm.
  { unfold conts, m1. rewrite Hctl. simpl. destruct (is_cont_frame _ f); simpl; lia. }
  destruct f as [tr' ph q i|tr' g rec key].
  2: { eapply tracks_quiet; eauto; [simpl in Hcm; lia|]. by apply quiet_host. }
  destruct (step_adds (t_route tr) rm sr bh tr' ph q i m1 Href) as (calls & fr & su & Ha & Hcase).
  change (exec rm sr bh (FStep tr' ph q i) m1) with (step rm sr bh tr' ph q i m1).
  generalize dependent (step rm sr bh tr' ph q i m1). intros m2 Ha.
  simpl in Hcm. destruct (same_route (t_route tr') (t_route tr)) eqn:Hk.
  - destruct (Hfr (FStep tr' ph q i)) as (ph0 & q0 & i0 & [= -> <- <- <-] & Hpos);
      [rewrite ?Hctl; by left|done|].
    assert (conts (t_route tr) m1 = 0) as Hzero by lia.
    destruct Hcase as [(-> & -> & ->)|[(-> & Hq & -> & ->)|[(-> & Hq & -> & q2 & -> & ->)
                      |(hook & Hq & -> & Hsub)]]];
      rewrite ?guard_calls_one in Ha; simpl in Ha; rewrite ?Hk in Ha.
    + eapply tracks_quiet; eauto. lia.
    + refine (tracks_extend tr q1 c0 c m1 m2 _ _ _ Ht1 Ha _ _ _ _ _); rewrite ?app_nil_r.
      * simpl. lia.
      * by left.
      * intros f [<-|[]]. eexists _, _, _. split; [done|]. by apply stands_at_skip.
      * intros s [].
      * done.
    + refine (tracks_extend tr q1 c0 c m1 m2 _ _ _ Ht1 Ha _ _ _ _ _); rewrite ?app_nil_r.
      * simpl. lia.
      * by left.
      * intros f [<-|[]]. eexists _, _, _. split; [done|]. by eapply stands_at_end.
      * intros s [].
      * done.
    + pose proof (stands_at_call _ _ _ _ _ _ Hpos Hq) as Hpos'.
      assert (is_cont_susp (t_route tr) {| s_tr := tr; s_phase := ph; s_queue := q;
                s_index := i; s_hook := hook |} = true) as Hks by exact Hk.
      destruct Hsub as [(-> & ->)|[(-> & ->)|(-> & ->)]]; simpl in Ha;
        rewrite ?Hk, ?Hks in Ha;
        refine (tracks_extend tr q1 c0 c m1 m2 _ _ _ Ht1 Ha _ _ _ _ _);
        try (simpl; lia); try (by right); try (by intros ? []);
        try (by eapply stands_at_order).
      * intros f [<-|[]]. by eexists _, _, _.
      * intros s [<-|[]]. done.
  - assert (calls = [] /\ fr = [] /\ su = []) as (-> & -> & ->).
    { destruct Hcase as [?|[(-> & Hq & -> & ->)|[(-> & Hq & -> & q2 & -> & ->)
                        |(hook & Hq & -> & Hsub)]]]; rewrite ?guard_calls_one;
        simpl; rewrite ?Hk; simpl; try done.
      assert (is_cont_susp (t_route tr) {| s_tr := tr'; s_phase := ph; s_queue := q;
                s_index := i; s_hook := hook |} = false) as Hks by exact Hk.
      destruct Hsub as [(-> & ->)|[(-> & ->)|(-> & ->)]]; simpl; rewrite ?Hk, ?Hks; done. }
    eapply tracks_quiet; eauto. lia.
Qed.

Lemma tracks_inject tr q1 c0 rm sr i m :
  tracks tr q1 c0 m -> tracks tr q1 c0 (inject rm sr i m).
Proof.
  intros (c & Ht & Hcount & Hord).
  pose proof Ht as (Hlog & Href & Hfr & Hsu).
  destruct i; simpl.
  - eapply tracks_quiet; eauto. by apply transitionTo_quiet.
  - eapply tracks_quiet; eauto. by apply transitionTo_quiet.
  - eapply tracks_quiet; eauto. by apply transitionTo_quiet.
  - eapply tracks_quiet; eauto. unfold onReady.
    destruct (ready _); [by apply quiet_emit|]. destruct errorCb; by apply quiet_host.
  - eapply tracks_quiet; eauto. by apply quiet_host.
  - eapply tracks_quiet; eauto. by apply quiet_host.
  - eapply tracks_quiet; eauto. by apply quiet_host.
  - eapply tracks_quiet; eauto. by apply quiet_host.
  - eapply tracks_quiet; eauto.
    eapply quiet_trans; [by apply (quiet_host _ m (set_location_hash hash m))|].
    by apply hash_listener_quiet.
  - destruct (suspended m !! n) as [s|] eqn:Hn.
    2: { eapply tracks_quiet; eauto. apply adds_refl. }
    set (m1 := set_suspended (delete n (suspended m)) m).
    assert (tracked tr q1 c0 c m1) as Ht1.
    { split; [done|]. split; [done|]. split; [done|].
      intros s' Hin. apply Hsu. apply (In_delete n). exact Hin. }
    assert (conts (t_route tr) m
            = (if is_cont_susp (t_route tr) s then 1 else 0) + conts (t_route tr) m1) as Hcm.
    { unfold conts, m1. simpl.
      rewrite (filter_delete_length (is_cont_susp (t_route tr)) n (suspended m) s Hn). lia. }
    assert (In s (suspended m)) as Hin.
    { apply list_elem_of_In. by eapply list_elem_of_lookup_2. }
    destruct (guard_continues_adds (t_route tr) rm sr false (s_tr s) (s_phase s) (s_queue s)
                (s_index s) (s_hook s) to m1 Href) as [Ha|Ha].
    { eapply tracks_quiet; eauto. lia. }
    simpl in Ha. destruct (is_cont_susp (t_route tr) s) eqn:Hk.
    + destruct (Hsu s Hin Hk) as [Htr Hpos]. unfold is_cont_susp in Hk. rewrite Hk in Ha.
      refine (tracks_extend tr q1 c0 c m1 _ _ _ _ Ht1 Ha _ _ _ _ _); rewrite ?app_nil_r.
      * simpl. lia.
      * by left.
      * intros f [<-|[]]. rewrite Htr. by eexists _, _, _.
      * intros ? [].
      * done.
    + unfold is_cont_susp in Hk. rewrite Hk in Ha. eapply tracks_quiet; eauto. lia.
  - destruct (nextTicks m) as [|k rest]; [eapply tracks_quiet; eauto; apply adds_refl|].
    eapply tracks_quiet; eauto.
    eapply quiet_trans; [|apply foldl_poll_quiet]. by apply quiet_host.
  - destruct (timers m !! n) as [pe|]; [|eapply tracks_quiet; eauto; apply adds_refl].
    eapply tracks_quiet; eauto.
    eapply quiet_trans; [|apply poll_quiet]. by apply quiet_host.
Qed.

Lemma tracks_steps tr q1 c0 m m' : steps m m' -> tracks tr q1 c0 m -> tracks tr q1 c0 m'.
Proof.
  induction 1 as [|m m' m'' rm sr bh Hs IH Hstep|m m' rm sr i Hs IH]; intros Ht.
  - done.
  - eapply tracks_step; [by apply IH|exact Hstep].
  - apply tracks_inject. by apply IH.
Qed.

(** *** Running a queue whose guards all confirm *)

Lemma emit_nil m : emit [] m = m.
Proof. destruct m. unfold emit. simpl. by rewrite app_nil_r. Qed.

Lemma present_drop_None {A} (queue : list (option A)) index :
  queue !! index = Some None -> present (drop index queue) = present (drop (S index) queue).
Proof.
  intros Hq. by rewrite (drop_S _ _ _ Hq).
Qed.

Lemma present_drop_Some {A} (queue : list (option A)) index x :
  queue !! index = Some (Some x) ->
  present (drop index queue) = x :: present (drop (S index) queue).
Proof.
  intros Hq. by rewrite (drop_S _ _ _ Hq).
Qed.

Lemma msteps_confirming rm sr bh tr ph queue rest k :
  forall index m,
    index + k = length queue ->
    control m = FStep tr ph queue index :: rest ->
    pending_is_not (pending (history m)) (t_route tr) = false ->
    (forall q, q ∈ present (drop index queue) ->
       is_enter_guard q = false
       /\ exists v, bh q (t_route tr) (t_current tr) = Calls v /\ passes_on v = true) ->
    msteps rm sr bh k m
    = Some (set_control (FStep tr ph queue (length queue) :: rest)
              (emit (map (fun q => EvGuard q (t_route tr) (t_current tr))
                         (present (drop index queue))) m)).
Proof.
  induction k as [|k IH]; intros index m Hlen Hc Hp Hq.
  - simpl. assert (index = length queue) as -> by lia.
    rewrite drop_all. simpl. rewrite emit_nil. destruct m; simpl in *. by rewrite Hc.
  - destruct (queue !! index) as [[hook|]|] eqn:Hi.
    + destruct (Hq hook) as (Hne & v & Hb & Hv).
      { rewrite (present_drop_Some _ _ _ Hi). apply list_elem_of_here. }
      simpl. unfold mstep. rewrite Hc. simpl. unfold step. rewrite Hi.
      unfold iterator. simpl. rewrite Hp, Hb.
      assert (forall m0, guard_continues rm sr true tr ph queue index hook v m0
                         = push_frame (FStep tr ph queue (S index)) m0) as ->.
      { intros m0. unfold guard_continues.
        destruct hook; try done; apply (resolution_cases rm sr true tr ph queue index v m0), Hv. }
      rewrite (IH (S index)); simpl; try done; [|lia|].
      * rewrite (present_drop_Some _ _ _ Hi). simpl. f_equal.
        unfold push_frame, set_control, emit. simpl. by rewrite <- app_assoc.
      * intros q Hin. apply Hq. rewrite (present_drop_Some _ _ _ Hi). by apply list_elem_of_further.
    + simpl. unfold mstep. rewrite Hc. simpl. unfold step. rewrite Hi.
      rewrite (IH (S index)); simpl; try done; [|lia|].
      * by rewrite (present_drop_None _ _ Hi).
      * intros q Hin. apply Hq. by rewrite (present_drop_None _ _ Hi).
    + apply lookup_ge_None in Hi. lia.
Qed.

Lemma extractGuards_bindGuard_no_enter records name reverse q :
  Some q ∈ extractGuards records name bindGuard reverse -> is_enter_guard q = false.
Proof.
  assert (forall slots m, Some q ∈ record_guards name bindGuard slots m ->
            is_enter_guard q = false) as Hrec.
  { intros slots m. unfold record_guards. rewrite list_elem_of_In, in_concat.
    intros (l & Hl & Hin). apply in_map_iff in Hl as (kd & <- & _).
    unfold slot_guards, bindGuard in Hin.
    destruct (options kd.2 name) as [|g|gs]; simpl in Hin.
    - destruct Hin as [|[]]; done.
    - destruct Hin as [Hin|[]]. destruct (instances m !! kd.1); by inversion Hin.
    - apply in_map_iff in Hin as (g & Hg & _). destruct (instances m !! kd.1); by inversion Hg. }
  destruct reverse; [rewrite extractGuards_reverse|rewrite extractGuards_forward];
    rewrite list_elem_of_In, in_concat; intros (l & Hl & Hin);
    apply in_map_iff in Hl as (m & <- & _); eapply Hrec; by apply list_elem_of_In.
Qed.

Lemma guard_queue_no_enter hooks d q :
  q ∈ present (guard_queue hooks d) -> is_enter_guard q = false.
Proof.
  unfold present. rewrite list_elem_of_omap. intros (o & Ho & Hq). simpl in Hq. subst o.
  unfold guard_queue in Ho.
  rewrite !elem_of_app in Ho. destruct Ho as [Ho|[Ho|[Ho|[Ho|Ho]]]].
  - by eapply extractGuards_bindGuard_no_enter.
  - apply list_elem_of_In, in_map_iff in Ho as ([h|] & Hh & _); by inversion Hh.
  - by eapply extractGuards_bindGuard_no_enter.
  - apply list_elem_of_In, in_map_iff in Ho as (m & Hm & _).
    destruct (beforeEnter m); by inversion Hm.
  - apply list_elem_of_singleton in Ho. by inversion Ho.
Qed.

(** *** The route object of a new transition has no continuation yet *)

Lemma same_conts_refl m : same_conts m m.
Proof. done. Qed.

Lemma same_conts_trans m m' m'' : same_conts m m' -> same_conts m' m'' -> same_conts m m''.
Proof. intros (? & ? & ?) (? & ? & ?). repeat split; congruence. Qed.

Lemma transition_aborted_same oa err m : same_conts m (transition_aborted oa err m).
Proof. unfold transition_aborted. by repeat case_match. Qed.

Lemma abort_same oa err m : same_conts m (abort oa err m).
Proof.
  unfold abort. eapply same_conts_trans; [|apply transition_aborted_same].
  by repeat case_match.
Qed.

Lemma ensureURL_same b m : same_conts m (ensureURL b m).
Proof. unfold ensureURL. by repeat case_match. Qed.

Lemma commit_same tr m : same_conts m (commit tr m).
Proof.
  unfold commit, transition_completed.
  assert (same_conts m (ensureURL false (call_onComplete (t_onComplete tr) (t_route tr)
             (updateRoute (t_route tr) (with_history (set_pending None) m))))) as H.
  { eapply same_conts_trans; [|apply ensureURL_same].
    unfold call_onComplete, updateRoute. by repeat case_match. }
  set (m3 := ensureURL false _) in *. clearbody m3.
  destruct H as (? & ? & ?). by repeat case_match.
Qed.

Lemma poll_same pe obs m : same_conts m (poll pe obs m).
Proof. unfold poll. by repeat case_match. Qed.

Lemma foldl_poll_same obs l m : same_conts m (foldl (fun m pe => poll pe obs m) m l).
Proof.
  revert m. induction l as [|pe l IH]; intros m; simpl; [done|].
  eapply same_conts_trans; [apply poll_same|apply IH].
Qed.

Lemma keeps_refl m : keeps m m.
Proof. by split. Qed.

Lemma keeps_trans m m' m'' : keeps m m' -> keeps m' m'' -> keeps m m''.
Proof. intros [? ?] [? ?]. split; [lia|auto]. Qed.

Lemma keeps_same m m' : same_conts m m' -> keeps m m'.
Proof.
  intros (Hc & Hs & Hn). split; [lia|]. unfold known_routes. by rewrite Hc, Hs, Hn.
Qed.

Lemma keeps_push f m :
  route_ref (frame_route f) < next_ref m -> keeps m (push_frame f m).
Proof.
  intros Hf. split; [done|]. intros [Hc Hs]. split; [|done]. by constructor.
Qed.

Lemma known_routes_mono n m m' :
  control m' = control m -> suspended m' = suspended m -> next_ref m' = n ->
  next_ref m <= n -> known_routes m -> known_routes m'.
Proof.
  intros Hc Hs Hn Hle [H1 H2]. unfold known_routes. rewrite Hc, Hs, Hn.
  split; (eapply Forall_impl; [eassumption|]); simpl; intros; lia.
Qed.

Lemma transitionTo_keeps rm sr location oc oa m :
  keeps m (transitionTo rm sr location oc oa m).
Proof.
  unfold transitionTo.
  assert (keeps m (set_next_ref (S (next_ref m)) m)) as H0.
  { split; [simpl; lia|]. apply (known_routes_mono (S (next_ref m))); try done. lia. }
  eapply keeps_trans; [exact H0|]. unfold confirmTransition.
  match goal with |- context [if ?c then _ else _] => destruct c end.
  - apply keeps_same. eapply same_conts_trans; [apply ensureURL_same|apply abort_same].
  - unfold runQueue. eapply keeps_trans; [|apply keeps_push; simpl; lia].
    by apply keeps_same.
Qed.

Lemma resolution_keeps rm sr sync tr ph queue index to m :
  route_ref (t_route tr) < next_ref m ->
  keeps m (resolution rm sr sync tr ph queue index to m).
Proof.
  intros Hr. unfold resolution. destruct (is_false to || isError to).
  - apply keeps_same. eapply same_conts_trans; [apply ensureURL_same|apply abort_same].
  - match goal with |- context [match ?c with inl _ => _ | inr _ => _ end] => destruct c as [e|[]] end.
    + destruct sync; [apply keeps_same, abort_same|by apply keeps_same].
    + eapply keeps_trans; [apply keeps_same, abort_same|].
      destruct (asks_replace to); apply transitionTo_keeps.
    + by apply keeps_push.
Qed.

Lemma guard_continues_keeps rm sr sync tr ph queue index hook to m :
  route_ref (t_route tr) < next_ref m ->
  keeps m (guard_continues rm sr sync tr ph queue index hook to m).
Proof.
  intros Hr. unfold guard_continues.
  destruct hook; try by apply resolution_keeps.
  destruct to; try by apply resolution_keeps.
  eapply keeps_trans; [apply (keeps_push (FPushCb tr f record key)); exact Hr|].
  by apply resolution_keeps.
Qed.

Lemma iterator_keeps rm sr bh tr ph q i hook m :
  route_ref (t_route tr) < next_ref m ->
  keeps m (iterator rm sr bh tr ph q i hook m).
Proof.
  intros Hr. unfold iterator. destruct (pending_is_not _ _).
  { apply keeps_same, abort_same. }
  destruct (bh hook (t_route tr) (t_current tr)) as [to|e|].
  - eapply keeps_trans; [|by apply guard_continues_keeps]. by apply keeps_same.
  - apply keeps_same. eapply same_conts_trans; [|apply abort_same]. done.
  - split; [done|]. intros [Hc Hs]. split; [done|]. simpl.
    apply Forall_app. split; [done|]. by constructor.
Qed.

Lemma step_keeps rm sr bh tr ph q i m :
  route_ref (t_route tr) < next_ref m ->
  keeps m (step rm sr bh tr ph q i m).
Proof.
  intros Hr. unfold step. destruct (q !! i) as [[hook|]|].
  - by apply iterator_keeps.
  - by apply keeps_push.
  - destruct ph.
    + unfold pre_resolve_done, runQueue.
      eapply keeps_trans; [|by apply keeps_push]. by apply keeps_same.
    + unfold post_resolve_done. apply keeps_same.
      destruct (pending_is_not _ _); [apply abort_same|apply commit_same].
Qed.

Lemma known_routes_step rm sr bh m m' : mstep rm sr bh m = Some m' -> known_routes m -> known_routes m'.
Proof.
  unfold mstep. destruct (control m) as [|f rest] eqn:Hctl; [done|]. intros [= <-] [Hc Hs].
  rewrite Hctl in Hc. apply Forall_cons in Hc as [Hf Hrest].
  assert (known_routes (set_control rest m)) as Hk by (by split).
  destruct f as [tr ph q i|tr f match_ key]; simpl.
  - by apply (step_keeps rm sr bh tr ph q i (set_control rest m)).
  - done.
Qed.

Lemma known_routes_inject rm sr i m : known_routes m -> known_routes (inject rm sr i m).
Proof.
  intros Hk. destruct i; simpl.
  - by apply transitionTo_keeps.
  - by apply transitionTo_keeps.
  - by apply transitionTo_keeps.
  - apply (keeps_same m); [|done]. unfold onReady. by repeat case_match.
  - done.
  - done.
  - done.
  - done.
  - unfold hash_listener, ensureSlash.
    match goal with |- context [if ?c then _ else _] => destruct c end.
    + by apply transitionTo_keeps.
    + done.
  - destruct (suspended m !! n) as [s|] eqn:Hn; [|done].
    destruct Hk as [Hc Hs].
    assert (route_ref (t_route (s_tr s)) < next_ref m) as Hr.
    { eapply (Forall_lookup_1 _ _ _ _ Hs Hn). }
    apply guard_continues_keeps; [done|]. split; [done|]. by apply Forall_delete.
  - destruct (nextTicks m) as [|k rest]; [done|].
    apply (keeps_same (set_nextTicks rest m)); [apply foldl_poll_same|done].
  - destruct (timers m !! n) as [pe|]; [|done].
    apply (keeps_same (set_timers (delete n (timers m)) m)); [apply poll_same|done].
Qed.

Lemma known_routes_steps m m' : steps m m' -> known_routes m -> known_routes m'.
Proof.
  induction 1 as [|? ? ? ? ? ? ? IH Hs|? ? ? ? ? ? IH]; intros Hk; [done| |].
  - eapply known_routes_step; [exact Hs|by apply IH].
  - apply known_routes_inject. by apply IH.
Qed.

Lemma known_routes_initial r hash : known_routes (initial r hash).
Proof. split; constructor. Qed.

Lemma known_routes_conts r m : known_routes m -> next_ref m <= route_ref r -> conts r m = 0.
Proof.
  intros [Hc Hs] Hr. unfold conts.
  assert (List.filter (is_cont_frame r) (control m) = []) as ->.
  { induction Hc as [|f l Hf _ IH]; [done|]. simpl. rewrite IH.
    destruct f as [tr ? ? ?|]; simpl in *; [|done].
    unfold same_route. replace (route_ref (t_route tr) =? route_ref r) with false; [done|].
    symmetry. apply Nat.eqb_neq. lia. }
  assert (List.filter (is_cont_susp r) (suspended m) = []) as ->; [|done].
  induction Hs as [|s l Hf _ IH]; [done|]. simpl. rewrite IH.
  unfold is_cont_susp, same_route.
  replace (route_ref (t_route (s_tr s)) =? route_ref r) with false; [done|].
  symmetry. apply Nat.eqb_neq. lia.
Qed.

Lemma present_app {A} (l1 l2 : list (option A)) :
  present (l1 ++ l2) = present l1 ++ present l2.
Proof. apply omap_app. Qed.

Lemma in_queue_order_first l1 l2 c :
  in_queue_order (l1 ++ l2) c ->
  (exists k, c = take k (present l1)) \/ (exists rest, c = present l1 ++ rest).
Proof.
  intros [[n ->]|[rest ->]].
  - rewrite take_app, present_app.
    destruct (decide (n <= length l1)) as [Hle|Hgt].
    + left. replace (n - length l1) with 0 by lia. rewrite take_0. simpl. rewrite app_nil_r.
      exists (length (present (take n l1))).
      assert (present l1 = present (take n l1) ++ present (drop n l1)) as ->
        by (by rewrite <- present_app, take_drop).
      by rewrite take_app_length.
    + right. rewrite take_ge by lia. by eexists.
  - right. rewrite present_app, <- app_assoc. by eexists.
Qed.

Lemma tracks_start sr route oc oa m :
  sr route (current (history m))
    && Nat.eqb (length (matched (route_data route)))
               (length (matched (route_data (current (history m))))) = false ->
  route_ref route < next_ref m ->
  conts route m = 0 ->
  let d := resolveQueue (matched (route_data (current (history m))))
                        (matched (route_data route)) in
  tracks {| t_route := route; t_current := current (history m);
            t_activated := activated d; t_onComplete := oc; t_onAbort := oa |}
         (guard_queue (beforeHooks (router m)) d)
         (guard_calls route (log m))
         (confirmTransition sr route oc oa m).
Proof.
  intros Hno Href Hzero d. unfold confirmTransition. rewrite Hno. fold d.
  unfold conts in Hzero.
  exists []. split; [split; [|split; [|split]]|split].
  - simpl. by rewrite app_nil_r.
  - done.
  - simpl. intros f [<-|Hin] Hc.
    + eexists _, _, _. split; [done|]. by split.
    + exfalso. eapply (filter_nil_In (is_cont_frame route) (control m)); eauto. lia.
  - simpl. intros s Hin Hc.
    exfalso. eapply (filter_nil_In (is_cont_susp route) (suspended m)); eauto. lia.
  - unfold conts. simpl. unfold same_route. rewrite Nat.eqb_refl. simpl. lia.
  - left. by exists 0.
Qed.

(** C1. A call of [confirmTransition] that is not a no-op makes its route
    the pending one and starts the runner on this queue: the leave guards of
    the deactivated records, last record first (and in a record last slot
    first); then the global before hooks in registration order; then the
    update guards of the updated records in order; then the [beforeEnter] of
    each activated record in order; then the one step that resolves the
    async components of the activated records. So every leave guard stands
    before every before hook. When every guard confirms, they are called
    one after the other in the order of the queue. And whatever the guards
    do, in every execution that follows, for a route that is new (it has no
    continuation yet) the guards called for it are a beginning of the queue,
    or the whole queue followed by guards of the second queue: at any time
    they are a beginning of the leave guards, or start with all the leave
    guards. The route of every call that [transitionTo] makes in a state
    reached from the initial one is new in this sense. *)
Theorem pre_resolve_queue_order isSameRoute route (oc : option OnComplete)
    (oa : option FnId) (m : Machine) :
  isSameRoute route (current (history m))
    && Nat.eqb (length (matched (route_data route)))
               (length (matched (route_data (current (history m))))) = false ->
  let d := resolveQueue (matched (route_data (current (history m))))
                        (matched (route_data route)) in
  let tr := {| t_route := route; t_current := current (history m);
               t_activated := activated d; t_onComplete := oc; t_onAbort := oa |} in
  let leave := concat (map (fun r => record_guards beforeRouteLeave bindGuard
                                       (rev (components r)) r) (rev (deactivated d))) in
  let before := map (fmap UserGuard) (beforeHooks (router m)) in
  let update := concat (map (fun r => record_guards beforeRouteUpdate bindGuard
                                        (components r) r) (updated d)) in
  let enter := map (fun r => UserGuard <$> beforeEnter r) (activated d) in
  let queue := leave ++ before ++ update ++ enter ++ [Some (ResolveAsync (activated d))] in
  confirmTransition isSameRoute route oc oa m
  = push_frame (FStep tr PreResolve queue 0) (with_history (set_pending (Some route)) m)
  /\ (forall i j, i < length leave -> j < length before ->
        queue !! i = leave !! i
        /\ queue !! (length leave + j) = before !! j
        /\ i < length leave + j)
  /\ (forall rm bh,
        (forall q, q ∈ present queue ->
           exists v, bh q route (current (history m)) = Calls v /\ passes_on v = true) ->
        msteps rm isSameRoute bh (length queue) (confirmTransition isSameRoute route oc oa m)
        = Some (set_control (FStep tr PreResolve queue (length queue) :: control m)
                  (emit (map (fun q => EvGuard q route (current (history m))) (present queue))
                        (with_history (set_pending (Some route)) m))))
  /\ (route_ref route < next_ref m -> conts route m = 0 ->
      forall m', steps (confirmTransition isSameRoute route oc oa m) m' ->
        exists c,
          guard_calls route (log m') = guard_calls route (log m) ++ c
          /\ ((exists n, c = present (take n queue))
              \/ (exists rest, c = present queue ++ rest))
          /\ ((exists k, c = take k (present leave))
              \/ (exists rest, c = present leave ++ rest)))
  /\ (forall r hash (rm : Value -> Route -> RouteData) (location : Value) m0,
        steps (initial r hash) m0 ->
        m = set_next_ref (S (next_ref m0)) m0 ->
        route = {| route_ref := next_ref m0;
                   route_data := rm location (current (history m0)) |} ->
        route_ref route < next_ref m /\ conts route m = 0).
Proof.
  intros Hno d tr leave before update enter queue.
  assert (guard_queue (beforeHooks (router m)) d = queue) as Hqueue.
  { unfold guard_queue, queue, leave, update, extractLeaveGuards, extractUpdateHooks.
    by rewrite extractGuards_reverse, extractGuards_forward. }
  assert (confirmTransition isSameRoute route oc oa m
          = push_frame (FStep tr PreResolve queue 0)
              (with_history (set_pending (Some route)) m)) as Hconfirm.
  { unfold confirmTransition. rewrite Hno. fold d. by rewrite Hqueue. }
  split; [exact Hconfirm|]. split; [|split; [|split]].
  - intros i j Hi Hj. unfold queue. split; [|split; [|lia]].
    + by rewrite lookup_app_l.
    + rewrite lookup_app_r by lia. rewrite lookup_app_l by (by replace (_ + j - _) with j by lia).
      f_equal. lia.
  - intros rm bh Hall. rewrite Hconfirm.
    rewrite (msteps_confirming rm isSameRoute bh tr PreResolve queue (control m)
               (length queue) 0); simpl; try done.
    + unfold pending_is_not, same_route. simpl. by rewrite Nat.eqb_refl.
    + intros q Hq. split; [|by apply Hall].
      rewrite <- Hqueue in Hq. by eapply guard_queue_no_enter.
  - intros Href Hzero m' Hs.
    pose proof (tracks_start isSameRoute route oc oa m Hno Href Hzero) as Ht.
    simpl in Ht. fold d in Ht. rewrite Hqueue in Ht. fold tr in Ht.
    destruct (tracks_steps _ _ _ _ _ Hs Ht) as (c & (Hlog & _) & _ & Hord).
    exists c. split; [exact Hlog|]. split; [exact Hord|].
    by apply (in_queue_order_first leave
                (before ++ update ++ enter ++ [Some (ResolveAsync (activated d))])).
  - intros r hash rm location m0 Hs -> ->. simpl. split; [lia|].
    pose proof (known_routes_steps _ _ Hs (known_routes_initial r hash)) as Hk.
    by apply (known_routes_conts _ m0).
Qed.

Lemma pre_resolve_queue_order_witness :
  let m := set_next_ref 3 ex_at_home in
  let route := {| route_ref := 2;
                  route_data := ex_match (VString "/about") (current (history m)) |} in
  let tr := {| t_route := route; t_current := current (history m);
               t_activated := [ex_about]; t_onComplete := None; t_onAbort := None |} in
  let queue := [Some (BoundRouteGuard 10 ex_instance); Some (UserGuard 1); Some (UserGuard 20);
                Some (ResolveAsync [ex_about])] in
  confirmTransition ex_same route None None m
  = push_frame (FStep tr PreResolve queue 0) (with_history (set_pending (Some route)) m)
  /\ route_ref route < next_ref m
  /\ conts route m = 0
  /\ (forall m',
        run ex_match ex_same ex_defer 20 (confirmTransition ex_same route None None m) = Some m' ->
        exists c, guard_calls route (log m') = guard_calls route (log m) ++ c
                  /\ in_queue_order queue c).
Proof.
  intros m route tr queue.
  assert (route_ref route < next_ref m) as Href by (simpl; lia).
  assert (conts route m = 0) as Hzero by (vm_compute; reflexivity).
  pose proof (pre_resolve_queue_order ex_same route None None m eq_refl) as H.
  cbv zeta in H. destruct H as (H1 & _ & _ & H4 & _).
  split; [|split; [exact Href|split; [exact Hzero|]]].
  - refine (eq_trans H1 _). vm_compute. reflexivity.
  - intros m' Hrun. apply run_steps in Hrun.
    destruct (H4 Href Hzero m' Hrun) as (c & Hc & Ho & _).
    exists c. split; [exact Hc|exact Ho].
Defined.

(** C2, as the claim has it, fails when B is a no-op. A navigation A from
    "/" to "/about" waits for the before hook; a transition B to "/", the
    current route, is started: it is aborted as a no-op and [pending] still
    is A's route. When the before hook of A then confirms, A runs to its end
    and is committed: [current] is A's route and A's [onComplete] is
    called. *)
Lemma no_op_does_not_supersede :
  exists mA mB m' a,
    handle ex_match ex_same ex_defer 20
      (CallTransitionTo (VString "/about") (Some 7) (Some 5)) ex_at_home = Some mA
    /\ s_tr <$> head (suspended mA) = Some a
    /\ handle ex_match ex_same ex_defer 20
         (CallTransitionTo (VString "/") (Some 8) (Some 6)) mA = Some mB
    /\ last (log mB) = Some (EvOnAbort 6 VUndefined)
    /\ handle ex_match ex_same ex_confirm 20 (GuardContinues 0 VUndefined) mB = Some m'
    /\ same_route (current (history m')) (t_route a) = true
    /\ existsb (fun ev => match ev with
                          | EvOnComplete 7 r => same_route r (t_route a)
                          | _ => false
                          end) (log m') = true.
Proof.
  do 4 eexists.
  split; [vm_compute; reflexivity|].
  split; [vm_compute; reflexivity|].
  split; [vm_compute; reflexivity|].
  split; [vm_compute; reflexivity|].
  split; [vm_compute; reflexivity|].
  split; vm_compute; reflexivity.
Qed.

(** * Further properties of the router's code *)

(** ** Registering and unregistering hooks *)

Lemma unregisterHook_absent hooks fn :
  Some fn ∉ hooks -> unregisterHook hooks fn = hooks.
Proof.
  induction hooks as [|h l IH]; [done|]. intros Hn. simpl.
  case_bool_decide as Hh; [subst; exfalso; apply Hn; left|].
  rewrite IH; [done|]. intros Hin. apply Hn. by right.
Qed.

Lemma unregisterHook_app_present hooks l fn :
  Some fn ∈ hooks -> unregisterHook (hooks ++ l) fn = unregisterHook hooks fn ++ l.
Proof.
  induction hooks as [|h r IH]; intros Hin; [by apply elem_of_nil in Hin|].
  simpl. case_bool_decide as Hh; [done|].
  apply elem_of_cons in Hin as [Hin|Hin]; [by subst|]. simpl. by rewrite IH.
Qed.

(** X1. The function that [registerHook] returns removes the first
    occurrence of the hook in the list. Called right after the registration
    it gives the list back as it was when the hook was not in it before;
    when it was, the older occurrence goes and the new one stays at the
    end. *)
Theorem register_then_unregister hooks fn :
  unregisterHook (registerHook hooks fn) fn
  = if bool_decide (Some fn ∈ hooks) then unregisterHook hooks fn ++ [Some fn] else hooks.
Proof.
  unfold registerHook. case_bool_decide as Hin.
  - by apply unregisterHook_app_present.
  - induction hooks as [|h r IH]; simpl.
    + by rewrite bool_decide_eq_true_2.
    + case_bool_decide as Hh; [subst; exfalso; apply Hin; left|].
      rewrite IH; [done|]. intros H. apply Hin. by right.
Qed.

(** X2. Unregistering removes exactly one entry, the first one that is the
    hook, and nothing when the hook is not in the list: a hook that was
    registered twice is still there after one unregistration, and a second
    call of the same unregistering function changes nothing more when the
    hook was there once. *)
Theorem unregisterHook_first_occurrence hooks fn :
  ((Some fn ∉ hooks) /\ unregisterHook hooks fn = hooks)
  \/ (exists l1 l2,
        hooks = l1 ++ Some fn :: l2
        /\ (Some fn ∉ l1)
        /\ unregisterHook hooks fn = l1 ++ l2
        /\ (Some fn ∉ l2 -> unregisterHook (unregisterHook hooks fn) fn = l1 ++ l2)).
Proof.
  induction hooks as [|h r IH].
  - left. split; [apply not_elem_of_nil|done].
  - simpl. case_bool_decide as Hh.
    + right. exists [], r. subst. split; [done|]. split; [apply not_elem_of_nil|].
      split; [done|]. simpl. apply unregisterHook_absent.
    + destruct IH as [[Hn Heq]|(l1 & l2 & Hr & Hn & Heq & Hagain)].
      * left. split; [|by rewrite Heq].
        intros Hin. apply elem_of_cons in Hin as [Hin|Hin]; [by subst|done].
      * right. exists (h :: l1), l2. subst r. split; [done|]. split.
        { intros Hin. apply elem_of_cons in Hin as [Hin|Hin]; [by subst|done]. }
        split; [by rewrite Heq|]. intros Hl2. simpl.
        rewrite Heq. simpl. rewrite bool_decide_eq_false_2 by done.
        rewrite Heq in Hagain. by rewrite Hagain.
Qed.

(** ** The hash URL *)

Lemma indexOf_none_app c a p :
  Href.indexOf c a = None ->
  Href.indexOf c (a +:+ String c p) = Some (String.length a)
  /\ Href.slice_to (String.length a) (a +:+ String c p) = a
  /\ Href.slice_from (S (String.length a)) (a +:+ String c p) = p.
Proof.
  induction a as [|x a IH]; simpl.
  - intros _. by rewrite Ascii.eqb_refl.
  - destruct (Ascii.eqb x c); [done|].
    destruct (Href.indexOf c a) eqn:Hi; [done|]. intros _.
    destruct IH as (-> & Ht & Hf); [done|]. simpl. by rewrite Ht.
Qed.

Lemma indexOf_slice_to c s i :
  Href.indexOf c s = Some i ->
  Href.indexOf c (Href.slice_to i s) = None
  /\ String.length (Href.slice_to i s) = i.
Proof.
  revert i. induction s as [|x s IH]; intros i; simpl; [done|].
  destruct (Ascii.eqb x c) eqn:Hx.
  - by intros [= <-].
  - destruct (Href.indexOf c s) as [j|]; [|done]. intros [= <-]. simpl.
    destruct (IH j eq_refl) as [-> ->]. by rewrite Hx.
Qed.

(** X3. What [getHash] reads on the URL that [getUrl] builds for a path is
    the decoded path, whatever the address was before: the part of the
    address before the first ['#'] holds no ['#'], so the path starts after
    the one that [getUrl] writes (also when the path itself holds a ['#']).
    On an address without ['#'], [getHash] is the empty string and
    [decodeURI] is not called. *)
Theorem getHash_getUrl (decodeURI : string -> option string) (href path : string) :
  Href.getHash decodeURI (Href.getUrl href path) = decodeURI path
  /\ (Href.indexOf Href.hash_sign href = None ->
      Href.getHash decodeURI href = Some EmptyString).
Proof.
  split.
  - unfold Href.getHash, Href.getUrl.
    destruct (Href.indexOf Href.hash_sign href) as [i|] eqn:Hi.
    + destruct (indexOf_slice_to _ _ _ Hi) as [Hn _].
      by destruct (indexOf_none_app Href.hash_sign (Href.slice_to i href) path Hn) as (-> & _ & ->).
    + by destruct (indexOf_none_app Href.hash_sign href path Hi) as (-> & _ & ->).
  - unfold Href.getHash. by intros ->.
Qed.

(** X4. [getUrl] replaces what follows the first ['#'] of the address and
    keeps what comes before: building a URL on a URL that [getUrl] built
    only depends on the last path, and on an address without ['#'] the
    path is appended after a ['#']. *)
Theorem getUrl_getUrl (href p q : string) :
  Href.getUrl (Href.getUrl href p) q = Href.getUrl href q
  /\ (Href.indexOf Href.hash_sign href = None ->
      Href.getUrl href q = href +:+ String Href.hash_sign q).
Proof.
  split.
  - unfold Href.getUrl.
    destruct (Href.indexOf Href.hash_sign href) as [i|] eqn:Hi.
    + destruct (indexOf_slice_to _ _ _ Hi) as [Hn _].
      by destruct (indexOf_none_app Href.hash_sign (Href.slice_to i href) p Hn) as (-> & -> & _).
    + by destruct (indexOf_none_app Href.hash_sign href p Hi) as (-> & -> & _).
  - unfold Href.getUrl. by intros ->.
Qed.

(** ** The base *)

Lemma strip_trailing_slash_cons c d s :
  strip_trailing_slash (String c (String d s)) = String c (strip_trailing_slash (String d s)).
Proof. done. Qed.

Lemma ends_with_slash_cons c d s :
  ends_with_slash (String c (String d s)) = ends_with_slash (String d s).
Proof. done. Qed.

Lemma strip_trailing_slash_shape s :
  starts_with_slash s = true ->
  strip_trailing_slash s = EmptyString
  \/ starts_with_slash (strip_trailing_slash s) = true.
Proof.
  destruct s as [|c [|d s]]; [done| |].
  - simpl. intros ->. by left.
  - rewrite strip_trailing_slash_cons. by right.
Qed.

Lemma strip_trailing_slash_fixed s :
  strip_trailing_slash s = s <-> ends_with_slash s = false.
Proof.
  induction s as [|c s IH]; [done|].
  destruct s as [|d s].
  - simpl. destruct (Ascii.eqb c slash); split; done.
  - rewrite strip_trailing_slash_cons, ends_with_slash_cons, <- IH.
    split; [intros [= H]; exact H|by intros ->].
Qed.

Lemma strip_trailing_slash_ends s :
  ends_with_slash (strip_trailing_slash s) = true ->
  exists s', s = s' +:+ String slash (String slash EmptyString).
Proof.
  induction s as [|c s IH]; [done|].
  destruct s as [|d s].
  - simpl. destruct (Ascii.eqb c slash) eqn:Hc; simpl; [done|by rewrite Hc].
  - rewrite strip_trailing_slash_cons.
    remember (strip_trailing_slash (String d s)) as r eqn:Hs.
    destruct r as [|x t].
    + simpl. intros Hc. apply Ascii.eqb_eq in Hc. subst c.
      destruct s as [|e s]; [|by rewrite strip_trailing_slash_cons in Hs].
      simpl in Hs. destruct (Ascii.eqb d slash) eqn:Hd; [|done].
      apply Ascii.eqb_eq in Hd. subst d. by exists EmptyString.
    + rewrite ends_with_slash_cons. intros H. destruct (IH H) as [s' ->].
      by exists (String c s').
Qed.

Lemma ends_with_slash_app s t :
  ends_with_slash (s +:+ String slash t) = ends_with_slash (String slash t).
Proof.
  induction s as [|c s IH]; [done|].
  change (String c s +:+ String slash t) with (String c (s +:+ String slash t)).
  destruct (s +:+ String slash t) eqn:Hs; [by destruct s|]. by rewrite ends_with_slash_cons.
Qed.

(** X5. The base that [normalizeBase] returns is empty or starts with ['/'],
    whatever the option and the document are. Only one ['/'] is removed at
    the end: the result still ends with ['/'] exactly when the base that was
    given ends with two. *)
Theorem normalizeBase_shape (inBrowser : bool) (baseEl : option (option string))
    (base : option string) :
  (normalizeBase inBrowser baseEl base = EmptyString
   \/ starts_with_slash (normalizeBase inBrowser baseEl base) = true)
  /\ (forall c s, base = Some (String c s) ->
        (ends_with_slash (normalizeBase inBrowser baseEl base) = true
         <-> exists s', String c s = s' +:+ String slash (String slash EmptyString))).
Proof.
  split.
  - unfold normalizeBase.
    match goal with |- context [negb (starts_with_slash ?b)] => generalize b end.
    intros b. destruct (starts_with_slash b) eqn:Hb; cbn [negb]; cbv iota.
    + by apply strip_trailing_slash_shape.
    + by apply strip_trailing_slash_shape.
  - intros c s ->. unfold normalizeBase. split.
    + intros H. apply strip_trailing_slash_ends in H as [s' Hs'].
      destruct (starts_with_slash (String c s)) eqn:Hb; cbn [negb] in Hs'; cbv iota in Hs';
        [by exists s'|].
      destruct s' as [|x s'].
      * simpl in Hs'. injection Hs' as Hc Hs'. subst. by vm_compute in Hb.
      * simpl in Hs'. injection Hs' as _ Hs'. by exists s'.
    + intros [s' Hs'].
      assert (forall t, ends_with_slash
                (strip_trailing_slash (t +:+ String slash (String slash EmptyString))) = true)
        as Hends.
      { clear. intros t. induction t as [|x t IH]; [done|].
        change (String x t +:+ String slash (String slash EmptyString))
          with (String x (t +:+ String slash (String slash EmptyString))).
        destruct (t +:+ String slash (String slash EmptyString)) eqn:Ht; [by destruct t|].
        rewrite strip_trailing_slash_cons.
        remember (strip_trailing_slash (String a s)) as r eqn:Hst.
        destruct r; [done|]. by rewrite ends_with_slash_cons. }
      rewrite Hs'. destruct (starts_with_slash _); cbn [negb]; cbv iota.
      * apply Hends.
      * apply (Hends (String slash s')).
Qed.

(** X6. The bases that [normalizeBase] leaves as they are, when given as the
    option, are the ones that start with ['/'] and do not end with ['/'];
    the document plays no part then. So a result that is not empty and does
    not end with ['/'] is returned unchanged when it is given again. *)
Theorem normalizeBase_fixed_points (inBrowser : bool) (baseEl : option (option string))
    (c : Ascii.ascii) (s : string) :
  normalizeBase inBrowser baseEl (Some (String c s)) = String c s
  <-> starts_with_slash (String c s) = true /\ ends_with_slash (String c s) = false.
Proof.
  unfold normalizeBase. destruct (starts_with_slash (String c s)) eqn:Hb; cbn [negb]; cbv iota.
  - rewrite strip_trailing_slash_fixed. split; [done|by intros [_ ?]].
  - split; [|by intros [? _]]. intros H. exfalso.
    assert (starts_with_slash (strip_trailing_slash (String slash (String c s))) = true) as Hs.
    { by rewrite strip_trailing_slash_cons. }
    rewrite H in Hs. congruence.
Qed.

Lemma drop_non_slash_host host path :
  slash_free host = true ->
  path = EmptyString \/ starts_with_slash path = true ->
  drop_non_slash (host +:+ path) = path.
Proof.
  intros Hh Hp. induction host as [|x host IH]; simpl.
  - destruct Hp as [->|Hp]; [done|]. destruct path; [done|]. simpl in *. by rewrite Hp.
  - simpl in Hh. apply andb_true_iff in Hh as [Hx Hh]. apply negb_true_iff in Hx.
    rewrite Hx. by apply IH.
Qed.

(** X7. In a browser, when no base is given, the [href] of the document's
    [<base>] element is used without its origin: for an [href] made of
    [http://] or [https://], a host and a path, the result is the one for
    the path alone. Outside a browser, and in a browser without a [<base
    href>], the result is the empty string. *)
Theorem normalizeBase_of_document (host path : string) :
  host <> EmptyString ->
  slash_free host = true ->
  path = EmptyString \/ starts_with_slash path = true ->
  normalizeBase true (Some (Some ("http://" +:+ host +:+ path))) None
    = strip_trailing_slash (if starts_with_slash path then path else String slash path)
  /\ normalizeBase true (Some (Some ("https://" +:+ host +:+ path))) None
    = strip_trailing_slash (if starts_with_slash path then path else String slash path)
  /\ (forall baseEl, normalizeBase false baseEl None = EmptyString)
  /\ normalizeBase true None None = EmptyString
  /\ normalizeBase true (Some None) None = EmptyString.
Proof.
  intros Hne Hh Hp.
  assert (strip_origin ("http://" +:+ host +:+ path) = path
          /\ strip_origin ("https://" +:+ host +:+ path) = path) as [H1 H2].
  { destruct host as [|x host]; [done|].
    simpl in Hh. apply andb_true_iff in Hh as [Hx Hh]. apply negb_true_iff in Hx.
    unfold strip_origin. simpl. rewrite Hx.
    split; by apply drop_non_slash_host. }
  assert (forall h, h <> EmptyString ->
            normalizeBase true (Some (Some h)) None
            = strip_trailing_slash (if negb (starts_with_slash (strip_origin h))
                                    then String slash (strip_origin h) else strip_origin h))
    as Hdoc.
  { intros [|x h] Hx; [done|reflexivity]. }
  split; [|split; [|split; [|split]]]; try done.
  - rewrite Hdoc by done. rewrite H1. by destruct (starts_with_slash path).
  - rewrite Hdoc by done. rewrite H2. by destruct (starts_with_slash path).
Qed.

Lemma normalizeBase_of_document_witness :
  normalizeBase true (Some (Some "https://example.com/app/")) None = "/app".
Proof.
  destruct (normalizeBase_of_document "example.com" "/app/") as (_ & H & _).
  - done.
  - vm_compute. reflexivity.
  - right. vm_compute. reflexivity.
  - exact H.
Defined.

(** ** The constructor *)

(** X8. Which history the constructor builds. Outside a browser it calls the
    constructor of AbstractHistory whatever the options are (also for a mode
    that is not one of the three). In a browser, an HTML5History is built
    only when the mode ['history'] was asked for and [pushState] is
    supported or the fallback was refused with [fallback: false]; a
    HashHistory is built with [fallback] true exactly when ['history'] was
    asked for, is not supported and the fallback was not refused, and
    without fallback only for an absent, empty or ['hash'] mode. A mode
    that is none of the three, in a browser, fails the assertion
    [invalid mode] outside production, and in production leaves the router
    without history; these are the only ways to either end. *)
Theorem construct_history (production supportsPushState inBrowser : bool) (o : RouterOptions) :
  let c := construct production supportsPushState inBrowser o in
  let invalid m := opt_mode o = Some m /\ m <> EmptyString /\ m <> "history"
                   /\ m <> "hash" /\ m <> "abstract" in
  (inBrowser = false ->
     exists r, c = Built r /\ rs_mode r = "abstract"
               /\ rs_history r = AbstractHistory (opt_base o))
  /\ (forall r b, c = Built r -> rs_history r = HTML5History b ->
        inBrowser = true /\ opt_mode o = Some "history"
        /\ (supportsPushState = true \/ opt_fallback_is_false o = true))
  /\ (forall b, (exists r, c = Built r /\ rs_history r = HashHistory b true) <->
        b = opt_base o /\ inBrowser = true /\ opt_mode o = Some "history"
        /\ supportsPushState = false /\ opt_fallback_is_false o = false)
  /\ (forall r b, c = Built r -> rs_history r = HashHistory b false ->
        inBrowser = true
        /\ (opt_mode o = None \/ opt_mode o = Some EmptyString \/ opt_mode o = Some "hash"))
  /\ ((exists r, c = Built r /\ rs_history r = NoHistory) <->
        production = true /\ inBrowser = true /\ exists m, invalid m)
  /\ (forall message, c = AssertionFails message <->
        production = false /\ inBrowser = true
        /\ exists m, invalid m /\ message = "invalid mode: " +:+ m).
Proof.
  intros c invalid. subst c invalid. unfold construct.
  set (mode0 := match opt_mode o with Some (String c s) => String c s | _ => "hash" end).
  assert ((opt_mode o = None /\ mode0 = "hash") \/ (opt_mode o = Some EmptyString /\ mode0 = "hash")
          \/ (opt_mode o = Some mode0 /\ mode0 <> EmptyString)) as Hmode.
  { subst mode0. destruct (opt_mode o) as [[|c s]|]; auto. }
  clearbody mode0.
  destruct (String.eqb mode0 "history") eqn:Hh;
    [apply String.eqb_eq in Hh; subst mode0|apply String.eqb_neq in Hh].
  - destruct production, inBrowser, supportsPushState, (opt_fallback_is_false o); simpl;
      naive_solver.
  - simpl.
    destruct (String.eqb mode0 "hash") eqn:Hha;
      [apply String.eqb_eq in Hha; subst mode0|apply String.eqb_neq in Hha].
    + destruct production, inBrowser; simpl; naive_solver.
    + destruct (String.eqb mode0 "abstract") eqn:Hab;
        [apply String.eqb_eq in Hab; subst mode0|apply String.eqb_neq in Hab].
      * destruct production, inBrowser; simpl; naive_solver.
      * destruct inBrowser; simpl; [|destruct production; naive_solver].
        rewrite (proj2 (String.eqb_neq _ _) Hh), (proj2 (String.eqb_neq _ _) Hha),
          (proj2 (String.eqb_neq _ _) Hab).
        destruct production; simpl; naive_solver.
Qed.

(** ** The href of a link *)

(** X9. With an empty base the href of a route is its full path, after a
    ['#'] in hash mode, and [cleanPath] is not applied to it: that is the
    case of a router without [base] option outside a browser or in a
    document without [<base href>], and of the base ['/']. With any other
    base the href is [cleanPath] of the base, a ['/'] and that path. *)
Theorem createHref_of_base (cleanPath : string -> string) (fullPath mode : string) :
  let path := if String.eqb mode "hash" then String Href.hash_sign fullPath else fullPath in
  (forall baseEl, createHref cleanPath (normalizeBase false baseEl None) fullPath mode = path)
  /\ createHref cleanPath (normalizeBase true None None) fullPath mode = path
  /\ (forall inBrowser baseEl,
        createHref cleanPath
          (normalizeBase inBrowser baseEl (Some (String slash EmptyString))) fullPath mode
        = path)
  /\ (forall inBrowser baseEl c s,
        starts_with_slash (String c s) = true -> ends_with_slash (String c s) = false ->
        createHref cleanPath (normalizeBase inBrowser baseEl (Some (String c s))) fullPath mode
        = cleanPath (String c s +:+ String slash path)).
Proof.
  intros path. split; [done|]. split; [done|]. split; [done|].
  intros inBrowser baseEl c s Hs He. unfold normalizeBase. rewrite Hs. cbn [negb]. cbv iota.
  by rewrite (proj2 (strip_trailing_slash_fixed (String c s)) He).
Qed.

(** ** The link component *)

(** X10. [guardEvent] accepts an event exactly when no meta, alt, control or
    shift key is held, the default was not prevented before, the button is
    the main one or unknown, and the current target (when it can be asked)
    has no [target] attribute with the word [_blank]. It calls
    [preventDefault] only on an event that it accepts (and then whenever
    the event has the method), so a refused event keeps its default action,
    and the handler of the link leaves the router as it is. A [target]
    attribute that is [_blank] in any letter case is refused; an element
    without the attribute is not. *)
Theorem guardEvent_accepts (e : DomEvent) :
  ((guardEvent e).1 = true <->
     metaKey e = false /\ altKey e = false /\ ctrlKey e = false /\ shiftKey e = false
     /\ defaultPrevented e = false
     /\ (button e = None \/ button e = Some 0)
     /\ (forall t, currentTarget e = Some t -> has_getAttribute t = true ->
           test_blank (target_attribute t) = false))
  /\ (guardEvent e).2 = (guardEvent e).1 && has_preventDefault e
  /\ (forall rm sr replace_prop location m,
        (guardEvent e).1 = false ->
        link_handler rm sr replace_prop location e m = (m, false))
  /\ test_blank None = false
  /\ (forall s, strip_prefix_ci "_blank" s = Some EmptyString -> test_blank (Some s) = true).
Proof.
  split; [|split; [|split; [|split]]].
  - unfold guardEvent.
    destruct (metaKey e), (altKey e), (ctrlKey e), (shiftKey e), (defaultPrevented e);
      simpl; try naive_solver.
    destruct (button e) as [[|b]|]; simpl; try naive_solver.
    all: destruct (currentTarget e) as [[[] tg]|]; simpl; try naive_solver.
    all: destruct (test_blank tg) eqn:Ht; simpl; naive_solver.
  - unfold guardEvent. by repeat case_match.
  - intros rm sr rp loc m. unfold link_handler.
    assert ((guardEvent e).2 = (guardEvent e).1 && has_preventDefault e) as H2.
    { unfold guardEvent. by repeat case_match. }
    destruct (guardEvent e) as [ok pr]. simpl in *. intros ->. by subst pr.
  - vm_compute. reflexivity.
  - intros s Hs. unfold test_blank. simpl. destruct s as [|c s]; [done|].
    unfold blank_from. fold blank_from. unfold blank_here. by rewrite Hs.
Qed.

Lemma VNode_forest_ind (P : VNode -> Prop) :
  (forall id t, P (VN id t None)) ->
  (forall id t cs, Forall P cs -> P (VN id t (Some cs))) ->
  forall n, P n.
Proof.
  intros Hnone Hsome. fix IH 1. intros [id t [cs|]]; [|apply Hnone].
  apply Hsome. revert cs. fix IHl 1. intros [|c rest]; constructor; [apply IH|apply IHl].
Qed.

Lemma find_app {A} (p : A -> bool) l1 l2 :
  List.find p (l1 ++ l2) = match List.find p l1 with Some a => Some a | None => List.find p l2 end.
Proof. induction l1 as [|a l1 IH]; simpl; [done|]. by destruct (p a). Qed.

Lemma findAnchor_child_find n :
  findAnchor_child n = List.find is_anchor (document_order_node n).
Proof.
  induction n as [id t|id t cs IH] using VNode_forest_ind.
  - simpl. unfold is_anchor. simpl. by destruct t as [t|]; [destruct (String.eqb t "a")|].
  - simpl. destruct (is_anchor (VN id t (Some cs))); [done|].
    induction IH as [|c rest Hc _ IHrest]; [done|].
    rewrite find_app, <- Hc. destruct (findAnchor_child c); [done|]. apply IHrest.
Qed.

(** X11. [findAnchor] returns the first node with the tag ['a'] in document
    order (a node before its children, the children in order), and nothing
    exactly when no node of the forest is one, also for nodes whose
    [children] are [undefined] or empty. So the listeners and the [href]
    of a link whose tag is not ['a'] go to that first anchor, and to the
    link's own element, without [href], when there is none. *)
Theorem findAnchor_first_in_document_order (children : option (list VNode)) :
  findAnchor children = List.find is_anchor (document_order children)
  /\ (findAnchor children = None <->
      forall n, In n (document_order children) -> is_anchor n = false)
  /\ (forall tag, String.eqb tag "a" = false ->
        link_target tag children
        = match List.find is_anchor (document_order children) with
          | Some a => OnAnchor a
          | None => OnSelf false
          end).
Proof.
  assert (findAnchor children = List.find is_anchor (document_order children)) as Hf.
  { destruct children as [cs|]; [|done]. simpl.
    induction cs as [|c rest IH]; [done|]. simpl.
    rewrite find_app, <- findAnchor_child_find. destruct (findAnchor_child c); [done|apply IH]. }
  split; [exact Hf|]. split.
  - rewrite Hf. split.
    + intros Hnone n Hin. by apply (List.find_none _ _ Hnone).
    + intros Hall. destruct (List.find is_anchor (document_order children)) eqn:Hfind; [|done].
      apply List.find_some in Hfind as [Hin Ha]. by rewrite (Hall _ Hin) in Ha.
  - intros tag Ht. unfold link_target. by rewrite Ht, Hf.
Qed.




(** ** The view component *)

(** X14. What a view's [registerRouteInstance] does to the slot of its name.
    After a registration the slot holds the component. An unregistration
    empties the slot only when the slot still holds the component that
    unregisters: when another component has taken the slot in the
    meantime, or the slot is empty, nothing changes, so a component that is
    destroyed late does not remove its successor. The other slots are
    never touched. *)
Theorem registerRouteInstance_slot (name : string) (vm : Instance)
    (instances : gmap string Instance) :
  (exists x, registerRouteInstance name vm (Some vm) instances !! name = Some x
             /\ inst_id x = inst_id vm)
  /\ registerRouteInstance name vm None (registerRouteInstance name vm (Some vm) instances)
       !! name = None
  /\ ((forall c, instances !! name = Some c -> inst_id c <> inst_id vm) ->
      registerRouteInstance name vm None instances = instances)
  /\ (forall old, inst_id old <> inst_id vm ->
        exists x,
          registerRouteInstance name old None
            (registerRouteInstance name vm (Some vm) instances) !! name = Some x
          /\ inst_id x = inst_id vm)
  /\ (forall k val, k <> name ->
        registerRouteInstance name vm val instances !! k = instances !! k).
Proof.
  assert (forall i : Instance, Nat.eqb (inst_id i) (inst_id i) = true) as Hrefl
    by (intros; apply Nat.eqb_refl).
  assert (forall c, instances !! name = Some c -> Nat.eqb (inst_id c) (inst_id vm) = true ->
            registerRouteInstance name vm (Some vm) instances = instances) as Hsame.
  { intros c Hc He. unfold registerRouteInstance. by rewrite Hc, He. }
  assert (forall c, instances !! name = Some c -> Nat.eqb (inst_id c) (inst_id vm) = false ->
            registerRouteInstance name vm (Some vm) instances = <[name := vm]> instances)
    as Hother.
  { intros c Hc He. unfold registerRouteInstance. by rewrite Hc, He. }
  assert (instances !! name = None ->
            registerRouteInstance name vm (Some vm) instances = <[name := vm]> instances)
    as Hempty.
  { intros Hc. unfold registerRouteInstance. by rewrite Hc. }
  assert (forall (who : Instance) (m : gmap string Instance) x,
            m !! name = Some x ->
            registerRouteInstance name who None m
            = if Nat.eqb (inst_id x) (inst_id who) then delete name m else m) as Hun.
  { intros who m x Hx. unfold registerRouteInstance. by rewrite Hx. }
  split; [|split; [|split; [|split]]].
  - destruct (instances !! name) as [c|] eqn:Hc.
    + destruct (Nat.eqb (inst_id c) (inst_id vm)) eqn:He.
      * rewrite (Hsame c) by done. exists c. split; [done|]. by apply Nat.eqb_eq.
      * rewrite (Hother c) by done. exists vm. by rewrite lookup_insert_eq.
    + rewrite Hempty by done. exists vm. by rewrite lookup_insert_eq.
  - destruct (instances !! name) as [c|] eqn:Hc.
    + destruct (Nat.eqb (inst_id c) (inst_id vm)) eqn:He.
      * rewrite (Hsame c) by done. rewrite (Hun vm _ c Hc), He. apply lookup_delete_eq.
      * rewrite (Hother c) by done.
        rewrite (Hun vm _ vm) by apply lookup_insert_eq. rewrite Hrefl. apply lookup_delete_eq.
    + rewrite Hempty by done.
      rewrite (Hun vm _ vm) by apply lookup_insert_eq. rewrite Hrefl. apply lookup_delete_eq.
  - intros Hno. unfold registerRouteInstance.
    destruct (instances !! name) as [c|] eqn:Hc; [|done].
    destruct (Nat.eqb (inst_id c) (inst_id vm)) eqn:He; [|done].
    apply Nat.eqb_eq in He. by destruct (Hno c).
  - intros old Hne.
    assert (forall x, inst_id x = inst_id vm -> Nat.eqb (inst_id x) (inst_id old) = false) as Hvo.
    { intros x Hx. apply Nat.eqb_neq. lia. }
    destruct (instances !! name) as [c|] eqn:Hc.
    + destruct (Nat.eqb (inst_id c) (inst_id vm)) eqn:He.
      * rewrite (Hsame c) by done. apply Nat.eqb_eq in He.
        rewrite (Hun old _ c Hc), (Hvo c He). by exists c.
      * rewrite (Hother c) by done.
        rewrite (Hun old _ vm) by apply lookup_insert_eq. rewrite (Hvo vm eq_refl).
        exists vm. by rewrite lookup_insert_eq.
    + rewrite Hempty by done.
      rewrite (Hun old _ vm) by apply lookup_insert_eq. rewrite (Hvo vm eq_refl).
      exists vm. by rewrite lookup_insert_eq.
  - intros k val Hk. unfold registerRouteInstance.
    destruct val; repeat case_match; try done.
    all: first [by rewrite lookup_insert_ne|by rewrite lookup_delete_ne].
Qed.

(** X15. The props that a view passes on are split by the test
    [key in component.props]: a prop for which it holds stays in the props,
    every other one is moved to the attributes, where it replaces an
    attribute of the same name; the attributes of other names are kept. A
    component without [props] gets all of them as attributes. The test is
    the operator's: a prop named like a property that the declaration
    inherits (['constructor'], ['toString']) stays in the props, and with
    props declared by an array of names, a prop named by one of its
    elements is moved to the attributes. *)
Theorem pass_props_split {A} (props : option (string -> bool))
    (propsToPass attrs : gmap string A) (k : string) :
  (pass_props props propsToPass attrs).1 !! k
    = (if is_declared props k then propsToPass !! k else None)
  /\ (pass_props props propsToPass attrs).2 !! k
    = (if is_declared props k then attrs !! k
       else match propsToPass !! k with
            | Some v => Some v
            | None => attrs !! k
            end).
Proof.
  unfold pass_props.
  assert (forall m : gmap string A,
            (map_fold (pass_prop props) (propsToPass, attrs) m).1 !! k
              = (if is_declared props k then propsToPass !! k
                 else match m !! k with Some _ => None | None => propsToPass !! k end)
            /\ (map_fold (pass_prop props) (propsToPass, attrs) m).2 !! k
              = (if is_declared props k then attrs !! k
                 else match m !! k with Some v => Some v | None => attrs !! k end)) as H.
  { intros m. induction m as [|i x m Hi Hfold IH] using map_first_key_ind.
    - rewrite map_fold_empty. simpl. rewrite lookup_empty. by destruct (is_declared props k).
    - rewrite map_fold_insert_first_key by done.
      destruct IH as [IH1 IH2]. unfold pass_prop at 1 3.
      destruct (decide (k = i)) as [->|Hne].
      + rewrite lookup_insert_eq. rewrite Hi in IH1, IH2.
        destruct (is_declared props i) eqn:Hd; simpl; [done|].
        by rewrite lookup_delete_eq, lookup_insert_eq.
      + rewrite lookup_insert_ne by done.
        destruct (is_declared props i); simpl; [done|].
        by rewrite lookup_delete_ne, lookup_insert_ne. }
  destruct (H propsToPass) as [H1 H2]. rewrite H1, H2.
  by destruct (is_declared props k), (propsToPass !! k).
Qed.

(** ** The installation *)

Lemma beforeCreate_fields_other this c st k :
  k <> this -> fields (beforeCreate this c st) !! k = fields st !! k.
Proof.
  intros Hk. unfold beforeCreate. destruct (options_router c); simpl; by rewrite lookup_insert_ne.
Qed.

Lemma create_chain_fields_other p chain st k :
  k ∉ chain -> fields (create_chain p chain st) !! k = fields st !! k.
Proof.
  revert p st. induction chain as [|this rest IH]; intros p st Hk; [done|]. simpl.
  rewrite IH by (intros ?; apply Hk; by right).
  apply beforeCreate_fields_other. intros ->. apply Hk. by left.
Qed.

Lemma create_chain_calls p chain st :
  install_calls (create_chain p chain st) = install_calls st ++ map EvRegisterInstance chain.
Proof.
  revert p st. induction chain as [|this rest IH]; intros p st; simpl; [by rewrite app_nil_r|].
  rewrite IH. simpl. by rewrite <- app_assoc.
Qed.

Lemma create_chain_root p root chain st :
  NoDup (p :: chain) ->
  (fields st !! p) ≫= _routerRoot = Some root ->
  forall vm, vm ∈ chain ->
    (fields (create_chain p chain st) !! vm) ≫= _routerRoot = Some root.
Proof.
  revert p st. induction chain as [|this rest IH]; intros p st Hnd Hp vm Hin.
  { by apply elem_of_nil in Hin. }
  apply NoDup_cons in Hnd as [Hp_notin Hnd]. pose proof Hnd as Hnd'.
  apply NoDup_cons in Hnd' as [Hthis Hrest].
  set (st1 := beforeCreate this {| options_router := None; parent := Some p |} st).
  assert ((fields st1 !! this) ≫= _routerRoot = Some root) as Hthis_root.
  { subst st1. unfold beforeCreate. simpl. rewrite Hp. by rewrite lookup_insert_eq. }
  simpl. fold st1. apply elem_of_cons in Hin as [->|Hin].
  - rewrite create_chain_fields_other by done. exact Hthis_root.
  - by apply (IH this st1).
Qed.

(** X16. The router of the components below the one that was created with
    the [router] option. When the components of a chain are created one
    after the other, each as the child of the one before and none with a
    [router] option of its own, [$router] is the root's router in every one
    of them, [init] is called once, for the root, and every component is
    registered once. Without any [router] option, [$router] is [undefined]
    in all of them and nothing raises. *)
Theorem dollar_router_of_descendants (root : nat) (chain : list nat) (r : option nat)
    (p : option nat) (st : Components) :
  NoDup (root :: chain) ->
  (r = None -> p = None /\ fields st !! root = None) ->
  let st' := create_chain root chain
               (beforeCreate root {| options_router := r; parent := p |} st) in
  (forall vm, vm ∈ root :: chain -> dollar_router vm st' = Some r)
  /\ install_calls st'
     = install_calls st
       ++ match r with
          | Some r => [EvInit r root; EvDefineReactive root r]
          | None => []
          end
       ++ map EvRegisterInstance (root :: chain).
Proof.
  intros Hnd Hnone st'.
  set (st0 := beforeCreate root {| options_router := r; parent := p |} st).
  assert (Hroot : root ∉ chain) by (by apply NoDup_cons in Hnd as [? _]).
  assert (fields st0 !! root
          = Some {| _routerRoot := Some root; _router := r |}) as Hst0.
  { subst st0. unfold beforeCreate. destruct r as [r|]; simpl.
    - by rewrite lookup_insert_eq.
    - destruct (Hnone eq_refl) as [-> Hf]. simpl. by rewrite lookup_insert_eq, Hf. }
  assert (fields st' !! root = Some {| _routerRoot := Some root; _router := r |}) as Hst'.
  { subst st'. fold st0. by rewrite create_chain_fields_other. }
  split.
  - intros vm Hin. unfold dollar_router.
    assert ((fields st' !! vm) ≫= _routerRoot = Some root) as ->.
    { apply elem_of_cons in Hin as [->|Hin]; [by rewrite Hst'|].
      subst st'. fold st0. apply create_chain_root; [done| |done]. by rewrite Hst0. }
    by rewrite Hst'.
  - subst st'. fold st0. rewrite create_chain_calls. subst st0. unfold beforeCreate.
    destruct r as [r|]; simpl; by rewrite <- !app_assoc.
Qed.

Lemma dollar_router_of_descendants_witness :
  dollar_router 3
    (create_chain 1 [2; 3]
       (beforeCreate 1 {| options_router := Some 7; parent := None |}
          {| fields := ∅; install_calls := [] |}))
  = Some (Some 7).
Proof.
  refine (proj1 (dollar_router_of_descendants 1 [2; 3] (Some 7) None
                   {| fields := ∅; install_calls := [] |} _ _) 3 _).
  - repeat constructor; set_solver.
  - done.
  - set_solver.
Defined.

(** ** Navigations in which every guard confirms *)





















(** ** A guard that throws *)

Lemma abort_log oa err m :
  log (abort oa err m) = log m ++ abort_calls oa err (history m)
  /\ history (abort oa err m)
     = (if truthy err && negb (ready (history m)) then set_ready true (history m)
        else history m)
  /\ router (abort oa err m) = router m
  /\ location_hash (abort oa err m) = location_hash m
  /\ next_ref (abort oa err m) = next_ref m
  /\ control (abort oa err m) = control m
  /\ suspended (abort oa err m) = suspended m.
Proof.
  unfold abort, transition_aborted, abort_calls.
  destruct (isError err); [destruct (errorCbs (history m)) as [|c cbs] eqn:Hcbs|].
  all: destruct oa as [f|]; simpl; rewrite ?Hcbs; simpl.
  all: destruct (truthy err && negb (ready (history m))); simpl.
  all: rewrite <- ?app_assoc, ?app_nil_r; simpl; done.
Qed.

(** X17. A guard that throws ends its navigation there. The calls that
    follow the guard's are, in this order: for an error value every error
    listener in registration order (the report of an uncaught error when
    none is registered), and none of them for a value that is not an error;
    then the [onAbort] of the navigation with the thrown value; then, when
    the value is truthy and the controller was not ready yet, the
    ready-error callbacks. No further guard is called, the queue is not
    continued, and the current route, the pending route and the address
    are left as they are. *)
Theorem guard_throws rm sr bh (tr : Transition) (ph : Phase)
    (queue : list (option QueueItem)) (index : nat) (hook : QueueItem) (e : Value)
    (m : Machine) :
  pending_is_not (pending (history m)) (t_route tr) = false ->
  bh hook (t_route tr) (t_current tr) = Throws e ->
  let m' := iterator rm sr bh tr ph queue index hook m in
  log m' = log m ++ EvGuard hook (t_route tr) (t_current tr)
                    :: abort_calls (t_onAbort tr) e (history m)
  /\ control m' = control m
  /\ suspended m' = suspended m
  /\ current (history m') = current (history m)
  /\ pending (history m') = pending (history m)
  /\ location_hash m' = location_hash m
  /\ ready (history m') = ready (history m) || truthy e.
Proof.
  intros Hp Hb m'. subst m'. unfold iterator. rewrite Hp, Hb.
  destruct (abort_log (t_onAbort tr) e
              (emit [EvGuard hook (t_route tr) (t_current tr)] m))
    as (Hl & Hh & _ & Hlh & _ & Hc & Hs).
  rewrite Hl, Hh, Hc, Hs, Hlh. simpl. rewrite <- app_assoc. simpl.
  repeat split; try done.
  all: destruct (truthy e), (ready (history m)) eqn:Hr; simpl; by rewrite ?Hr.
Qed.

Lemma guard_throws_witness :
  let tr := {| t_route := ex_route_two; t_current := current (history ex_at_home);
               t_activated := [ex_two]; t_onComplete := None; t_onAbort := Some 5 |} in
  let m := with_history (set_pending (Some ex_route_two)) ex_at_home in
  log (iterator ex_match_two ex_same ex_throw tr PreResolve [Some (UserGuard 1)] 0
         (UserGuard 1) m)
  = log m ++ [EvGuard (UserGuard 1) ex_route_two (current (history ex_at_home));
              EvUncaught (VError "boom"); EvOnAbort 5 (VError "boom")].
Proof.
  intros tr m.
  refine (eq_trans (proj1 (guard_throws ex_match_two ex_same ex_throw tr PreResolve
                             [Some (UserGuard 1)] 0 (UserGuard 1) (VError "boom") m _ _)) _).
  - vm_compute. reflexivity.
  - vm_compute. reflexivity.
  - vm_compute. reflexivity.
Defined.

(** ** The whole pipeline *)









(** ** A guard that refuses or redirects *)

(** X20. A guard that hands [false] or an error value to its continuation
    before it returns ends its navigation. The continuation first reads
    the address. When its hash can be decoded, the address is set back to
    the current route, with a new history entry, if the decoded hash is
    something else; then come the calls of an abort with the guard's
    value: the error listeners for an error value, the [onAbort] of the
    navigation, the ready-error callbacks of a controller that was not
    ready; for [false] only [onAbort] is called and the controller does
    not become ready. When the hash cannot be decoded, the URIError is
    caught by the iterator and the navigation is aborted with it instead:
    nothing is written to the address, the error listeners are called and
    the controller becomes ready. In both cases the queue is not
    continued, and the current and the pending route are left as they
    are. *)
Theorem guard_refuses (decodeURI : string -> option string) (href : string) rm sr bh
    (tr : Transition) (ph : Phase)
    (queue : list (option QueueItem)) (index : nat) (hook : QueueItem) (to : Value)
    (m : Machine) :
  pending_is_not (pending (history m)) (t_route tr) = false ->
  bh hook (t_route tr) (t_current tr) = Calls to ->
  is_false to || isError to = true ->
  let m' := Address.iterator decodeURI href rm sr bh tr ph queue index hook m in
  let shown := fullPath (route_data (current (history m))) in
  let call := EvGuard hook (t_route tr) (t_current tr) in
  match Href.getHash decodeURI href with
  | Some hash =>
      log m' = log m ++ call :: (if String.eqb hash shown then [] else [EvPushHash shown])
                              ++ abort_calls (t_onAbort tr) to (history m)
      /\ ready (history m') = ready (history m) || truthy to
  | None =>
      log m' = log m ++ call :: abort_calls (t_onAbort tr) uri_error (history m)
      /\ ready (history m') = true
  end
  /\ (to = VBool false ->
      abort_calls (t_onAbort tr) to (history m)
      = match t_onAbort tr with Some f => [EvOnAbort f to] | None => [] end)
  /\ control m' = control m
  /\ suspended m' = suspended m
  /\ current (history m') = current (history m)
  /\ pending (history m') = pending (history m).
Proof.
  intros Hp Hb Hto m' shown call. subst m' call. unfold Address.iterator. rewrite Hp, Hb.
  set (call := EvGuard hook (t_route tr) (t_current tr)).
  set (m0 := emit [call] m).
  assert (Address.guard_continues decodeURI href rm sr true tr ph queue index hook to m0
          = match Href.getHash decodeURI href with
            | Some hash =>
                abort (t_onAbort tr) to
                  (if String.eqb hash shown then m0 else emit [EvPushHash shown] m0)
            | None => abort (t_onAbort tr) uri_error m0
            end) as ->.
  { assert (Address.resolution decodeURI href rm sr true tr ph queue index to m0
            = match Href.getHash decodeURI href with
              | Some hash =>
                  abort (t_onAbort tr) to
                    (if String.eqb hash shown then m0 else emit [EvPushHash shown] m0)
              | None => abort (t_onAbort tr) uri_error m0
              end) as Hres.
    { unfold Address.resolution, Address.ensureURL. rewrite Hto. subst m0 shown. simpl.
      destruct (Href.getHash decodeURI href) as [hash|]; [|done].
      by destruct (String.eqb hash _). }
    unfold Address.guard_continues. destruct hook; try exact Hres.
    destruct to; try exact Hres. done. }
  assert (forall evs err,
            let m1 := abort (t_onAbort tr) err (emit evs m0) in
            log m1 = log m ++ call :: evs ++ abort_calls (t_onAbort tr) err (history m)
            /\ ready (history m1) = ready (history m) || truthy err
            /\ control m1 = control m /\ suspended m1 = suspended m
            /\ current (history m1) = current (history m)
            /\ pending (history m1) = pending (history m)) as Habort.
  { intros evs err m1. subst m1.
    destruct (abort_log (t_onAbort tr) err (emit evs m0)) as (Hl & Hh & _ & _ & _ & Hc & Hs).
    rewrite Hl, Hh, Hc, Hs. subst m0. simpl. rewrite <- !app_assoc. simpl.
    repeat split; try done.
    all: destruct (truthy err), (ready (history m)) eqn:Hr; simpl; by rewrite ?Hr. }
  assert (emit [] m0 = m0) as Hnil.
  { subst m0. unfold emit. simpl. by rewrite app_nil_r. }
  assert (to = VBool false ->
          abort_calls (t_onAbort tr) to (history m)
          = match t_onAbort tr with Some f => [EvOnAbort f to] | None => [] end) as Hfalse.
  { intros ->. unfold abort_calls. simpl. by rewrite app_nil_r. }
  destruct (Href.getHash decodeURI href) as [hash|].
  - destruct (String.eqb hash shown).
    + rewrite <- Hnil at 1 2 3 4 5 6.
      destruct (Habort [] to) as (H1 & H2 & H3 & H4 & H5 & H6). simpl in *. done.
    + destruct (Habort [EvPushHash shown] to) as (H1 & H2 & H3 & H4 & H5 & H6).
      simpl in *. done.
  - rewrite <- Hnil at 1 2 3 4 5 6.
    destruct (Habort [] uri_error) as (H1 & H2 & H3 & H4 & H5 & H6). simpl in *.
    rewrite orb_true_r in H2. done.
Qed.

Lemma guard_refuses_witness :
  let tr := {| t_route := ex_route_two; t_current := current (history ex_at_home);
               t_activated := [ex_two]; t_onComplete := None; t_onAbort := Some 5 |} in
  let m := with_history (set_pending (Some ex_route_two)) ex_at_home in
  log (Address.iterator ex_decodeURI "http://host/#/%" ex_match_two ex_same ex_refuse
         tr PreResolve [Some (UserGuard 1)] 0 (UserGuard 1) m)
  = log m ++ [EvGuard (UserGuard 1) ex_route_two (current (history ex_at_home));
              EvUncaught uri_error; EvOnAbort 5 uri_error].
Proof.
  intros tr m.
  refine (eq_trans (proj1 (proj1 (guard_refuses ex_decodeURI "http://host/#/%"
                             ex_match_two ex_same ex_refuse tr PreResolve
                             [Some (UserGuard 1)] 0 (UserGuard 1) (VBool false) m _ _ _))) _).
  - vm_compute. reflexivity.
  - vm_compute. reflexivity.
  - vm_compute. reflexivity.
  - vm_compute. reflexivity.
Defined.



(** ** The address as hash.js reads it *)

(** An address with a hash: [getHash] decodes what follows the first ['#']. *)
Lemma getHash_of_hash decodeURI (base text : string) :
  Href.indexOf Href.hash_sign base = None ->
  Href.getHash decodeURI (base +:+ String Href.hash_sign text) = decodeURI text.
Proof.
  intros Hb. unfold Href.getHash.
  assert (Href.indexOf Href.hash_sign (base +:+ String Href.hash_sign text)
          = Some (String.length base)
          /\ Href.slice_from (S (String.length base)) (base +:+ String Href.hash_sign text)
             = text) as [-> ->]; [|done].
  induction base as [|c base IH]; simpl in *.
  - done.
  - destruct (Ascii.eqb c Href.hash_sign); [done|].
    destruct (Href.indexOf Href.hash_sign base); [done|].
    destruct (IH eq_refl) as [-> ->]. done.
Qed.

(** The address in the state of the controller is the one that hash.js
    reads when [decodeURI] returns every path as it is: [ensureURL] then
    makes the same calls. *)
Lemma ensureURL_of_state (push : bool) (m : Machine) :
  exists m',
    Address.ensureURL Some (String Href.hash_sign (location_hash m)) push m = Some m'
    /\ log m' = log (ensureURL push m)
    /\ history m' = history (ensureURL push m)
    /\ control m' = control (ensureURL push m)
    /\ suspended m' = suspended (ensureURL push m).
Proof.
  unfold Address.ensureURL, ensureURL, getHash.
  change (String Href.hash_sign (location_hash m))
    with (EmptyString +:+ String Href.hash_sign (location_hash m)).
  rewrite (getHash_of_hash Some EmptyString (location_hash m) eq_refl).
  destruct (String.eqb _ _); [by eexists|].
  destruct push; by eexists.
Qed.

(** C5. When the candidate route is the same as the current one for
    [isSameRoute] and the two matched sequences have the same length,
    [confirmTransition] first reads the address, in [ensureURL]. For an
    address whose hash [decodeURI] accepts it replaces the address by the
    current route's [fullPath] when the decoded hash differs from it, and
    then calls the [onAbort] of this call with no error; it calls nothing
    else (no guard, no error listener), queues nothing and leaves the
    controller as it was. For an address whose hash [decodeURI] rejects,
    the URIError leaves [confirmTransition] before [abort] is reached: the
    address is not synchronized and [onAbort] is not called. *)
Theorem no_op_raises_for_an_undecodable_address (decodeURI : string -> option string)
    (href : string) isSameRoute route (oc : option OnComplete) (oa : option FnId)
    (m : Machine) :
  isSameRoute route (current (history m)) = true ->
  length (matched (route_data route)) = length (matched (route_data (current (history m)))) ->
  let url := fullPath (route_data (current (history m))) in
  match Href.getHash decodeURI href with
  | None =>
      Address.confirmTransition decodeURI href isSameRoute route oc oa m
      = Raises uri_error m
  | Some hash =>
      exists m',
        Address.confirmTransition decodeURI href isSameRoute route oc oa m = Returns m'
        /\ log m' = log m
                    ++ (if String.eqb hash url then [] else [EvReplaceHash url])
                    ++ from_option (fun f => [EvOnAbort f VUndefined]) [] oa
        /\ history m' = history m
        /\ control m' = control m
        /\ suspended m' = suspended m
  end.
Proof.
  intros Hsame Hlen url. unfold Address.confirmTransition, Address.ensureURL.
  rewrite Hsame, Hlen, Nat.eqb_refl. simpl. fold url.
  destruct (Href.getHash decodeURI href) as [hash|]; [|done].
  unfold abort, transition_aborted.
  destruct (String.eqb hash url), oa; simpl; eexists; (split; [reflexivity|]); simpl;
    rewrite <- ?app_assoc, ?app_nil_r; done.
Qed.

Lemma no_op_raises_for_an_undecodable_address_witness :
  Address.confirmTransition ex_decodeURI "http://host/#/%" ex_same
    (current (history ex_at_home)) None (Some 5) ex_at_home
  = Raises uri_error ex_at_home.
Proof.
  exact (no_op_raises_for_an_undecodable_address ex_decodeURI "http://host/#/%" ex_same
           (current (history ex_at_home)) None (Some 5) ex_at_home eq_refl eq_refl).
Defined.

(** ** The post-enter callbacks *)


(** *** Calls that poll nothing *)




























(** *** The invariant *)










(** *** Where a callback that is called comes from *)










(** ** The initialisation *)

Lemma keeps_listener_refl m : keeps_listener m m.
Proof. split; [done|]. exists []. by rewrite app_nil_r. Qed.

Lemma keeps_listener_trans m m' m'' :
  keeps_listener m m' -> keeps_listener m' m'' -> keeps_listener m m''.
Proof.
  intros (Hc1 & e1 & Hl1 & Hn1) (Hc2 & e2 & Hl2 & Hn2). split; [congruence|].
  exists (e1 ++ e2). split; [by rewrite Hl2, Hl1, app_assoc|].
  intros Hnone. rewrite forallb_app, Hn1 by done. apply Hn2. congruence.
Qed.

Lemma keeps_listener_host m m' :
  cb (history m') = cb (history m) -> log m' = log m -> keeps_listener m m'.
Proof. intros Hc Hl. split; [done|]. exists []. by rewrite app_nil_r. Qed.

Lemma keeps_listener_emit evs m :
  forallb (fun ev => negb (is_listener_call ev)) evs = true -> keeps_listener m (emit evs m).
Proof. intros He. split; [done|]. by exists evs. Qed.

Lemma keeps_listener_emit_map {A} (g : A -> Event) l m :
  (forall a, is_listener_call (g a) = false) -> keeps_listener m (emit (map g l) m).
Proof.
  intros Hg. apply keeps_listener_emit. induction l as [|a l IH]; [done|]. simpl.
  by rewrite Hg, IH.
Qed.

Lemma abort_keeps_listener oa err m : keeps_listener m (abort oa err m).
Proof.
  destruct (abort_log oa err m) as (Hl & Hh & _). split.
  - rewrite Hh. by destruct (truthy err && negb (ready (history m))).
  - exists (abort_calls oa err (history m)). split; [done|]. intros _.
    unfold abort_calls. rewrite !forallb_app.
    assert (forall (g : FnId -> Event) l, (forall a, is_listener_call (g a) = false) ->
              forallb (fun ev => negb (is_listener_call ev)) (map g l) = true) as Hmap.
    { intros g l Hg. induction l as [|a l IH]; [done|]. simpl. by rewrite Hg, IH. }
    apply andb_true_iff. split; [|apply andb_true_iff; split].
    + destruct (isError err); [|done]. destruct (errorCbs (history m)); [done|].
      by apply (Hmap (fun c => EvErrorCb c err)).
    + by destruct oa.
    + destruct (truthy err && negb (ready (history m))); [|done].
      by apply (Hmap (fun c => EvReadyErrorCb c err)).
Qed.

Lemma ensureURL_keeps_listener b m : keeps_listener m (ensureURL b m).
Proof.
  unfold ensureURL. destruct (String.eqb _ _); [apply keeps_listener_refl|].
  destruct b; unfold pushHash, replaceHash;
    (eapply keeps_listener_trans; [|by apply keeps_listener_emit]);
    by apply keeps_listener_host.
Qed.

Lemma commit_keeps_listener tr m : keeps_listener m (commit tr m).
Proof.
  unfold commit, transition_completed.
  set (m0 := with_history (set_pending None) m).
  assert (keeps_listener m m0) as H0 by (by apply keeps_listener_host).
  assert (keeps_listener m0 (updateRoute (t_route tr) m0)) as H1.
  { split; [by rewrite updateRoute_history|].
    eexists. split; [apply updateRoute_log|]. intros Hnone. rewrite Hnone. simpl.
    generalize (present (afterHooks (router m))). intros l.
    induction l as [|a l IH]; [done|exact IH]. }
  set (m1 := updateRoute (t_route tr) m0) in *.
  assert (keeps_listener m1 (call_onComplete (t_onComplete tr) (t_route tr) m1)) as H2.
  { clearbody m1.
    destruct (t_onComplete tr) as [[f|from [f|]|from [f|]|cur [] []]|]; simpl;
      unfold pushHash, replaceHash;
      repeat first [ apply keeps_listener_refl
                   | by apply keeps_listener_host
                   | (eapply keeps_listener_trans; [|by apply keeps_listener_emit]) ]. }
  set (m2 := call_onComplete (t_onComplete tr) (t_route tr) m1) in *.
  pose proof (ensureURL_keeps_listener false m2) as H3.
  set (m3 := ensureURL false m2) in *.
  assert (keeps_listener m m3) as H.
  { eapply keeps_listener_trans; [exact H0|]. eapply keeps_listener_trans; [exact H1|].
    eapply keeps_listener_trans; [exact H2|exact H3]. }
  clearbody m3. clear H0 H1 H2 H3.
  assert (keeps_listener m (if negb (ready (history m3))
                            then emit (map (fun c => EvReadyCb c (t_route tr))
                                         (readyCbs (history (with_history (set_ready true) m3))))
                                   (with_history (set_ready true) m3)
                            else m3)) as H'.
  { destruct (negb _); [|done]. eapply keeps_listener_trans; [exact H|].
    eapply keeps_listener_trans; [|by apply keeps_listener_emit_map].
    by apply keeps_listener_host. }
  destruct (app _); [|done]. eapply keeps_listener_trans; [exact H'|].
  by apply keeps_listener_host.
Qed.

Lemma transitionTo_keeps_listener rm sr location oc oa m :
  keeps_listener m (transitionTo rm sr location oc oa m).
Proof.
  unfold transitionTo, confirmTransition.
  match goal with |- context [if ?c then _ else _] => destruct c end.
  - eapply keeps_listener_trans; [|apply abort_keeps_listener].
    eapply keeps_listener_trans; [|apply ensureURL_keeps_listener].
    by apply keeps_listener_host.
  - by apply keeps_listener_host.
Qed.

Lemma resolution_keeps_listener rm sr sync tr ph queue index to m :
  keeps_listener m (resolution rm sr sync tr ph queue index to m).
Proof.
  unfold resolution. destruct (is_false to || isError to).
  - eapply keeps_listener_trans; [apply ensureURL_keeps_listener|apply abort_keeps_listener].
  - match goal with |- context [match ?c with inl _ => _ | inr _ => _ end] =>
      destruct c as [e|[]] end.
    + destruct sync; [apply abort_keeps_listener|by apply keeps_listener_emit].
    + eapply keeps_listener_trans; [apply abort_keeps_listener|].
      destruct (asks_replace to); apply transitionTo_keeps_listener.
    + by apply keeps_listener_host.
Qed.

Lemma exec_keeps_listener rm sr bh f m : keeps_listener m (exec rm sr bh f m).
Proof.
  destruct f as [tr ph q i|tr f record key]; simpl; [|by apply keeps_listener_host].
  unfold step. destruct (q !! i) as [[hook|]|].
  - unfold iterator. destruct (pending_is_not _ _); [apply abort_keeps_listener|].
    eapply keeps_listener_trans;
      [by apply (keeps_listener_emit [EvGuard hook (t_route tr) (t_current tr)])|].
    destruct (bh hook (t_route tr) (t_current tr)) as [to|e|].
    + unfold guard_continues.
      destruct hook; try apply resolution_keeps_listener.
      destruct to; try apply resolution_keeps_listener.
      eapply keeps_listener_trans; [|apply resolution_keeps_listener].
      by apply keeps_listener_host.
    + apply abort_keeps_listener.
    + by apply keeps_listener_host.
  - by apply keeps_listener_host.
  - destruct ph.
    + by apply keeps_listener_host.
    + unfold post_resolve_done.
      destruct (pending_is_not _ _); [apply abort_keeps_listener|apply commit_keeps_listener].
Qed.

Lemma run_keeps_listener rm sr bh fuel :
  forall m m', run rm sr bh fuel m = Some m' -> keeps_listener m m'.
Proof.
  induction fuel as [|fuel IH]; intros m m'; simpl.
  - destruct (control m); [|done]. intros [= <-]. apply keeps_listener_refl.
  - destruct (control m) as [|f rest]; [intros [= <-]; apply keeps_listener_refl|].
    intros Hrun. eapply keeps_listener_trans; [|by apply IH].
    eapply keeps_listener_trans; [|apply exec_keeps_listener]. by apply keeps_listener_host.
Qed.

(** X22. [init] starts the first navigation before it registers the
    listener that writes the route to the apps. So on a router that has
    no app and no listener yet, whatever the synchronous part of the first
    navigation does, commit included, no listener is called during
    [init]; the listener is registered when [init] returns, the router
    has its app, and the app is recorded. A later [init] only records its
    app: it starts no navigation and leaves the history as it is. *)
Theorem init_registers_the_listener_last rm sr bh (fuel : nat) (app_ : nat)
    (setupHashListener listener : FnId) (v v' : VueRouter) :
  cb (history (vr_machine v)) = None ->
  init rm sr bh fuel app_ setupHashListener listener v = Some v' ->
  vr_apps v' = vr_apps v ++ [app_]
  /\ (app (router (vr_machine v)) = true -> vr_machine v' = vr_machine v)
  /\ (app (router (vr_machine v)) = false ->
      cb (history (vr_machine v')) = Some listener
      /\ exists evs,
           log (vr_machine v') = log (vr_machine v) ++ evs
           /\ forallb (fun ev => negb (is_listener_call ev)) evs = true).
Proof.
  intros Hcb. unfold init. destruct (app (router (vr_machine v))) eqn:Happ.
  - intros [= <-]. simpl. split; [done|]. by split.
  - set (m := with_router (set_app true) (vr_machine v)).
    destruct (run rm sr bh fuel _) as [m'|] eqn:Hrun; [|done].
    intros [= <-]. simpl. split; [done|]. split; [done|]. intros _. split; [done|].
    assert (keeps_listener (vr_machine v) m') as (_ & evs & Hl & Hn).
    { eapply keeps_listener_trans; [|eapply run_keeps_listener; exact Hrun].
      eapply keeps_listener_trans; [|apply transitionTo_keeps_listener].
      by apply keeps_listener_host. }
    exists evs. split; [done|]. by apply Hn.
Qed.

Lemma ex_initialised_run :
  init ex_match ex_same ex_confirm 20 1 50 51 ex_new_router = Some ex_initialised.
Proof. vm_compute. reflexivity. Qed.

Lemma init_registers_the_listener_last_witness :
  vr_apps ex_initialised = [1]
  /\ cb (history (vr_machine ex_initialised)) = Some 51
  /\ current (history (vr_machine ex_initialised)) <> START
  /\ exists evs,
       log (vr_machine ex_initialised) = log (vr_machine ex_new_router) ++ evs
       /\ forallb (fun ev => negb (is_listener_call ev)) evs = true.
Proof.
  destruct (init_registers_the_listener_last ex_match ex_same ex_confirm 20 1 50 51
              ex_new_router ex_initialised eq_refl ex_initialised_run) as (Ha & _ & H).
  destruct (H eq_refl) as (Hcb & Hev).
  split; [exact Ha|]. split; [exact Hcb|]. split; [|exact Hev].
  vm_compute. discriminate.
Defined.

(** ** Installing the plugin, and the listener of the address *)

Lemma install_remembers Vue st :
  installed (install Vue st).1 = true /\ _Vue (install Vue st).1 = Some Vue.
Proof.
  unfold install, defineProperty.
  destruct (installed st && bool_decide (_Vue st = Some Vue)) eqn:Hi.
  - apply andb_true_iff in Hi as [Hi Hv]. by apply bool_decide_eq_true_1 in Hv.
  - repeat case_bool_decide; done.
Qed.

Lemma install_applied Vue st : exists l, applied (install Vue st).1 = applied st ++ l.
Proof.
  unfold install, defineProperty.
  destruct (installed st && bool_decide (_Vue st = Some Vue)).
  - exists []. by rewrite app_nil_r.
  - repeat case_bool_decide; simpl; rewrite <- ?app_assoc; by eexists.
Qed.

Lemma install_defines Vue st :
  installed st = false -> DefineProperty Vue "$router" ∈ applied (install Vue st).1.
Proof.
  intros Hi. unfold install, defineProperty. rewrite Hi. simpl.
  repeat case_bool_decide; simpl; set_solver.
Qed.

(** X23. [install] remembers only the constructor it was last called with.
    Called again with that constructor it does nothing. A first call
    applies the mixin, defines [$router] and [$route], registers the two
    components and sets the merge strategies, in this order. But after a
    call with another constructor, a call with the first one is not
    recognised: it applies the mixin to it a second time and then ends with
    the TypeError of [Object.defineProperty] for [$router], which the first
    call has defined; nothing else is done to the constructor. *)
Theorem install_remembers_the_last (a b : nat) (st : Installation) :
  install a (install a st).1 = ((install a st).1, None)
  /\ install a {| installed := false; _Vue := None; applied := [] |}
     = ({| installed := true; _Vue := Some a;
           applied := [VueMixin a; DefineProperty a "$router"; DefineProperty a "$route";
                       VueComponent a "RouterView"; VueComponent a "RouterLink";
                       SetStrats a] |}, None)
  /\ (a <> b -> installed st = false ->
      let st2 := (install b (install a st).1).1 in
      install a st2
      = ({| installed := true; _Vue := Some a; applied := applied st2 ++ [VueMixin a] |},
         Some redefine_error)).
Proof.
  split; [|split].
  - destruct (install_remembers a st) as [Hi Hv].
    unfold install at 1. rewrite Hi, Hv. by rewrite bool_decide_eq_true_2.
  - unfold install, defineProperty. simpl.
    repeat (rewrite bool_decide_eq_false_2
              by (intros H; repeat (apply elem_of_cons in H as [H|H]; [discriminate H|]);
                  by apply elem_of_nil in H);
            simpl).
    done.
  - intros Hne Hfresh st2.
    destruct (install_remembers b (install a st).1) as [Hi Hv].
    destruct (install_applied b (install a st).1) as [l Hl].
    pose proof (install_defines a st Hfresh) as Hd.
    unfold install at 1. fold st2 in Hi, Hv, Hl. rewrite Hi, Hv.
    rewrite bool_decide_eq_false_2 by congruence. simpl.
    unfold defineProperty. simpl.
    rewrite bool_decide_eq_true_2; [done|].
    rewrite Hl. set_solver.
Qed.

Lemma install_remembers_the_last_witness :
  let st0 := {| installed := false; _Vue := None; applied := [] |} in
  (install 1 (install 2 (install 1 st0).1).1).2 = Some redefine_error.
Proof.
  intros st0.
  exact (f_equal snd (proj2 (proj2 (install_remembers_the_last 1 2 st0))
                        ltac:(discriminate) eq_refl)).
Defined.

(** X24. The listener that [setupListeners] installs reads the new address
    first. When its hash cannot be decoded, the URIError leaves the
    listener: nothing is called and nothing is written. When the decoded
    hash does not start with ['/'], no navigation is started: no route is
    matched, no guard is called, the history is left as it is, and the
    only call is [replaceHash] with ['/'] before the decoded hash. When it
    does, a navigation to the decoded hash is started, from the current
    route, without [onAbort], and nothing is written to the address before
    it. *)
Theorem location_change_needs_a_slash (decodeURI : string -> option string) (href : string)
    rm sr (supportsPushState expectScroll : bool) (m : Machine) :
  let out := Address.hash_listener decodeURI href rm sr supportsPushState expectScroll m in
  match Href.getHash decodeURI href with
  | None => out = Raises uri_error m
  | Some hash =>
      if starts_with_slash hash then
        out = Address.transitionTo decodeURI href rm sr (VString hash)
                (Some (OcHashListener (current (history m))
                         (supportsPushState && expectScroll) supportsPushState))
                None m
      else
        exists m', out = Returns m'
          /\ log m' = log m ++ [EvReplaceHash (String slash hash)]
          /\ history m' = history m
          /\ next_ref m' = next_ref m
          /\ control m' = control m
          /\ suspended m' = suspended m
  end.
Proof.
  intros out. subst out. unfold Address.hash_listener, Address.ensureSlash.
  destruct (Href.getHash decodeURI href) as [hash|] eqn:Hh; [|done].
  unfold starts_with_slash. destruct hash as [|c hash]; simpl.
  - by eexists.
  - destruct (Ascii.eqb c slash); [done|by eexists].
Qed.

Lemma location_change_needs_a_slash_witness :
  exists m',
    Address.hash_listener ex_decodeURI "http://host/#two" ex_match_two ex_same true false
      ex_at_home = Returns m'
    /\ log m' = log ex_at_home ++ [EvReplaceHash "/two"]
    /\ history m' = history ex_at_home
    /\ next_ref m' = next_ref ex_at_home
    /\ control m' = control ex_at_home
    /\ suspended m' = suspended ex_at_home.
Proof.
  exact (location_change_needs_a_slash ex_decodeURI "http://host/#two" ex_match_two ex_same
           true false ex_at_home).
Defined.
